(** * netsed: the rule engine, the rule parser and the connection tracker

    A shallow embedding of [netsed.c] (netsed 1.00b) and the properties of
    its rule engine ([sed_the_buffer]), of its rule parser (the rule loop of
    [main] with [shrink_to_binary]) and of the connection list handled by
    the dispatcher loop of [main] ([freetracker], the UDP lookup, the
    removal of dead entries).

    Conventions of the embedding.
    - A C [char] is an [ascii]; a C string is the [list ascii] of its
      characters before the terminating NUL, and reading it at its length
      gives the NUL (see [char_at]).
    - The global array [buf] is read through a [memory]: the bytes found
      from [&buf[0]] on.  [sed_the_buffer] reads it with [memcmp] without
      looking at [siz], so the bytes at and after [siz] are part of what the
      function sees.
    - The global array [b2] is written from index 0 upwards without gaps;
      its written part is the list [s_b2], the byte at position [k] of the
      list being the one stored at [b2[k]], and [newsize] is its length.
      The list is not cut at [MAX_BUF]: past that length it says what the
      code stores outside [b2], and the run is the source's only as long
      as that memory is not read again.
    - [int] counters that only ever hold sizes and indices ([i], [siz],
      [newsize], [changes]) are [nat]; the per-connection counters
      [live[j]], which are decremented without bound, are [Z] with the
      32-bit wrap-around written out in [int_pred].
    - The lengths [fs] and [ts] of a rule are never set before
      [shrink_to_binary] adds to them: their value on entry is part of
      what the allocator leaves ([uninit_s]), and a stored rule has the
      [fs] bytes of its pattern as a list.
    - What the program prints ([printf], [ERR], [DBG]) is left out; the
      calls that use or release a descriptor or a block are kept in a
      trace ([syscall]), and what the system answers to the others is
      given by an [env]. *)

From Stdlib Require Import String Ascii ZArith List Bool Arith Lia.
From Stdlib Require DecimalString DecimalPos.
From Equations Require Import Equations.
Import ListNotations.

(** ** Constants and basic data *)

Definition MAX_BUF : nat := Z.to_nat 100000.
Definition UDP_TIMEOUT : Z := 30.

Definition INT_MIN : Z := (- 2147483648)%Z.
Definition INT_MAX : Z := 2147483647%Z.

(** [live[j]--] on a 32-bit [int]. *)
Definition int_pred (x : Z) : Z :=
  if (x =? INT_MIN)%Z then INT_MAX else (x - 1)%Z.

(** The characters of a string literal. *)
Definition bytes (s : string) : list ascii := list_ascii_of_string s.

(** What is found from [&buf[0]] on. *)
Definition memory := nat -> ascii.

(** [read(fd, buf, sizeof(buf))] and [recvfrom(lsock, buf, ...)] returning
    [length data]: the bytes received overwrite the start of the array and
    leave the rest as it was. *)
Definition store (data : list ascii) (m : memory) : memory :=
  fun i => if i <? length data then nth i data zero else m i.

(** A zero-initialised array. *)
Definition zeroed : memory := fun _ => zero.

(** [struct rule_s].  [from] and [to] are the [fs] bytes at [from] and
    the [ts] bytes at [to], which the engine compares and copies: [fs] and
    [ts] are their lengths. *)
Record rule_s := mk_rule {
  from : list ascii;
  to : list ascii;
  forig : list ascii;
  torig : list ascii
}.

Definition fs (r : rule_s) : nat := length (from r).
Definition ts (r : rule_s) : nat := length (to r).

(** ** The rule engine: [sed_the_buffer] *)

(** [!memcmp(&buf[i], p, length p)]. *)
Fixpoint memcmp_eq (buf : memory) (i : nat) (p : list ascii) : bool :=
  match p with
  | [] => true
  | c :: p' => Ascii.eqb (buf i) c && memcmp_eq buf (S i) p'
  end.

(** [live[j] = v]. *)
Fixpoint upd (j : nat) (v : Z) (live : list Z) : list Z :=
  match live, j with
  | [], _ => []
  | _ :: l, O => v :: l
  | x :: l, S j' => x :: upd j' v l
  end.

(** The state of the outer loop of [sed_the_buffer].  [s_b2] is the
    bytes stored from [b2[0]] on, in the order of the stores, however
    many they are: [b2] has [MAX_BUF] bytes, and a list longer than that
    tells which bytes the code stores past its end, not what the memory
    found there does to the rest of the run.  [buf] is likewise read at
    any index. *)
Record sed_state := mk_sed {
  s_i : nat;
  s_b2 : list ascii;
  s_live : list Z;
  s_changes : nat
}.

Definition newsize (st : sed_state) : nat := length (s_b2 st).

Section Engine.

(** The global [rule] array ([rules] is its length) and [buf]. *)
Variable rule : list rule_s.
Variable buf : memory.

(** The inner loop [for (j=0;j<rules;j++)], entered at [j] with [rs] the
    rules from [j] on: the first [j] whose pattern is found at [i] and
    whose counter is not 0.  [live] holds one counter for each rule
    ([conn->live] is a copy of [rule_live], [rules] entries long). *)
Fixpoint scan_rules (i : nat) (live : list Z) (j : nat) (rs : list rule_s)
  : option (nat * rule_s) :=
  match rs with
  | [] => None
  | r :: rs' =>
      if memcmp_eq buf i (from r) && negb (nth j live 0%Z =? 0)%Z
      then Some (j, r)
      else scan_rules i live (S j) rs'
  end.

(** One turn of the outer loop. *)
Definition sed_step (st : sed_state) : sed_state :=
  match scan_rules (s_i st) (s_live st) 0 rule with
  | Some (j, r) =>
      {| s_i := s_i st + fs r;
         s_b2 := s_b2 st ++ to r;
         s_live := upd j (int_pred (nth j (s_live st) 0%Z)) (s_live st);
         s_changes := S (s_changes st) |}
  | None =>
      {| s_i := S (s_i st);
         s_b2 := s_b2 st ++ [buf (s_i st)];
         s_live := s_live st;
         s_changes := s_changes st |}
  end.

(** [for (i=0;i<siz;) ...]: [None] when the fuel runs out before the loop
    condition fails. *)
Fixpoint sed_loop (fuel siz : nat) (st : sed_state) : option sed_state :=
  if siz <=? s_i st then Some st
  else match fuel with
       | O => None
       | S fuel' => sed_loop fuel' siz (sed_step st)
       end.

(** [sed_the_buffer(siz, live)]: the returned [newsize], the bytes left
    in [b2[0..newsize-1]] and the counters left in [live]. *)
Definition sed_the_buffer (fuel siz : nat) (live : list Z)
  : option (nat * list ascii * list Z) :=
  match sed_loop fuel siz (mk_sed 0 [] live 0) with
  | Some st => Some (newsize st, s_b2 st, s_live st)
  | None => None
  end.

End Engine.

(** ** The rule parser: the rule loop of [main] and [shrink_to_binary] *)

(** [error(reason)] prints the reason and exits with status 2: a parse
    either gives a value or stops the program with a reason. *)
Inductive result (A : Type) : Type :=
| Ok (a : A)
| Fatal (reason : string).
Arguments Ok {A} a.
Arguments Fatal {A} reason.

(** [s[i]] for a C string: the NUL terminator is read at its length. *)
Definition char_at (s : list ascii) (i : nat) : ascii := nth i s zero.

(** [strchr(s, c)] as the offset of the match: the first position of [c]
    in [s], the terminator included when [c] is NUL. *)
Fixpoint strchr (s : list ascii) (c : ascii) : option nat :=
  match s with
  | [] => if Ascii.eqb c zero then Some 0 else None
  | x :: s' =>
      if Ascii.eqb x c then Some 0
      else match strchr s' c with
           | Some k => Some (S k)
           | None => None
           end
  end.

(** [toupper] in the C locale. *)
Definition toupper (c : ascii) : ascii :=
  let n := nat_of_ascii c in
  if (97 <=? n) && (n <=? 122) then ascii_of_nat (n - 32) else c.

(** [char hex[]="0123456789ABCDEF";] *)
Definition hex : list ascii := bytes "0123456789ABCDEF".

Definition msg_end (which : string) : string :=
  ("shrink_to_binary: " ++ which ++ " pattern: unexpected end.")%string.
Definition msg_hex (which : string) : string :=
  ("shrink_to_binary: " ++ which ++ " pattern: non-hex sequence.")%string.

(** What the allocator leaves to [shrink_to_binary].  [main] takes the
    array [rule] from [malloc] and sets [forig] and [torig] of
    [rule[rules]] only; [shrink_to_binary] takes the blocks [from] and
    [to] from [malloc], then stores at [from[fs]] and [to[ts]] and adds
    one to [fs] or [ts] after each store.  Nothing sets [fs] and [ts]
    before: [u_fs] and [u_ts] are the values [malloc] left in them.
    [u_from] and [u_to] are what the two calls of [malloc] return: [None]
    for NULL, else the bytes found in the block. *)
Record uninit_s := mk_uninit {
  u_fs : Z;
  u_ts : Z;
  u_from : option memory;
  u_to : option memory
}.

(** Whether the store [from[fs] = c] (or [to[ts] = c]) lands in its block
    of [strlen(orig)] bytes, [fs] being [k0] on entry of the loop and
    [out] the bytes stored since. *)
Definition in_block (orig : list ascii) (k0 : Z) (out : list ascii) : bool :=
  (0 <=? k0 + Z.of_nat (length out))%Z
  && (k0 + Z.of_nat (length out) <? Z.of_nat (length orig))%Z.

(** One of the two [for (i=0;i<strlen(orig);i++)] loops of
    [shrink_to_binary], entered at [i] with [out] the bytes stored so far,
    the first of them at index [k0]; [which] is "src" for the loop over
    [forig] and "dst" for the loop over [torig], which differ in nothing
    but that word of their messages.  The result is [None] when a byte is
    stored outside the block, after which the source does not say what
    the program does. *)
Equations? shrink_loop (which : string) (orig : list ascii) (k0 : Z)
    (i : nat) (out : list ascii) : option (result (list ascii))
    by wf (length orig - i) lt :=
  shrink_loop which orig k0 i out with le_lt_dec (length orig) i := {
    | left _ => Some (Ok out)
    | right _ =>
        if Ascii.eqb (char_at orig i) "%" then
          if Ascii.eqb (char_at orig (S i)) "%" then
            if in_block orig k0 out then
              shrink_loop which orig k0 (S (S i)) (out ++ ["%"%char])
            else None
          else if Ascii.eqb (char_at orig (S i)) zero then
            Some (Fatal (msg_end which))
          else if Ascii.eqb (char_at orig (S (S i))) zero then
            Some (Fatal (msg_end which))
          else
            match strchr hex (toupper (char_at orig (S i))) with
            | None => Some (Fatal (msg_hex which))
            | Some x1 =>
                match strchr hex (toupper (char_at orig (S (S i)))) with
                | None => Some (Fatal (msg_hex which))
                | Some x2 =>
                    if in_block orig k0 out then
                      shrink_loop which orig k0 (S (S (S i)))
                        (out ++ [ascii_of_nat (x1 * 16 + x2)])
                    else None
                end
            end
        else
          if in_block orig k0 out then
            shrink_loop which orig k0 (S i) (out ++ [char_at orig i])
          else None
  }.
Proof. all: lia. Qed.

(** The [fs] bytes of [from] (or the [ts] bytes of [to]) a rule is left
    with, [fs] being [k0] plus the number of bytes stored: what [malloc]
    left in the block below [k0], then the bytes stored.  [None] when
    [fs] does not lie in the block of [size] bytes: [sed_the_buffer]
    would then read the pattern outside it. *)
Definition pattern_of (blk : memory) (size : nat) (k0 : Z)
    (out : list ascii) : option (list ascii) :=
  if (0 <=? k0)%Z && (k0 + Z.of_nat (length out) <=? Z.of_nat size)%Z
  then Some (map blk (seq 0 (Z.to_nat k0)) ++ out)
  else None.

(** [shrink_to_binary(r)], with [r->forig] and [r->torig] set and the
    rest as [u] gives it.  [None] when the run leaves what the source
    defines: a store outside a block, or a length outside it. *)
Definition shrink_to_binary (u : uninit_s) (forig torig : list ascii)
  : option (result rule_s) :=
  match u_from u, u_to u with
  | Some bf, Some bt =>
      match shrink_loop "src" forig (u_fs u) 0 [] with
      | None => None
      | Some (Fatal m) => Some (Fatal m)
      | Some (Ok f) =>
          match shrink_loop "dst" torig (u_ts u) 0 [] with
          | None => None
          | Some (Fatal m) => Some (Fatal m)
          | Some (Ok t) =>
              match pattern_of bf (length forig) (u_fs u) f,
                    pattern_of bt (length torig) (u_ts u) t with
              | Some f', Some t' => Some (Ok (mk_rule f' t' forig torig))
              | _, _ => None
              end
          end
      end
  | _, _ => Some (Fatal "shrink_to_binary: unable to malloc() buffers")
  end.

(** [atoi], which glibc defines as [(int) strtol(nptr, NULL, 10)]: blanks
    are skipped, a sign is read, digits are accumulated until the first
    other character, the value is clamped to a 64-bit [long] and cut to
    32 bits. *)
Definition isspace (c : ascii) : bool :=
  let n := nat_of_ascii c in (n =? 32) || ((9 <=? n) && (n <=? 13)).

Definition digit_val (c : ascii) : option Z :=
  let n := nat_of_ascii c in
  if (48 <=? n) && (n <=? 57) then Some (Z.of_nat (n - 48)) else None.

Fixpoint skip_spaces (s : list ascii) : list ascii :=
  match s with
  | c :: s' => if isspace c then skip_spaces s' else s
  | [] => []
  end.

Fixpoint digits_acc (acc : Z) (s : list ascii) : Z :=
  match s with
  | c :: s' =>
      match digit_val c with
      | Some d => digits_acc (acc * 10 + d) s'
      | None => acc
      end
  | [] => acc
  end.

Definition LONG_MAX : Z := 9223372036854775807%Z.
Definition LONG_MIN : Z := (- 9223372036854775808)%Z.

Definition strtol10 (s : list ascii) : Z :=
  let v :=
    match skip_spaces s with
    | "-"%char :: s' => (- digits_acc 0 s')%Z
    | "+"%char :: s' => digits_acc 0 s'
    | s' => digits_acc 0 s'
    end in
  Z.max LONG_MIN (Z.min LONG_MAX v).

(** The conversion of a [long] to [int]. *)
Definition to_int (z : Z) : Z :=
  ((z + 2147483648) mod 4294967296 - 2147483648)%Z.

Definition atoi (s : list ascii) : Z := to_int (strtol10 s).

(** The body of [for (i=5;i<argc;i++)] in [main] for [argv[i] = arg],
    [u] being what the allocator leaves for [rule[rules]]: the rule
    stored in [rule[rules]] and the count stored in [rule_live[rules]]. *)
Definition parse_rule (u : uninit_s) (arg : list ascii)
  : option (result (rule_s * Z)) :=
  match strchr arg "/" with
  | None => Some (Fatal "missing first '/' in rule")
  | Some k1 =>
      let fs := skipn (S k1) arg in
      match strchr fs "/" with
      | None => Some (Fatal "missing second '/' in rule")
      | Some k2 =>
          let forig := firstn k2 fs in
          let ts := skipn (S k2) fs in
          let '(torig, cs) :=
            match strchr ts "/" with
            | Some k3 => (firstn k3 ts, Some (skipn (S k3) ts))
            | None => (ts, None)
            end in
          let count :=
            match cs with
            | Some (c :: cs') => atoi (c :: cs')
            | _ => (-1)%Z
            end in
          match shrink_to_binary u forig torig with
          | None => None
          | Some (Fatal m) => Some (Fatal m)
          | Some (Ok r) => Some (Ok (r, count))
          end
      end
  end.

(** The whole rule loop: the arrays [rule] and [rule_live].  [heap k] is
    what the allocator leaves for the rule [k] places after the one that
    is parsed first. *)
Fixpoint parse_rules (heap : nat -> uninit_s) (args : list (list ascii))
  : option (result (list rule_s * list Z)) :=
  match args with
  | [] => Some (Ok ([], []))
  | arg :: args' =>
      match parse_rule (heap 0) arg with
      | None => None
      | Some (Fatal m) => Some (Fatal m)
      | Some (Ok (r, n)) =>
          match parse_rules (fun k => heap (S k)) args' with
          | None => None
          | Some (Fatal m) => Some (Fatal m)
          | Some (Ok (rs, ns)) => Some (Ok (r :: rs, n :: ns))
          end
      end
  end.

(** ** The connection tracker and the dispatcher loop of [main] *)

(** [enum state_e], in declaration order. *)
Inductive state_e := UNREPLIED | ESTABLISHED | DISCONNECTED | TIMEOUT.

Definition state_rank (s : state_e) : nat :=
  match s with
  | UNREPLIED => 0
  | ESTABLISHED => 1
  | DISCONNECTED => 2
  | TIMEOUT => 3
  end.

(** [conn->state >= DISCONNECTED] *)
Definition is_dead (s : state_e) : bool := 2 <=? state_rank s.

(** [struct tracker_s] without its chain pointer [n]: the list
    [connections] is a [list tracker_s], head first.  [csa] is [None] for
    the NULL of a tcp entry and the copied sender address for udp. *)
Record tracker_s := mk_tracker {
  csa : option (list ascii);
  csl : nat;
  csock : Z;
  fsock : Z;
  time : Z;
  state : state_e;
  live : list Z
}.

Definition set_state (s : state_e) (c : tracker_s) : tracker_s :=
  mk_tracker (csa c) (csl c) (csock c) (fsock c) (time c) s (live c).

(** The calls that release or use a resource, in the order made. *)
Inductive syscall :=
| Sys_close (fd : Z)
| Sys_free_csa (sa : list ascii)
| Sys_free_conn
| Sys_write (fd : Z) (data : list ascii)
| Sys_sendto (fd : Z) (data : list ascii) (sa : option (list ascii)) (sl : nat).

(** What a [read] or [recvfrom] returns: a negative value with [errno]
    being [EAGAIN] or not, or the bytes received (none at end of file). *)
Inductive rd_result :=
| Rd_error (eagain : bool)
| Rd_data (data : list ascii).

Definition rd_value (r : rd_result) : Z :=
  match r with
  | Rd_error _ => (-1)%Z
  | Rd_data d => Z.of_nat (length d)
  end.

(** What the system answers during one turn of the [while (!stop)] loop. *)
Record env := mk_env {
  e_time : Z;                       (* time(&now) *)
  e_stop : bool;                    (* stop, read after select *)
  e_sel : Z;                        (* the value of select *)
  e_isset : Z -> bool;              (* FD_ISSET(fd, &rd_set) *)
  e_accept : Z;                     (* the value of accept *)
  e_recvfrom : rd_result;           (* the value of recvfrom *)
  e_sender : list ascii;            (* the l bytes it leaves in s *)
  e_socket : Z;                     (* the value of socket for fsock *)
  e_connect : bool;                 (* connect returned 0 *)
  e_read : Z -> rd_result;          (* read(fd, buf, sizeof(buf)) *)
  e_send : Z -> list ascii -> bool  (* write or sendto returned > 0 *)
}.

(** The globals the handlers change, and the calls made so far. *)
Record glob := mk_glob {
  g_buf : memory;
  g_trace : list syscall
}.

(** Handlers thread the globals and may not return (when
    [sed_the_buffer] does not). *)
Definition M (A : Type) : Type := glob -> option (A * glob).

Definition ret {A} (a : A) : M A := fun g => Some (a, g).

Definition bind {A B} (m : M A) (k : A -> M B) : M B :=
  fun g => match m g with
           | Some (a, g') => k a g'
           | None => None
           end.

Notation "x <- m ;; k" := (bind m (fun x => k))
  (at level 61, m at next level, right associativity).
Notation "m ;;; k" := (bind m (fun _ => k))
  (at level 61, right associativity).

Definition emit (c : syscall) : M unit :=
  fun g => Some (tt, mk_glob (g_buf g) (g_trace g ++ [c])).

(** The bytes a successful [read] or [recvfrom] leaves in [buf]. *)
Definition fill (r : rd_result) : M unit :=
  fun g => match r with
           | Rd_data d => Some (tt, mk_glob (store d (g_buf g)) (g_trace g))
           | Rd_error _ => Some (tt, g)
           end.

(** [freetracker(conn)] *)
Definition freetracker (conn : tracker_s) : M unit :=
  match csa conn with
  | Some sa => emit (Sys_free_csa sa)
  | None => emit (Sys_close (csock conn))
  end ;;;
  emit (Sys_close (fsock conn)) ;;;
  emit Sys_free_conn.

Section Dispatcher.

(** What [main] fixes before the loop: the protocol, the rules with
    their initial counts, the listening socket; and the fuel given to
    each call of [sed_the_buffer]. *)
Variable tcp : bool.
Variable rule : list rule_s.
Variable rule_live : list Z.
Variable lsock : Z.
Variable fuel : nat.

Definition run_sed (siz : nat) (lv : list Z) : M (nat * list ascii * list Z) :=
  fun g => match sed_the_buffer rule (g_buf g) fuel siz lv with
           | Some r => Some (r, g)
           | None => None
           end.

Section Turn.

Variable e : env.
(** The global [now], set by [time(&now)] after [select]. *)
Let now : Z := e_time e.

(** [b2server_sed(conn, rd)] *)
Definition b2server_sed (conn : tracker_s) (rd : Z) : M tracker_s :=
  if (0 <? rd)%Z then
    r <- run_sed (Z.to_nat rd) (live conn) ;;
    let '(_, out, lv) := r in
    let conn := mk_tracker (csa conn) (csl conn) (csock conn) (fsock conn)
                  now (state conn) lv in
    emit (Sys_write (fsock conn) out) ;;;
    if e_send e (fsock conn) out then ret conn
    else ret (set_state DISCONNECTED conn)
  else ret conn.

(** [client2server_sed(conn)] *)
Definition client2server_sed (conn : tracker_s) : M tracker_s :=
  let r := e_read e (csock conn) in
  let rd := rd_value r in
  fill r ;;;
  let conn :=
    match r with
    | Rd_error false => set_state DISCONNECTED conn
    | _ => conn
    end in
  let conn := if (rd =? 0)%Z then set_state DISCONNECTED conn else conn in
  b2server_sed conn rd.

(** [server2client_sed(conn)] *)
Definition server2client_sed (conn : tracker_s) : M tracker_s :=
  let r := e_read e (fsock conn) in
  let rd := rd_value r in
  fill r ;;;
  let conn :=
    match r with
    | Rd_error false => set_state DISCONNECTED conn
    | _ => conn
    end in
  let conn := if (rd =? 0)%Z then set_state DISCONNECTED conn else conn in
  if (0 <? rd)%Z then
    r <- run_sed (Z.to_nat rd) (live conn) ;;
    let '(_, out, lv) := r in
    let conn := mk_tracker (csa conn) (csl conn) (csock conn) (fsock conn)
                  now ESTABLISHED lv in
    emit (Sys_sendto (csock conn) out (csa conn) (csl conn)) ;;;
    if e_send e (csock conn) out then ret conn
    else ret (set_state DISCONNECTED conn)
  else ret conn.

(** The udp lookup [(conn->csl == l) && (0 == memcmp(&s, conn->csa, l))]
    for the sender [s] of length [l]. *)
Definition same_sender (s : list ascii) (conn : tracker_s) : bool :=
  match csa conn with
  | Some a =>
      (csl conn =? length s)
      && if list_eq_dec ascii_dec (firstn (length s) s)
                                  (firstn (length s) a)
         then true else false
  | None => false
  end.

(** The [while(conn != NULL)] scan of the udp branch: the position in
    [connections] at which it breaks. *)
Fixpoint lookup (s : list ascii) (conns : list tracker_s) : option nat :=
  match conns with
  | [] => None
  | c :: conns' =>
      if same_sender s c then Some 0
      else match lookup s conns' with
           | Some k => Some (S k)
           | None => None
           end
  end.

(** [*conn = c'] for the entry at position [k]. *)
Fixpoint put_at (k : nat) (c' : tracker_s) (conns : list tracker_s)
  : list tracker_s :=
  match conns, k with
  | [], _ => []
  | _ :: l, O => c' :: l
  | x :: l, S k' => x :: put_at k' c' l
  end.

(** The entry built for a new connection, before [fsock] is known to
    connect. *)
Definition new_tracker (cs : Z) : tracker_s :=
  if tcp then mk_tracker None 0 cs (e_socket e) now ESTABLISHED rule_live
  else mk_tracker (Some (e_sender e)) (length (e_sender e)) cs
         (e_socket e) now UNREPLIED rule_live.

(** The block [if (FD_ISSET(lsock, &rd_set)) { ... }]. *)
Definition listen_phase (conns : list tracker_s) : M (list tracker_s) :=
  let rd := if tcp then (-1)%Z else rd_value (e_recvfrom e) in
  (if tcp then ret tt else fill (e_recvfrom e)) ;;;
  let found :=
    if tcp then None
    else if (0 <=? rd)%Z then lookup (e_sender e) conns else None in
  let cs :=
    if tcp then e_accept e
    else if (0 <=? rd)%Z then
           match found with
           | None => lsock
           | Some _ => (-1)%Z
           end
         else (-1)%Z in
  r <- (if (0 <=? cs)%Z then
          let conn := new_tracker cs in
          if e_connect e then ret (conn :: conns, Some 0)
          else freetracker conn ;;; ret (conns, None)
        else ret (conns, found)) ;;
  let '(conns1, conn) := r in
  match conn with
  | Some k =>
      if (0 <=? rd)%Z then
        match nth_error conns1 k with
        | Some c => c' <- b2server_sed c rd ;; ret (put_at k c' conns1)
        | None => ret conns1
        end
      else ret conns1
  | None => ret conns1
  end.

(** What the last loop of the turn does with one entry before it
    tests the state: the handlers and the udp timeout. *)
Definition serve (conn : tracker_s) : M tracker_s :=
  c1 <- (if tcp && e_isset e (csock conn) then client2server_sed conn
         else ret conn) ;;
  c2 <- (if e_isset e (fsock c1) then server2client_sed c1 else ret c1) ;;
  if negb tcp && (UDP_TIMEOUT <=? now - time c2)%Z
  then ret (set_state TIMEOUT c2) else ret c2.

(** The last loop of the turn, over [connections] through [pconn]. *)
Fixpoint walk (conns : list tracker_s) : M (list tracker_s) :=
  match conns with
  | [] => ret []
  | conn :: rest =>
      c <- serve conn ;;
      if is_dead (state c) then freetracker c ;;; walk rest
      else (rest' <- walk rest ;; ret (c :: rest'))
  end.

(** One turn of [while (!stop)] from [select] on: [inl] when the loop
    goes on with the new list, [inr] when it is left by [break]. *)
Definition turn (conns : list tracker_s)
  : M (list tracker_s + list tracker_s) :=
  if e_stop e then ret (inr conns)
  else if (e_sel e <? 0)%Z then ret (inr conns)
  else
    conns1 <- (if e_isset e lsock then listen_phase conns else ret conns) ;;
    conns2 <- walk conns1 ;;
    ret (inl conns2).

End Turn.

(** [clean_socks()] *)
Fixpoint free_all (conns : list tracker_s) : M unit :=
  match conns with
  | [] => ret tt
  | conn :: rest => freetracker conn ;;; free_all rest
  end.

Definition clean_socks (conns : list tracker_s) : M unit :=
  emit (Sys_close lsock) ;;; free_all conns.

End Dispatcher.

(** ** Definitions used to state the properties *)

(** A rule without escapes, as [shrink_to_binary] leaves it when the
    lengths of the rule are 0 on entry. *)
Definition plain_rule (f t : string) : rule_s :=
  mk_rule (bytes f) (bytes t) (bytes f) (bytes t).

(** Escape decoding as the specification words it: [%XY] with two hex
    digits of either case is the byte of that value, [%%] is a literal
    [%], every other byte is copied, and decoding fails when a [%] is
    followed by fewer than two characters (unexpected end) or by a pair
    that is not two hex digits (non-hex sequence). *)
Definition hex_digit (c : ascii) : option nat :=
  let n := nat_of_ascii c in
  if (48 <=? n) && (n <=? 57) then Some (n - 48)
  else if (65 <=? n) && (n <=? 70) then Some (n - 55)
  else if (97 <=? n) && (n <=? 102) then Some (n - 87)
  else None.

Inductive decode_error := Unexpected_end | Non_hex_sequence.

Definition emit_byte (b : ascii) (r : decode_error + list ascii)
  : decode_error + list ascii :=
  match r with
  | inl e => inl e
  | inr bs => inr (b :: bs)
  end.

Fixpoint decode (s : list ascii) : decode_error + list ascii :=
  match s with
  | [] => inr []
  | c :: s1 =>
      if Ascii.eqb c "%" then
        match s1 with
        | [] => inl Unexpected_end
        | x :: s2 =>
            if Ascii.eqb x "%" then emit_byte "%" (decode s2)
            else
              match s2 with
              | [] => inl Unexpected_end
              | y :: s3 =>
                  match hex_digit x, hex_digit y with
                  | Some a, Some b =>
                      emit_byte (ascii_of_nat (16 * a + b)) (decode s3)
                  | _, _ => inl Non_hex_sequence
                  end
              end
        end
      else emit_byte c (decode s1)
  end.

(** The message [error] is given for a decoding failure in the source
    ("src") or destination ("dst") pattern. *)
Definition decode_message (which : string) (e : decode_error) : string :=
  match e with
  | Unexpected_end =>
      ("shrink_to_binary: " ++ which ++ " pattern: unexpected end.")%string
  | Non_hex_sequence =>
      ("shrink_to_binary: " ++ which ++ " pattern: non-hex sequence.")%string
  end.

(** The rule of a pair of patterns, as the specification words it. *)
Definition decode_rule (forig torig : list ascii) : result rule_s :=
  match decode forig with
  | inl e => Fatal (decode_message "src" e)
  | inr f =>
      match decode torig with
      | inl e => Fatal (decode_message "dst" e)
      | inr t => Ok (mk_rule f t forig torig)
      end
  end.

(** What [shrink_loop] has to return, entered with [out] stored, for what
    [decode] gives on the rest of the pattern. *)
Definition lift_decode (which : string) (out : list ascii)
    (r : decode_error + list ascii) : result (list ascii) :=
  match r with
  | inl e => Fatal (decode_message which e)
  | inr bs => Ok (out ++ bs)
  end.

(** The two hex digits, upper or lower case, of a byte value. *)
Definition hex_pair (lower : bool) (n : nat) : list ascii :=
  let digit k :=
    let c := nth k hex zero in
    if lower && (10 <=? k) then ascii_of_nat (nat_of_ascii c + 32) else c in
  [digit (n / 16); digit (n mod 16)].

(** The decimal numeral of an integer. *)
Definition decimal (z : Z) : list ascii :=
  bytes (DecimalString.NilEmpty.string_of_int (Z.to_int z)).

(** A chunk cut at [k] occurrences of a pattern: the bytes [u] before each
    occurrence, in order, and the bytes [v] after the last one. *)
Definition pieces (us : list (list ascii)) (X v : list ascii) : list ascii :=
  concat (map (fun u => u ++ X) us) ++ v.

(** The positions of those occurrences in the chunk, the chunk starting
    at [base]. *)
Fixpoint starts (us : list (list ascii)) (X : list ascii) (base : nat)
  : list nat :=
  match us with
  | [] => []
  | u :: us' =>
      (base + length u) :: starts us' X (base + length u + length X)
  end.

(** The calls that release a resource. *)
Definition is_release (c : syscall) : bool :=
  match c with
  | Sys_close _ | Sys_free_csa _ | Sys_free_conn => true
  | Sys_write _ _ | Sys_sendto _ _ _ _ => false
  end.

Definition releases (t : list syscall) : list syscall := filter is_release t.

(** What [freetracker] releases for an entry. *)
Definition released (c : tracker_s) : list syscall :=
  match csa c with
  | Some sa => [Sys_free_csa sa]
  | None => [Sys_close (csock c)]
  end ++ [Sys_close (fsock c); Sys_free_conn].

(** The same connection, whatever its state, time and counters. *)
Definition same_endpoints (c c' : tracker_s) : Prop :=
  csa c = csa c' /\ csl c = csl c' /\ csock c = csock c' /\ fsock c = fsock c'.

Definition alive (c : tracker_s) : bool := negb (is_dead (state c)).

(** The client addresses of the udp entries of a list. *)
Definition udp_addrs (conns : list tracker_s) : list (list ascii) :=
  flat_map (fun c => match csa c with
                     | Some a => [a]
                     | None => []
                     end) conns.

(** [csl] is the size of [csa]. *)
Definition sized (c : tracker_s) : Prop :=
  forall a, csa c = Some a -> csl c = length a.


(** The connection lists met while the loop runs: the empty list before
    the first turn, and what the listening block and the last loop of a
    turn make of a list already met. *)
Inductive reachable (tcp : bool) (rule : list rule_s) (rule_live : list Z)
    (lsock : Z) (fuel : nat) : list tracker_s -> Prop :=
| reach_start : reachable tcp rule rule_live lsock fuel []
| reach_listen e conns g conns' g' :
    reachable tcp rule rule_live lsock fuel conns ->
    listen_phase tcp rule rule_live lsock fuel e conns g = Some (conns', g') ->
    reachable tcp rule rule_live lsock fuel conns'
| reach_walk e conns g conns' g' :
    reachable tcp rule rule_live lsock fuel conns ->
    walk tcp rule fuel e conns g = Some (conns', g') ->
    reachable tcp rule rule_live lsock fuel conns'.

(** The globals after a handler: the trace has grown, by no release. *)
Definition quiet (g g' : glob) : Prop :=
  exists t, g_trace g' = g_trace g ++ t /\ releases t = [].

(** A udp turn used as an example: descriptor 3 listens, the flow of
    client "A" (forward socket 5) has been idle since time 0, the flow of
    client "B" (forward socket 6) was last active at time 35 and its server
    answers "hi andrew" at time 40. *)
Definition example_env : env :=
  mk_env 40 false 1 (fun fd => (fd =? 6)%Z) (-1)
    (Rd_error true) [] (-1) false
    (fun fd => if (fd =? 6)%Z then Rd_data (bytes "hi andrew")
               else Rd_error true)
    (fun _ _ => true).

Definition example_conns : list tracker_s :=
  [mk_tracker (Some (bytes "A")) 1 3 5 0 ESTABLISHED [(-1)%Z];
   mk_tracker (Some (bytes "B")) 1 3 6 35 UNREPLIED [(-1)%Z]].

(** A udp turn in which descriptor 3, the listening socket, has a
    datagram [data] from [sender], and [socket] would return [fd]. *)
Definition datagram_env (now : Z) (sender data : list ascii) (fd : Z) : env :=
  mk_env now false 1 (fun fd' => (fd' =? 3)%Z) (-1)
    (Rd_data data) sender fd true
    (fun _ => Rd_error true) (fun _ _ => true).

(** The list after a first datagram "hello andrew" from "A" at time 10. *)
Definition example_flow : list tracker_s :=
  [mk_tracker (Some (bytes "A")) 1 3 5 10 UNREPLIED [(-2)%Z]].

(** ** Further definitions used to state properties *)

(** How a run may change a counter: not at all when it is 0, and never
    upwards nor below 0 when it is positive. *)
Definition counters_spent (lv lv' : list Z) : Prop :=
  length lv' = length lv
  /\ forall j, (nth j lv 0%Z = 0%Z -> nth j lv' 0%Z = 0%Z)
               /\ ((0 <= nth j lv 0)%Z -> (0 <= nth j lv' 0 <= nth j lv 0)%Z).

(** A byte string written with escapes only: each byte as [%XY], the
    digits in lower or upper case. *)
Definition escape (lower : bool) (bs : list ascii) : list ascii :=
  flat_map (fun b => "%"%char :: hex_pair lower (nat_of_ascii b)) bs.

(** What the last loop of a turn keeps of a list when no socket of an
    entry is ready: the entries that are not dead already and, for udp,
    not idle for [UDP_TIMEOUT] seconds. *)
Definition kept_idle (tcp : bool) (now : Z) (c : tracker_s) : bool :=
  alive c && (tcp || (now - time c <? UDP_TIMEOUT)%Z).

(** The shape of an entry by protocol: a tcp entry has no address copy
    and is [ESTABLISHED]; a udp entry has one and sends to the client
    through the listening socket. *)
Definition well_tagged (tcp : bool) (lsock : Z) (c : tracker_s) : Prop :=
  if tcp then csa c = None /\ csl c = 0 /\ state c = ESTABLISHED
  else csa c <> None /\ csock c = lsock.

(** ** The arguments of [select]

    The head of the [while (!stop)] body in [main]: the descriptors put
    in [rd_set] (in the order of the [FD_SET] calls), [nfds],
    [timeout.tv_sec], and whether [ptimeout] points to [timeout] (it is
    NULL otherwise).  [now] is the global as the previous turn left
    it. *)
Record select_args := mk_select_args {
  rd_set : list Z;
  nfds : Z;
  tv_sec : Z;
  ptimeout : bool
}.

(** [FD_SET(fd, &rd_set); if (nfds < fd) nfds = fd;] *)
Definition watch (fd : Z) (a : select_args) : select_args :=
  mk_select_args (rd_set a ++ [fd])
    (if (nfds a <? fd)%Z then fd else nfds a)
    (tv_sec a) (ptimeout a).

(** [int remain = UDP_TIMEOUT - (now - conn->time);
     if (remain < 0) remain = 0;] *)
Definition remain (now : Z) (conn : tracker_s) : Z :=
  let r := to_int (UDP_TIMEOUT - (now - time conn)) in
  if (r <? 0)%Z then 0%Z else r.

(** The body of the [while(conn != NULL)] loop. *)
Definition prepare_entry (tcp : bool) (now : Z) (a : select_args)
    (conn : tracker_s) : select_args :=
  let a1 :=
    if tcp then watch (csock conn) a
    else
      if (remain now conn <? tv_sec a)%Z
      then mk_select_args (rd_set a) (nfds a) (remain now conn) true
      else a in
  watch (fsock conn) a1.

Definition prepare_select (tcp : bool) (lsock now : Z)
    (conns : list tracker_s) : select_args :=
  fold_left (prepare_entry tcp now) conns
    (mk_select_args [lsock] lsock (UDP_TIMEOUT + 1) false).

(** The descriptors of an entry that the loop waits on. *)
Definition watched (tcp : bool) (conn : tracker_s) : list Z :=
  (if tcp then [csock conn] else []) ++ [fsock conn].

(** ** Addresses and the forwarding target

    A [struct sockaddr_storage] by its family.  A port field holds the
    port as stored, in network byte order; [in_port_t] values are below
    65536.  The zeroed storage has family 0. *)
Inductive sockaddr :=
| Sa_in (sin_port : Z) (sin_addr : Z)
| Sa_in6 (sin6_port : Z) (sin6_flowinfo : Z) (sin6_addr : list ascii)
         (sin6_scope_id : Z)
| Sa_other (sa_family : Z).

Definition zero_storage : sockaddr := Sa_other 0.

(** [fixedhost.ss_family] as a condition: AF_INET and AF_INET6 are not 0. *)
Definition family_set (sa : sockaddr) : bool :=
  match sa with
  | Sa_other f => negb (f =? 0)%Z
  | _ => true
  end.

(** [htons] and [ntohs] are the same function: the identity on a
    big-endian host, the exchange of the two bytes otherwise. *)
Definition swap16 (p : Z) : Z := ((p mod 256) * 256 + p / 256)%Z.

Definition htons (big_endian : bool) (p : Z) : Z :=
  if big_endian then p else swap16 p.

Definition ntohs (big_endian : bool) (p : Z) : Z := htons big_endian p.

Definition in6addr_any : list ascii := repeat zero 16.

Section Addresses.

Variable big_endian : bool.

(** [get_port(sa)] *)
Definition get_port (sa : sockaddr) : Z :=
  match sa with
  | Sa_in p _ => ntohs big_endian p
  | Sa_in6 p _ _ _ => ntohs big_endian p
  | Sa_other _ => 0%Z
  end.

(** [set_port(sa, port)] *)
Definition set_port (sa : sockaddr) (port : Z) : sockaddr :=
  match sa with
  | Sa_in _ a => Sa_in (htons big_endian port) a
  | Sa_in6 _ fl a sc => Sa_in6 (htons big_endian port) fl a sc
  | Sa_other f => Sa_other f
  end.

(** [is_addr_any(sa)]; [htonl(INADDR_ANY)] is 0 on every host. *)
Definition is_addr_any (sa : sockaddr) : bool :=
  match sa with
  | Sa_in _ a => (a =? 0)%Z
  | Sa_in6 _ _ a _ =>
      if list_eq_dec ascii_dec (firstn 16 a) in6addr_any then true else false
  | Sa_other _ => false
  end.

(** A candidate of [getaddrinfo] for the remote host, with what
    [socket] returns for it. *)
Record candidate := mk_candidate {
  ai_addr : sockaddr;
  ai_sd : Z
}.

(** The loop of [main] over the candidates for the remote host, from
    the zeroed [fixedhost] and [fixedport = 0]: the pair
    [(fixedhost, fixedport)] it leaves. *)
Fixpoint resolve_remote (reslist : list candidate) : result (sockaddr * Z) :=
  match reslist with
  | [] => Fatal "Failed in resolving remote host."
  | res :: rest =>
      if (ai_sd res <? 0)%Z then resolve_remote rest
      else
        let fixedport := get_port (ai_addr res) in
        let fixedhost :=
          if negb (is_addr_any (ai_addr res)) then ai_addr res
          else zero_storage in
        Ok (fixedhost, fixedport)
  end.

(** The address a new connection is forwarded to, from the original
    destination [s] of the client's connection. *)
Definition forward_target (fixedhost : sockaddr) (fixedport : Z)
    (s : sockaddr) : sockaddr :=
  let conpo := get_port s in
  let conho := s in
  let conpo := if negb (fixedport =? 0)%Z then fixedport else conpo in
  let conho := if family_set fixedhost then fixedhost else conho in
  set_port conho conpo.

End Addresses.

(** The port field of an address is an [in_port_t]. *)
Definition port_field_ok (sa : sockaddr) : Prop :=
  match sa with
  | Sa_in p _ => (0 <= p < 65536)%Z
  | Sa_in6 p _ a _ => (0 <= p < 65536)%Z
  | Sa_other _ => True
  end.

(** ** The listening socket

    A candidate of [getaddrinfo] for the listening port, with what the
    calls made for it return: the descriptor from [socket], whether
    [bind] and [listen] succeed. *)
Record listen_candidate := mk_listen_candidate {
  lc_inet6 : bool;
  lc_sd : Z;
  lc_bind : bool;
  lc_listen : bool
}.

Inductive sockopt := SO_REUSEADDR | IPV6_V6ONLY | SO_OOBINLINE.

(** The calls of [bind_and_listen], [socket] with its result. *)
Inductive listen_call :=
| L_socket (fd : Z)
| L_setsockopt (fd : Z) (opt : sockopt) (val : Z)
| L_bind (fd : Z)
| L_listen (fd : Z)
| L_close (fd : Z).

(** The [for (res = reslist; res; res = res->ai_next)] loop of
    [bind_and_listen], with [IPV6_V6ONLY] defined: the value left in
    the global [lsock], whether the loop was left by [break], and the
    calls made. *)
Fixpoint bind_loop (af : Z) (tcp : bool) (reslist : list listen_candidate)
    (lsock : Z) : Z * bool * list listen_call :=
  match reslist with
  | [] => (lsock, false, [])
  | res :: rest =>
      let lsock := lc_sd res in
      let continue (t : list listen_call) :=
        let '(l, found, t') := bind_loop af tcp rest lsock in
        (l, found, t ++ t') in
      if (lsock <? 0)%Z then continue [L_socket lsock]
      else
        let one := if (af =? 0)%Z then 0%Z else 1%Z in
        let t :=
          [L_socket lsock; L_setsockopt lsock SO_REUSEADDR 1]
          ++ (if lc_inet6 res then [L_setsockopt lsock IPV6_V6ONLY one]
              else [])
          ++ [L_bind lsock] in
        if negb (lc_bind res) then continue (t ++ [L_close lsock])
        else if tcp then
          if negb (lc_listen res)
          then continue (t ++ [L_listen lsock; L_close lsock])
          else (lsock, true, t ++ [L_listen lsock])
        else (lsock, true, t ++ [L_setsockopt lsock SO_OOBINLINE 1])
  end.

(** [bind_and_listen(af, tcp, portstr)] for the candidates [getaddrinfo]
    gives ([None] when it fails), called with the global [lsock] set and
    no connection tracked: [error] closes [lsock] through [clean_socks]
    before it exits. *)
Definition bind_and_listen (af : Z) (tcp : bool)
    (reslist : option (list listen_candidate)) (lsock : Z)
  : result Z * list listen_call :=
  match reslist with
  | None => (Fatal "Impossible to resolve listening port.", [L_close lsock])
  | Some reslist =>
      let '(l, found, t) := bind_loop af tcp reslist lsock in
      if found then (Ok l, t)
      else (Fatal "Listening socket failed.", t ++ [L_close l])
  end.

(** A candidate on which every call succeeds. *)
Definition usable (tcp : bool) (c : listen_candidate) : bool :=
  (0 <=? lc_sd c)%Z && lc_bind c && (negb tcp || lc_listen c).

(** The descriptors a sequence of calls has opened, and those it has
    closed, in order. *)
Definition opened (t : list listen_call) : list Z :=
  flat_map (fun c => match c with
                     | L_socket fd => if (0 <=? fd)%Z then [fd] else []
                     | _ => []
                     end) t.

Definition closed (t : list listen_call) : list Z :=
  flat_map (fun c => match c with
                     | L_close fd => [fd]
                     | _ => []
                     end) t.

(** ** What the allocator may leave *)

(** The allocator state in which the memory handed out is all zero and
    both blocks are granted. *)
Definition fresh_heap : uninit_s :=
  mk_uninit 0 0 (Some zeroed) (Some zeroed).

(** The fields [fs] and [ts] of the rule happen to be 0 on entry of
    [shrink_to_binary] and [malloc] grants both blocks. *)
Definition zero_fields (u : uninit_s) : Prop :=
  u_fs u = 0%Z /\ u_ts u = 0%Z /\ u_from u <> None /\ u_to u <> None.

(** Whether the bytes [d], stored one after the other from index [k] on,
    all land in a block of [size] bytes. *)
Definition fits (size : nat) (k : Z) (d : list ascii) : bool :=
  match d with
  | [] => true
  | _ :: _ => (0 <=? k)%Z && (k + Z.of_nat (length d) <=? Z.of_nat size)%Z
  end.

(** * Properties *)

(** ** Sanity checks on the embedding *)

Example tcp_scenario_1 :
  sed_the_buffer [plain_rule "andrew" "mike"]
    (store (bytes "test andrew and andrew") zeroed) 22 22 [(-1)%Z]
  = Some (18, bytes "test mike and mike", [(-3)%Z]).
Proof. reflexivity. Qed.

Example expiry_scenario_6 :
  sed_the_buffer [plain_rule "andrew" "mike"]
    (store (bytes "test andrew and andrew") zeroed) 22 22 [1%Z]
  = Some (20, bytes "test mike and andrew", [0%Z]).
Proof. reflexivity. Qed.

Example parse_usage_1 : parse_rule fresh_heap (bytes "s/andrew/mike%00%00")
  = Some (Ok (mk_rule (bytes "andrew") (bytes "mike" ++ [zero; zero])
                (bytes "andrew") (bytes "mike%00%00"), (-1)%Z)).
Proof. reflexivity. Qed.

Example parse_usage_2 : parse_rule fresh_heap (bytes "s/%%/%2f/20")
  = Some (Ok (mk_rule (bytes "%") (bytes "/") (bytes "%%") (bytes "%2f"),
              20%Z)).
Proof. reflexivity. Qed.

Example decode_rule_example :
  decode_rule (bytes "and%72ew%%") (bytes "m%49ke%0a")
  = Ok (mk_rule (bytes "andrew%") (bytes "mIke" ++ ["010"%char])
          (bytes "and%72ew%%") (bytes "m%49ke%0a")).
Proof. reflexivity. Qed.

Example parse_no_second_slash :
  parse_rule fresh_heap (bytes "s/a%4")
  = Some (Fatal "missing second '/' in rule").
Proof. reflexivity. Qed.

(** A rule whose [fs] is 2 on entry, in a block that held "zz": the two
    decoded bytes are stored from [from[2]] on and the pattern has 4
    bytes. *)
Example parse_junk_prefix :
  parse_rule (mk_uninit 2 0 (Some (store (bytes "zz") zeroed)) (Some zeroed))
    (bytes "s/%41%42/b")
  = Some (Ok (mk_rule (bytes "zzAB") (bytes "b") (bytes "%41%42") (bytes "b"),
              (-1)%Z)).
Proof. reflexivity. Qed.

(** ** Lemmas on the engine *)

Lemma upd_length j v l : length (upd j v l) = length l.
Proof.
  revert j; induction l as [|x l IH]; intros [|j]; simpl; auto.
Qed.

Lemma nth_upd_same j v l : j < length l -> nth j (upd j v l) 0%Z = v.
Proof.
  revert j; induction l as [|x l IH]; intros [|j] H; simpl in *;
    try lia; auto.
  apply IH; lia.
Qed.

Lemma nth_upd_other j k v l : k <> j -> nth k (upd j v l) 0%Z = nth k l 0%Z.
Proof.
  revert j k; induction l as [|x l IH]; intros [|j] [|k] H; simpl;
    try congruence; auto.
Qed.

Lemma nth_nonzero_in_range j (l : list Z) : nth j l 0%Z <> 0%Z -> j < length l.
Proof.
  intros H. destruct (Nat.lt_ge_cases j (length l)) as [|Hge]; auto.
  rewrite (nth_overflow l 0%Z Hge) in H. congruence.
Qed.

Lemma int_pred_in_range x : (INT_MIN < x)%Z -> int_pred x = (x - 1)%Z.
Proof.
  intros H. unfold int_pred.
  destruct (Z.eqb_spec x INT_MIN); [lia | reflexivity].
Qed.

Section EngineFacts.

Variable rule : list rule_s.
Variable buf : memory.

(** The inner loop stops at the first rule found at [i] whose counter
    is not 0. *)
Lemma scan_rules_first i lv rs :
  forall j0 k r,
    nth_error rs k = Some r ->
    memcmp_eq buf i (from r) = true ->
    nth (j0 + k) lv 0%Z <> 0%Z ->
    (forall k' r', k' < k -> nth_error rs k' = Some r' ->
       memcmp_eq buf i (from r') = false \/ nth (j0 + k') lv 0%Z = 0%Z) ->
    scan_rules buf i lv j0 rs = Some (j0 + k, r).
Proof.
  induction rs as [|r0 rs IH]; intros j0 k r Hk Hm Hl Hfirst.
  - destruct k; discriminate.
  - destruct k as [|k]; simpl in *.
    + injection Hk as ->. rewrite Hm, Nat.add_0_r.
      destruct (Z.eqb_spec (nth j0 lv 0%Z) 0).
      * rewrite Nat.add_0_r in Hl. contradiction.
      * reflexivity.
    + destruct (Hfirst 0 r0 ltac:(lia) eq_refl) as [H0|H0].
      * rewrite H0. simpl.
        replace (j0 + S k) with (S j0 + k) by lia.
        apply IH; auto.
        -- replace (S j0 + k) with (j0 + S k) by lia. exact Hl.
        -- intros k' r' Hlt Hn.
           replace (S j0 + k') with (j0 + S k') by lia.
           apply (Hfirst (S k') r'); [lia | exact Hn].
      * rewrite Nat.add_0_r in H0. rewrite H0, andb_false_r.
        replace (j0 + S k) with (S j0 + k) by lia.
        apply IH; auto.
        -- replace (S j0 + k) with (j0 + S k) by lia. exact Hl.
        -- intros k' r' Hlt Hn.
           replace (S j0 + k') with (j0 + S k') by lia.
           apply (Hfirst (S k') r'); [lia | exact Hn].
Qed.

(** When the inner loop finds nothing, no rule is both found at [i] and
    live. *)
Lemma scan_rules_none i lv rs :
  forall j0,
    (forall r, In r rs -> memcmp_eq buf i (from r) = false) ->
    scan_rules buf i lv j0 rs = None.
Proof.
  induction rs as [|r0 rs IH]; intros j0 H; simpl; auto.
  rewrite (H r0 (or_introl eq_refl)). simpl.
  apply IH. intros r Hr. apply H. right. exact Hr.
Qed.

End EngineFacts.

(** ** C1: what one application of a rule does *)

(** C1, as the code has it.  When rule [j] is the first rule found at the
    cursor whose counter is not 0, one turn of the engine appends
    [rule[j].to] to the output, advances the cursor by the length of
    [rule[j].from] and decrements [live[j]] whatever its sign, leaving the
    other counters alone: a positive count [N] becomes [N-1], and the
    unlimited count [-1] becomes [-2] (any negative count stays negative,
    so that the rule stays active). *)
Theorem sed_step_first_live_match rule buf st j r :
  nth_error rule j = Some r ->
  memcmp_eq buf (s_i st) (from r) = true ->
  nth j (s_live st) 0%Z <> 0%Z ->
  (forall j' r', j' < j -> nth_error rule j' = Some r' ->
     memcmp_eq buf (s_i st) (from r') = false \/ nth j' (s_live st) 0%Z = 0%Z) ->
  let st' := sed_step rule buf st in
  s_b2 st' = s_b2 st ++ to r
  /\ s_i st' = s_i st + length (from r)
  /\ nth j (s_live st') 0%Z = int_pred (nth j (s_live st) 0%Z)
  /\ (forall k, k <> j -> nth k (s_live st') 0%Z = nth k (s_live st) 0%Z)
  /\ ((0 < nth j (s_live st) 0)%Z ->
      nth j (s_live st') 0%Z = (nth j (s_live st) 0 - 1)%Z)
  /\ (nth j (s_live st) 0%Z = (-1)%Z -> nth j (s_live st') 0%Z = (-2)%Z)
  /\ ((INT_MIN < nth j (s_live st) 0 < 0)%Z -> (nth j (s_live st') 0 < 0)%Z).
Proof.
  intros Hj Hm Hl Hfirst st'.
  assert (Hscan : scan_rules buf (s_i st) (s_live st) 0 rule = Some (j, r)).
  { apply (scan_rules_first buf (s_i st) (s_live st) rule 0 j r); auto. }
  assert (Hlen : j < length (s_live st)) by (apply nth_nonzero_in_range; auto).
  assert (Hst' : st' = mk_sed (s_i st + fs r) (s_b2 st ++ to r)
            (upd j (int_pred (nth j (s_live st) 0%Z)) (s_live st))
            (S (s_changes st))).
  { subst st'. unfold sed_step. rewrite Hscan. reflexivity. }
  rewrite Hst'. simpl.
  assert (Hnew : nth j (upd j (int_pred (nth j (s_live st) 0%Z)) (s_live st)) 0%Z
                 = int_pred (nth j (s_live st) 0%Z))
    by (apply nth_upd_same; exact Hlen).
  repeat split.
  - exact Hnew.
  - intros k Hk. apply nth_upd_other. exact Hk.
  - intros Hpos. rewrite Hnew. apply int_pred_in_range. unfold INT_MIN. lia.
  - intros H1. rewrite Hnew, H1. reflexivity.
  - intros [Hlo Hhi]. rewrite Hnew, int_pred_in_range by exact Hlo. lia.
Qed.

Lemma sed_step_first_live_match_witness :
  let rule := [plain_rule "x" "y"; plain_rule "andrew" "mike"] in
  let buf := store (bytes "andrew") zeroed in
  let st' := sed_step rule buf (mk_sed 0 [] [5%Z; (-1)%Z] 0) in
  s_b2 st' = bytes "mike" /\ s_i st' = 6 /\ nth 1 (s_live st') 0%Z = (-2)%Z.
Proof.
  intros rule buf st'.
  destruct (sed_step_first_live_match rule buf (mk_sed 0 [] [5%Z; (-1)%Z] 0)
              1 (plain_rule "andrew" "mike"))
    as (Hb & Hi & _ & _ & _ & Hneg & _).
  - reflexivity.
  - reflexivity.
  - simpl. discriminate.
  - intros j' r' Hlt Hn. left.
    destruct j' as [|j']; [|lia]. simpl in Hn. injection Hn as <-. reflexivity.
  - split; [exact Hb | split; [exact Hi | apply Hneg; reflexivity]].
Defined.

(** C1 as stated fails: one application to a rule whose count is [-1]
    leaves [-2] in [live], not [-1]. *)
Lemma unlimited_count_not_preserved :
  ~ (forall rule buf fuel siz lv n out lv' j,
       sed_the_buffer rule buf fuel siz lv = Some (n, out, lv') ->
       nth j lv 0%Z = (-1)%Z -> nth j lv' 0%Z = (-1)%Z).
Proof.
  intros H.
  specialize (H [plain_rule "a" "b"] (store (bytes "a") zeroed) 1 1
                [(-1)%Z] 1 (bytes "b") [(-2)%Z] 0 eq_refl eq_refl).
  discriminate H.
Qed.

(** ** C2: the bytes past [siz] *)

(** C2 fails on the code.  A datagram "ab" received after a datagram
    "xyc" leaves 'c' at index 2 of [buf]; with the rule s/bc/X the engine,
    called with [siz = 2], finds "bc" at index 1 and answers "aX", while
    the same two bytes received into a zeroed [buf] give "ab". *)
Theorem sed_the_buffer_reads_past_siz :
  let rule := [plain_rule "bc" "X"] in
  let buf1 := store (bytes "ab") (store (bytes "xyc") zeroed) in
  let buf2 := store (bytes "ab") zeroed in
  (forall i, i < 2 -> buf1 i = buf2 i)
  /\ sed_the_buffer rule buf1 2 2 [(-1)%Z] = Some (2, bytes "aX", [(-2)%Z])
  /\ sed_the_buffer rule buf2 2 2 [(-1)%Z] = Some (2, bytes "ab", [(-1)%Z]).
Proof.
  repeat split.
  intros i Hi. destruct i as [|[|i]]; [reflexivity | reflexivity | lia].
Qed.

(** ** Running the outer loop *)

Lemma sed_loop_done rule buf fuel siz st :
  siz <= s_i st -> sed_loop rule buf fuel siz st = Some st.
Proof.
  intros H. destruct fuel; simpl;
    destruct (Nat.leb_spec siz (s_i st)); auto; lia.
Qed.

Lemma sed_loop_step rule buf fuel siz st :
  s_i st < siz ->
  sed_loop rule buf (S fuel) siz st
  = sed_loop rule buf fuel siz (sed_step rule buf st).
Proof.
  intros H. simpl. destruct (Nat.leb_spec siz (s_i st)); auto; lia.
Qed.

Lemma sed_loop_no_fuel rule buf siz st :
  s_i st < siz -> sed_loop rule buf 0 siz st = None.
Proof.
  intros H. simpl. destruct (Nat.leb_spec siz (s_i st)); auto; lia.
Qed.

Lemma store_repeat c n m i : i < n -> store (repeat c n) m i = c.
Proof.
  intros H. unfold store. rewrite repeat_length.
  destruct (Nat.ltb_spec i n); [|lia].
  apply nth_repeat_lt. exact H.
Qed.

(** A turn at a position where no rule is found copies the byte. *)
Lemma sed_step_copy rule buf i b2 lv ch :
  (forall r, In r rule -> memcmp_eq buf i (from r) = false) ->
  sed_step rule buf (mk_sed i b2 lv ch) = mk_sed (S i) (b2 ++ [buf i]) lv ch.
Proof.
  intros H. unfold sed_step. simpl.
  rewrite (scan_rules_none buf i lv rule 0 H). reflexivity.
Qed.

(** Over a stretch where no rule is found the loop copies the bytes and
    leaves the counters alone. *)
Lemma sed_loop_copy rule buf :
  forall k i b2 lv ch fuel,
    (forall p r, i <= p < i + k -> In r rule ->
       memcmp_eq buf p (from r) = false) ->
    k <= fuel ->
    sed_loop rule buf fuel (i + k) (mk_sed i b2 lv ch)
    = Some (mk_sed (i + k) (b2 ++ map buf (seq i k)) lv ch).
Proof.
  induction k as [|k IH]; intros i b2 lv ch fuel Hno Hfuel.
  - rewrite sed_loop_done by (simpl; lia).
    simpl. rewrite Nat.add_0_r, app_nil_r. reflexivity.
  - destruct fuel as [|fuel]; [lia|].
    rewrite sed_loop_step by (simpl; lia).
    rewrite sed_step_copy by (intros r Hr; apply (Hno i r); [lia | exact Hr]).
    replace (i + S k) with (S i + k) by lia.
    rewrite IH.
    + simpl. rewrite <- app_assoc. reflexivity.
    + intros p r Hp Hr. apply Hno; [lia | exact Hr].
    + lia.
Qed.

(** The output length is what is returned, and it is the written part of
    [b2]. *)
Lemma sed_the_buffer_newsize rule buf fuel siz lv n out lv' :
  sed_the_buffer rule buf fuel siz lv = Some (n, out, lv') -> n = length out.
Proof.
  unfold sed_the_buffer.
  destruct (sed_loop rule buf fuel siz (mk_sed 0 [] lv 0)); [|discriminate].
  intros H. injection H as <- <- <-. reflexivity.
Qed.

Lemma map_nth_seq (out : list ascii) (m : memory) :
  (forall p, p < length out -> m p = nth p out zero) ->
  map m (seq 0 (length out)) = out.
Proof.
  intros H. apply nth_ext with (d := zero) (d' := zero).
  - rewrite length_map, length_seq. reflexivity.
  - intros p Hp. rewrite length_map, length_seq in Hp.
    rewrite <- (H p Hp).
    rewrite nth_indep with (d' := m 0) by (rewrite length_map, length_seq; auto).
    rewrite map_nth with (d := 0). rewrite seq_nth by auto. reflexivity.
Qed.

(** ** C5: a second pass *)

(** C5 as stated fails: with the single unlimited rule s/a/aa the chunk
    "a" becomes "aa", and a second pass over "aa" gives "aaaa". *)
Lemma second_pass_changes_output :
  ~ (forall rule B n1 out1 lv1 n2 out2 lv2,
       sed_the_buffer rule (store B zeroed) (length B) (length B)
         (repeat (-1)%Z (length rule)) = Some (n1, out1, lv1) ->
       sed_the_buffer rule (store out1 zeroed) n1 n1
         (repeat (-1)%Z (length rule)) = Some (n2, out2, lv2) ->
       out2 = out1).
Proof.
  intros H.
  specialize (H [plain_rule "a" "aa"] (bytes "a")
                2 (bytes "aa") [(-2)%Z] 4 (bytes "aaaa") [(-3)%Z]
                eq_refl eq_refl).
  discriminate H.
Qed.

(** C5, amended.  With all counts unlimited, a second pass over the
    output of a first pass returns, and returns the same bytes, whenever no
    rule's source pattern is found at a position of that output. *)
Theorem second_pass_fixed_without_match rule buf fuel siz n out lv buf' fuel' :
  sed_the_buffer rule buf fuel siz (repeat (-1)%Z (length rule))
    = Some (n, out, lv) ->
  (forall p, p < n -> buf' p = nth p out zero) ->
  (forall p r, p < n -> In r rule -> memcmp_eq buf' p (from r) = false) ->
  n <= fuel' ->
  sed_the_buffer rule buf' fuel' n (repeat (-1)%Z (length rule))
    = Some (n, out, repeat (-1)%Z (length rule)).
Proof.
  intros Hrun Hout Hno Hfuel.
  pose proof (sed_the_buffer_newsize _ _ _ _ _ _ _ _ Hrun) as Hn. subst n.
  unfold sed_the_buffer.
  rewrite (sed_loop_copy rule buf' (length out) 0 [] _ 0 fuel').
  - simpl. unfold newsize. simpl.
    rewrite (map_nth_seq out buf' Hout). reflexivity.
  - intros p r Hp Hr. apply Hno; [lia | exact Hr].
  - exact Hfuel.
Qed.

Lemma second_pass_fixed_without_match_witness :
  sed_the_buffer [plain_rule "andrew" "mike"]
    (store (bytes "hi mike") zeroed) 7 7 [(-1)%Z]
  = Some (7, bytes "hi mike", [(-1)%Z]).
Proof.
  apply (second_pass_fixed_without_match [plain_rule "andrew" "mike"]
           (store (bytes "hi andrew") zeroed) 9 9 7 (bytes "hi mike")
           [(-2)%Z] (store (bytes "hi mike") zeroed) 7).
  - reflexivity.
  - intros p Hp.
    do 7 (destruct p as [|p]; [reflexivity|]). lia.
  - intros p r Hp [<-|[]].
    do 7 (destruct p as [|p]; [reflexivity|]). lia.
  - lia.
Defined.

(** ** C10: the room in [b2] *)

(** A rule found at [i] whose counter is not 0, alone in the rule set. *)
Lemma sed_step_single r buf i b2 l ch :
  memcmp_eq buf i (from r) = true ->
  l <> 0%Z ->
  sed_step [r] buf (mk_sed i b2 [l] ch)
  = mk_sed (i + fs r) (b2 ++ to r) [int_pred l] (S ch).
Proof.
  intros Hm Hl. unfold sed_step. simpl. rewrite Hm.
  destruct (Z.eqb_spec l 0); [contradiction | reflexivity].
Qed.

(** Over a run of 'a' the rule s/a/bb writes two bytes for each byte
    read. *)
Lemma sed_loop_doubles buf :
  forall k i b2 l ch fuel,
    (forall p, i <= p < i + k -> buf p = "a"%char) ->
    (l < 0)%Z -> (INT_MIN < l - Z.of_nat k)%Z ->
    k <= fuel ->
    sed_loop [plain_rule "a" "bb"] buf fuel (i + k) (mk_sed i b2 [l] ch)
    = Some (mk_sed (i + k) (b2 ++ repeat "b"%char (2 * k))
              [(l - Z.of_nat k)%Z] (ch + k)).
Proof.
  induction k as [|k IH]; intros i b2 l ch fuel Ha Hneg Hmin Hfuel.
  - rewrite sed_loop_done by (simpl; lia).
    simpl. rewrite !Nat.add_0_r, app_nil_r, Z.sub_0_r. reflexivity.
  - destruct fuel as [|fuel]; [lia|].
    rewrite sed_loop_step by (simpl; lia).
    rewrite sed_step_single.
    + rewrite int_pred_in_range by lia.
      replace (i + fs (plain_rule "a" "bb")) with (S i)
        by (unfold fs; simpl; lia).
      replace (i + S k) with (S i + k) by lia.
      rewrite IH; try lia.
      * replace (2 * S k) with (2 + 2 * k) by lia.
        rewrite repeat_app, <- app_assoc.
        simpl (plain_rule _ _). simpl (to _).
        replace (S ch + k) with (ch + S k) by lia.
        replace (l - 1 - Z.of_nat k)%Z with (l - Z.of_nat (S k))%Z by lia.
        reflexivity.
      * intros p Hp. apply Ha. lia.
    + simpl. rewrite (Ha i) by lia. reflexivity.
    + lia.
Qed.

(** C10 fails on the code.  With the rule s/a/bb and a chunk of
    [MAX_BUF] bytes 'a' (a full [read]), [sed_the_buffer] returns
    [2 * MAX_BUF] after storing that many bytes in [b2], the last of them
    at index [2 * MAX_BUF - 1]. *)
Theorem sed_the_buffer_overruns_b2 :
  sed_the_buffer [plain_rule "a" "bb"]
    (store (repeat "a"%char MAX_BUF) zeroed) MAX_BUF MAX_BUF [(-1)%Z]
  = Some (2 * MAX_BUF, repeat "b"%char (2 * MAX_BUF),
          [(-1 - Z.of_nat MAX_BUF)%Z])
  /\ MAX_BUF < 2 * MAX_BUF.
Proof.
  split.
  - unfold sed_the_buffer.
    pose proof (sed_loop_doubles (store (repeat "a"%char MAX_BUF) zeroed)
                  MAX_BUF 0 [] (-1)%Z 0 MAX_BUF) as H.
    rewrite Nat.add_0_l in H. rewrite H.
    + unfold newsize. cbn [s_b2 s_live app].
      rewrite repeat_length. reflexivity.
    + intros p Hp. apply store_repeat. lia.
    + lia.
    + unfold INT_MIN, MAX_BUF. lia.
    + lia.
  - unfold MAX_BUF. lia.
Qed.

(** ** C3: the empty source pattern *)

(** With the rule s//x the cursor never moves: each turn stores one more
    'x' and decrements the counter. *)
Lemma sed_loop_empty_pattern buf siz :
  forall fuel i b2 l ch,
    i < siz -> (l < 0)%Z -> (INT_MIN < l - Z.of_nat fuel)%Z ->
    sed_loop [mk_rule [] (bytes "x") [] (bytes "x")] buf fuel siz
      (mk_sed i b2 [l] ch) = None.
Proof.
  induction fuel as [|fuel IH]; intros i b2 l ch Hi Hneg Hmin.
  - apply sed_loop_no_fuel. exact Hi.
  - rewrite sed_loop_step by exact Hi.
    rewrite sed_step_single by (simpl; auto; lia).
    rewrite int_pred_in_range by lia.
    replace (i + fs (mk_rule [] (bytes "x") [] (bytes "x"))) with i
      by (unfold fs; simpl; lia).
    apply IH; lia.
Qed.

Lemma iter_sed_step_empty_pattern buf :
  forall k,
    (Z.of_nat k < 2147483647)%Z ->
    Nat.iter k (sed_step [mk_rule [] (bytes "x") [] (bytes "x")] buf)
      (mk_sed 0 [] [(-1)%Z] 0)
    = mk_sed 0 (repeat "x"%char k) [(-1 - Z.of_nat k)%Z] k.
Proof.
  induction k as [|k IH]; intros Hk.
  - reflexivity.
  - rewrite Nat.iter_succ, IH by lia.
    rewrite sed_step_single; [| reflexivity | lia].
    rewrite int_pred_in_range by (unfold INT_MIN; lia).
    f_equal.
    + replace (S k) with (k + 1) by lia. rewrite repeat_app. reflexivity.
    + f_equal. lia.
Qed.

(** The loop of [shrink_to_binary], unfolded. *)
Lemma shrink_loop_at_end which orig k0 i out :
  length orig <= i -> shrink_loop which orig k0 i out = Some (Ok out).
Proof.
  intros H. rewrite shrink_loop_equation_1.
  destruct (le_lt_dec (length orig) i); [reflexivity | lia].
Qed.

Lemma shrink_loop_body which orig k0 i out :
  i < length orig ->
  shrink_loop which orig k0 i out =
  if Ascii.eqb (char_at orig i) "%" then
    if Ascii.eqb (char_at orig (S i)) "%" then
      if in_block orig k0 out then
        shrink_loop which orig k0 (S (S i)) (out ++ ["%"%char])
      else None
    else if Ascii.eqb (char_at orig (S i)) zero then
      Some (Fatal (msg_end which))
    else if Ascii.eqb (char_at orig (S (S i))) zero then
      Some (Fatal (msg_end which))
    else
      match strchr hex (toupper (char_at orig (S i))) with
      | None => Some (Fatal (msg_hex which))
      | Some x1 =>
          match strchr hex (toupper (char_at orig (S (S i)))) with
          | None => Some (Fatal (msg_hex which))
          | Some x2 =>
              if in_block orig k0 out then
                shrink_loop which orig k0 (S (S (S i)))
                  (out ++ [ascii_of_nat (x1 * 16 + x2)])
              else None
          end
      end
  else
    if in_block orig k0 out then
      shrink_loop which orig k0 (S i) (out ++ [char_at orig i])
    else None.
Proof.
  intros H. rewrite shrink_loop_equation_1.
  destruct (le_lt_dec (length orig) i); [lia | reflexivity].
Qed.

(** C3 fails on the code.  The rule string s//x is accepted (whenever
    [malloc] grants the two blocks and left 0 in the two lengths of the
    rule) and gives a rule whose [from] is empty; the engine then finds
    that rule at the first position of any chunk and stays there: after
    [k] turns the cursor is still 0 and [k] bytes have been stored in [b2]
    (more than [MAX_BUF] of them for [k = MAX_BUF + 1]), and no fuel below
    2^31 - 1 lets [sed_the_buffer] return.  Whatever [malloc] left in the
    two lengths, the program does not reject that rule string once the two
    blocks are granted. *)
Theorem empty_source_pattern_accepted :
  (forall u, zero_fields u ->
     parse_rule u (bytes "s//x")
     = Some (Ok (mk_rule [] (bytes "x") [] (bytes "x"), (-1)%Z)))
  /\ (forall u m, u_from u <> None -> u_to u <> None ->
        parse_rule u (bytes "s//x") <> Some (Fatal m))
  /\ (forall buf k, (Z.of_nat k < 2147483647)%Z ->
        Nat.iter k (sed_step [mk_rule [] (bytes "x") [] (bytes "x")] buf)
          (mk_sed 0 [] [(-1)%Z] 0)
        = mk_sed 0 (repeat "x"%char k) [(-1 - Z.of_nat k)%Z] k)
  /\ (forall buf fuel siz, 0 < siz -> (Z.of_nat fuel < 2147483647)%Z ->
        sed_the_buffer [mk_rule [] (bytes "x") [] (bytes "x")] buf fuel siz
          [(-1)%Z] = None).
Proof.
  split; [|split; [|split]].
  - intros [k1 k2 [bf|] [bt|]] (H1 & H2 & H3 & H4); simpl in *;
      try congruence.
    subst. reflexivity.
  - intros [k1 k2 [bf|] [bt|]] m H3 H4; cbn [u_from u_to] in H3, H4;
      try congruence.
    change (parse_rule (mk_uninit k1 k2 (Some bf) (Some bt)) (bytes "s//x"))
      with (match shrink_to_binary (mk_uninit k1 k2 (Some bf) (Some bt))
                    [] (bytes "x") with
            | None => None
            | Some (Fatal m') => Some (Fatal m')
            | Some (Ok r) => Some (Ok (r, (-1)%Z))
            end).
    unfold shrink_to_binary. cbn [u_from u_to u_fs u_ts].
    rewrite (shrink_loop_at_end "src" [] k1 0 []) by (simpl; lia).
    rewrite (shrink_loop_body "dst" (bytes "x") k2 0 []) by (simpl; lia).
    change (Ascii.eqb (char_at (bytes "x") 0) "%") with false. cbv iota.
    destruct (in_block (bytes "x") k2 []); [|discriminate].
    rewrite shrink_loop_at_end by (simpl; lia).
    destruct (pattern_of bf (length (@nil ascii)) k1 []); [|discriminate].
    destruct (pattern_of bt _ k2 _); discriminate.
  - apply iter_sed_step_empty_pattern.
  - intros buf fuel siz Hsiz Hfuel. unfold sed_the_buffer.
    rewrite sed_loop_empty_pattern; auto; unfold INT_MIN; lia.
Qed.

Lemma empty_source_pattern_accepted_witness :
  sed_the_buffer [mk_rule [] (bytes "x") [] (bytes "x")]
    (store (bytes "a") zeroed) 1000 1 [(-1)%Z] = None.
Proof.
  destruct empty_source_pattern_accepted as (_ & _ & _ & H).
  apply H; lia.
Defined.

(** ** C7: escape decoding *)

(** [strchr(hex, toupper(c))] finds the value of a hex digit of either
    case, and nothing else among the characters of a C string. *)
Lemma strchr_hex_toupper c :
  c <> zero -> strchr hex (toupper c) = hex_digit c.
Proof.
  intros H.
  destruct c as [[] [] [] [] [] [] [] []]; try reflexivity.
  exfalso. apply H. reflexivity.
Qed.

Lemma char_at_app pre s k : char_at (pre ++ s) (length pre + k) = char_at s k.
Proof. unfold char_at. apply app_nth2_plus. Qed.

Lemma char_at_app_0 pre s : char_at (pre ++ s) (length pre) = char_at s 0.
Proof. rewrite <- (Nat.add_0_r (length pre)) at 1. apply char_at_app. Qed.

Lemma char_at_app_1 pre s : char_at (pre ++ s) (S (length pre)) = char_at s 1.
Proof.
  replace (S (length pre)) with (length pre + 1) by lia. apply char_at_app.
Qed.

Lemma char_at_app_2 pre s :
  char_at (pre ++ s) (S (S (length pre))) = char_at s 2.
Proof.
  replace (S (S (length pre))) with (length pre + 2) by lia. apply char_at_app.
Qed.

Lemma lift_decode_emit which out b r :
  lift_decode which out (emit_byte b r) = lift_decode which (out ++ [b]) r.
Proof.
  destruct r as [e|bs]; simpl; [reflexivity|].
  rewrite <- app_assoc. reflexivity.
Qed.

(** A store lands in the block while no more bytes have been stored than
    characters read, the first of them at an index that is not negative. *)
Lemma in_block_behind pre s k0 out :
  s <> [] ->
  (0 <= k0 + Z.of_nat (length out))%Z ->
  (k0 + Z.of_nat (length out) <= Z.of_nat (length pre))%Z ->
  in_block (pre ++ s) k0 out = true.
Proof.
  intros Hs H0 H1. unfold in_block. rewrite length_app.
  assert (0 < length s) by (destruct s; [congruence | simpl; lia]).
  apply andb_true_intro. split; [apply Z.leb_le | apply Z.ltb_lt]; lia.
Qed.

(** The loop of [shrink_to_binary], entered anywhere in a pattern with
    no more bytes stored than characters read, the first of them at an
    index that is not negative, does on the rest of the pattern what
    [decode] says. *)
Lemma shrink_loop_decode which k0 :
  forall n s pre out,
    length s <= n ->
    Forall (fun c => c <> zero) s ->
    (0 <= k0 + Z.of_nat (length out))%Z ->
    (k0 + Z.of_nat (length out) <= Z.of_nat (length pre))%Z ->
    shrink_loop which (pre ++ s) k0 (length pre) out
    = Some (lift_decode which out (decode s)).
Proof.
  induction n as [|n IH]; intros s pre out Hn Hnul H0 H1.
  - destruct s; [|simpl in Hn; lia].
    rewrite shrink_loop_at_end by (rewrite length_app; simpl; lia).
    simpl. rewrite app_nil_r. reflexivity.
  - destruct s as [|c s1].
    { rewrite shrink_loop_at_end by (rewrite length_app; simpl; lia).
      simpl. rewrite app_nil_r. reflexivity. }
    rewrite shrink_loop_body by (rewrite length_app; simpl; lia).
    rewrite (in_block_behind pre (c :: s1) k0 out ltac:(discriminate) H0 H1).
    rewrite char_at_app_0, char_at_app_1, char_at_app_2.
    inversion Hnul as [|? ? Hc Hs1]; subst.
    unfold char_at at 1. cbn [nth]. cbn [decode].
    destruct (Ascii.eqb c "%") eqn:Ec.
    + destruct s1 as [|x s2].
      * reflexivity.
      * inversion Hs1 as [|? ? Hx Hs2]; subst.
        unfold char_at at 1 2. cbn [nth].
        destruct (Ascii.eqb x "%") eqn:Ex.
        -- rewrite lift_decode_emit.
           replace (pre ++ c :: x :: s2) with ((pre ++ [c; x]) ++ s2)
             by (rewrite <- app_assoc; reflexivity).
           replace (S (S (length pre))) with (length (pre ++ [c; x]))
             by (rewrite length_app; simpl; lia).
           apply IH; [simpl in Hn; lia | exact Hs2 | |];
             rewrite !length_app; simpl; lia.
        -- destruct (Ascii.eqb_spec x zero) as [->|_]; [contradiction|].
           destruct s2 as [|y s3]; [reflexivity|].
           inversion Hs2 as [|? ? Hy Hs3]; subst.
           unfold char_at. cbn [nth].
           destruct (Ascii.eqb_spec y zero) as [->|_]; [contradiction|].
           rewrite (strchr_hex_toupper x Hx), (strchr_hex_toupper y Hy).
           destruct (hex_digit x) as [a|]; [|reflexivity].
           destruct (hex_digit y) as [b|]; [|reflexivity].
           rewrite lift_decode_emit.
           replace (pre ++ c :: x :: y :: s3) with ((pre ++ [c; x; y]) ++ s3)
             by (rewrite <- app_assoc; reflexivity).
           replace (S (S (S (length pre)))) with (length (pre ++ [c; x; y]))
             by (rewrite length_app; simpl; lia).
           rewrite (Nat.mul_comm a 16).
           apply IH; [simpl in Hn; lia | exact Hs3 | |];
             rewrite !length_app; simpl; lia.
    + rewrite lift_decode_emit.
      replace (pre ++ c :: s1) with ((pre ++ [c]) ++ s1)
        by (rewrite <- app_assoc; reflexivity).
      replace (S (length pre)) with (length (pre ++ [c]))
        by (rewrite length_app; simpl; lia).
      apply IH; [simpl in Hn; lia | exact Hs1 | |];
        rewrite !length_app; simpl; lia.
Qed.

Lemma fits_cons size k b d :
  fits size k (b :: d)
  = ((0 <=? k)%Z && (k <? Z.of_nat size)%Z) && fits size (k + 1) d.
Proof.
  unfold fits. destruct d as [|b' d].
  - simpl length. rewrite andb_true_r.
    destruct (0 <=? k)%Z; [|reflexivity]. simpl.
    destruct (Z.leb_spec (k + 1) (Z.of_nat size));
      destruct (Z.ltb_spec k (Z.of_nat size)); try reflexivity; lia.
  - cbn [length].
    destruct (Z.leb_spec 0 k); destruct (Z.ltb_spec k (Z.of_nat size));
      destruct (Z.leb_spec 0 (k + 1));
      destruct (Z.leb_spec (k + Z.of_nat (S (S (length d))))
                  (Z.of_nat size));
      destruct (Z.leb_spec (k + 1 + Z.of_nat (S (length d)))
                  (Z.of_nat size));
      simpl; try reflexivity; lia.
Qed.

(** Where the loop stores what it decodes, whatever [fs] is on entry:
    when the rest of the pattern decodes to [d], the loop stores [d]
    after [out] if all these stores land in the block, and otherwise
    leaves what the source defines. *)
Lemma shrink_loop_places which k0 :
  forall n s pre out d,
    length s <= n ->
    Forall (fun c => c <> zero) s ->
    decode s = inr d ->
    shrink_loop which (pre ++ s) k0 (length pre) out
    = if fits (length (pre ++ s)) (k0 + Z.of_nat (length out)) d
      then Some (Ok (out ++ d)) else None.
Proof.
  assert (Hstep : forall orig out b d (X : option (result (list ascii))),
    X = (if fits (length orig) (k0 + Z.of_nat (length (out ++ [b]))) d
         then Some (Ok ((out ++ [b]) ++ d)) else None) ->
    (if in_block orig k0 out then X else None)
    = if fits (length orig) (k0 + Z.of_nat (length out)) (b :: d)
      then Some (Ok (out ++ b :: d)) else None).
  { intros orig out b d X ->. rewrite fits_cons. unfold in_block.
    rewrite length_app. simpl length.
    replace (k0 + Z.of_nat (length out + 1))%Z
      with (k0 + Z.of_nat (length out) + 1)%Z by lia.
    rewrite <- app_assoc. simpl app.
    destruct ((0 <=? k0 + Z.of_nat (length out))%Z
              && (k0 + Z.of_nat (length out) <? Z.of_nat (length orig))%Z);
      reflexivity. }
  induction n as [|n IH]; intros s pre out d Hn Hnul Hd.
  - destruct s; [|simpl in Hn; lia]. simpl in Hd. injection Hd as <-.
    rewrite shrink_loop_at_end by (rewrite length_app; simpl; lia).
    simpl. rewrite app_nil_r. reflexivity.
  - destruct s as [|c s1].
    { simpl in Hd. injection Hd as <-.
      rewrite shrink_loop_at_end by (rewrite length_app; simpl; lia).
      simpl. rewrite app_nil_r. reflexivity. }
    rewrite shrink_loop_body by (rewrite length_app; simpl; lia).
    rewrite char_at_app_0, char_at_app_1, char_at_app_2.
    inversion Hnul as [|? ? Hc Hs1]; subst.
    unfold char_at at 1. cbn [nth]. cbn [decode] in Hd.
    destruct (Ascii.eqb c "%") eqn:Ec.
    + destruct s1 as [|x s2]; [discriminate Hd|].
      inversion Hs1 as [|? ? Hx Hs2]; subst.
      unfold char_at at 1 2. cbn [nth].
      destruct (Ascii.eqb x "%") eqn:Ex.
      * destruct (decode s2) as [e|d2] eqn:E2; [discriminate Hd|].
        simpl in Hd. injection Hd as <-.
        apply Hstep.
        replace (pre ++ c :: x :: s2) with ((pre ++ [c; x]) ++ s2)
          by (rewrite <- app_assoc; reflexivity).
        replace (S (S (length pre))) with (length (pre ++ [c; x]))
          by (rewrite length_app; simpl; lia).
        apply IH; [simpl in Hn; lia | exact Hs2 | exact E2].
      * destruct (Ascii.eqb_spec x zero) as [->|_]; [contradiction|].
        destruct s2 as [|y s3]; [discriminate Hd|].
        inversion Hs2 as [|? ? Hy Hs3]; subst.
        unfold char_at. cbn [nth].
        destruct (Ascii.eqb_spec y zero) as [->|_]; [contradiction|].
        rewrite (strchr_hex_toupper x Hx), (strchr_hex_toupper y Hy).
        destruct (hex_digit x) as [a|]; [|discriminate Hd].
        destruct (hex_digit y) as [b|]; [|discriminate Hd].
        destruct (decode s3) as [e|d3] eqn:E3; [discriminate Hd|].
        simpl in Hd. injection Hd as <-.
        rewrite (Nat.mul_comm a 16).
        apply Hstep.
        replace (pre ++ c :: x :: y :: s3) with ((pre ++ [c; x; y]) ++ s3)
          by (rewrite <- app_assoc; reflexivity).
        replace (S (S (S (length pre)))) with (length (pre ++ [c; x; y]))
          by (rewrite length_app; simpl; lia).
        apply IH; [simpl in Hn; lia | exact Hs3 | exact E3].
    + destruct (decode s1) as [e|d1] eqn:E1; [discriminate Hd|].
      simpl in Hd. injection Hd as <-.
      apply Hstep.
      replace (pre ++ c :: s1) with ((pre ++ [c]) ++ s1)
        by (rewrite <- app_assoc; reflexivity).
      replace (S (length pre)) with (length (pre ++ [c]))
        by (rewrite length_app; simpl; lia).
      apply IH; [simpl in Hn; lia | exact Hs1 | exact E1].
Qed.

(** No pattern decodes to more bytes than it has characters. *)
Lemma decode_length :
  forall n s d, length s <= n -> decode s = inr d -> length d <= length s.
Proof.
  induction n as [|n IH]; intros s d Hn Hd.
  - destruct s; [|simpl in Hn; lia]. simpl in Hd. injection Hd as <-.
    simpl. lia.
  - destruct s as [|c s1]; [simpl in Hd; injection Hd as <-; simpl; lia|].
    cbn [decode] in Hd. simpl in Hn.
    destruct (Ascii.eqb c "%").
    + destruct s1 as [|x s2]; [discriminate Hd|].
      destruct (Ascii.eqb x "%").
      * destruct (decode s2) as [e|d2] eqn:E2; [discriminate Hd|].
        simpl in Hd. injection Hd as <-.
        apply IH in E2; simpl in *; lia.
      * destruct s2 as [|y s3]; [discriminate Hd|].
        destruct (hex_digit x); [|discriminate Hd].
        destruct (hex_digit y); [|discriminate Hd].
        destruct (decode s3) as [e|d3] eqn:E3; [discriminate Hd|].
        simpl in Hd. injection Hd as <-.
        apply IH in E3; simpl in *; lia.
    + destruct (decode s1) as [e|d1] eqn:E1; [discriminate Hd|].
      simpl in Hd. injection Hd as <-.
      apply IH in E1; simpl in *; lia.
Qed.

(** C7 fails on the code.  [shrink_to_binary] decodes both patterns as
    [decode] says ([%XY] with hex digits of either case gives the byte of
    that value, [%%] gives [%], any other byte is copied, "unexpected end"
    when a [%] has fewer than two characters after it, "non-hex sequence"
    when the two characters after it are not both hex digits) only when
    the lengths [fs] and [ts] of the rule are 0 on entry, which nothing in
    the program makes them: [rule] comes from [malloc] and the loops only
    add to the two lengths.  For patterns that decode to [f] and [t], the
    rule is left with the [fs] bytes found in the block before [f], and
    [ts] such bytes before [t], when that lies in the two blocks; else a
    byte is stored outside its block or a length is left outside it.  So
    with [fs] or [ts] not 0 the result is never the decoded rule, and a
    source text without [%] that is not empty is always stored past the
    end of its block (or before its start). *)
Theorem shrink_to_binary_starts_at_junk u forig torig bf bt :
  Forall (fun c => c <> zero) forig ->
  Forall (fun c => c <> zero) torig ->
  u_from u = Some bf -> u_to u = Some bt ->
  (u_fs u = 0%Z -> u_ts u = 0%Z ->
   shrink_to_binary u forig torig = Some (decode_rule forig torig))
  /\ (forall f t,
        decode forig = inr f -> decode torig = inr t ->
        shrink_to_binary u forig torig
        = match pattern_of bf (length forig) (u_fs u) f,
                pattern_of bt (length torig) (u_ts u) t with
          | Some f', Some t' => Some (Ok (mk_rule f' t' forig torig))
          | _, _ => None
          end)
  /\ (forall f t,
        decode forig = inr f -> decode torig = inr t ->
        (u_fs u <> 0%Z \/ u_ts u <> 0%Z) ->
        shrink_to_binary u forig torig <> Some (decode_rule forig torig))
  /\ (forig <> [] -> decode forig = inr forig -> u_fs u <> 0%Z ->
      shrink_to_binary u forig torig = None).
Proof.
  intros Hf Ht Hbf Hbt.
  assert (Hchar : forall f t,
    decode forig = inr f -> decode torig = inr t ->
    shrink_to_binary u forig torig
    = match pattern_of bf (length forig) (u_fs u) f,
            pattern_of bt (length torig) (u_ts u) t with
      | Some f', Some t' => Some (Ok (mk_rule f' t' forig torig))
      | _, _ => None
      end).
  { intros f t Df Dt. unfold shrink_to_binary. rewrite Hbf, Hbt.
    pose proof (shrink_loop_places "src" (u_fs u) (length forig) forig []
                  [] f (le_n _) Hf Df) as Es.
    pose proof (shrink_loop_places "dst" (u_ts u) (length torig) torig []
                  [] t (le_n _) Ht Dt) as Ed.
    cbn [app length] in Es, Ed. rewrite Z.add_0_r in Es, Ed.
    rewrite Es, Ed. clear Es Ed.
    assert (Ff : pattern_of bf (length forig) (u_fs u) f <> None ->
                 fits (length forig) (u_fs u) f = true).
    { unfold pattern_of, fits. destruct f; [reflexivity|].
      destruct (_ && _); [reflexivity | intros H; exfalso; apply H; reflexivity]. }
    assert (Ft : pattern_of bt (length torig) (u_ts u) t <> None ->
                 fits (length torig) (u_ts u) t = true).
    { unfold pattern_of, fits. destruct t; [reflexivity|].
      destruct (_ && _); [reflexivity | intros H; exfalso; apply H; reflexivity]. }
    destruct (fits (length forig) (u_fs u) f).
    - destruct (fits (length torig) (u_ts u) t).
      + reflexivity.
      + destruct (pattern_of bt (length torig) (u_ts u) t) as [t'|].
        * specialize (Ft ltac:(discriminate)). discriminate Ft.
        * destruct (pattern_of bf (length forig) (u_fs u) f); reflexivity.
    - destruct (pattern_of bf (length forig) (u_fs u) f) as [f'|].
      + specialize (Ff ltac:(discriminate)). discriminate Ff.
      + reflexivity. }
  split; [|split; [exact Hchar|split]].
  - intros H0 H1. unfold shrink_to_binary, decode_rule. rewrite Hbf, Hbt.
    pose proof (shrink_loop_decode "src" (u_fs u) (length forig) forig []
                  [] (le_n _) Hf) as Es.
    pose proof (shrink_loop_decode "dst" (u_ts u) (length torig) torig []
                  [] (le_n _) Ht) as Ed.
    rewrite H0 in Es |- *. rewrite H1 in Ed |- *.
    simpl in Es, Ed. rewrite Es, Ed by lia.
    destruct (decode forig) as [e|f] eqn:Df; [reflexivity|].
    destruct (decode torig) as [e|t] eqn:Dt; [reflexivity|].
    cbn [lift_decode app]. unfold pattern_of.
    pose proof (decode_length (length forig) forig f (le_n _) Df).
    pose proof (decode_length (length torig) torig t (le_n _) Dt).
    destruct (Z.leb_spec (0 + Z.of_nat (length f)) (Z.of_nat (length forig)));
      [|lia].
    destruct (Z.leb_spec (0 + Z.of_nat (length t)) (Z.of_nat (length torig)));
      [|lia].
    reflexivity.
  - intros f t Df Dt Hnz. rewrite (Hchar f t Df Dt).
    unfold decode_rule. rewrite Df, Dt. unfold pattern_of.
    destruct ((0 <=? u_fs u)%Z
              && (u_fs u + Z.of_nat (length f) <=? Z.of_nat (length forig))%Z)
      eqn:Ef; [|discriminate].
    destruct ((0 <=? u_ts u)%Z
              && (u_ts u + Z.of_nat (length t) <=? Z.of_nat (length torig))%Z)
      eqn:Et; [|discriminate].
    apply andb_prop in Ef. destruct Ef as [Ef _]. apply Z.leb_le in Ef.
    apply andb_prop in Et. destruct Et as [Et _]. apply Z.leb_le in Et.
    intros H. injection H as H1 H2.
    apply (f_equal (@length ascii)) in H1, H2.
    rewrite length_app, length_map, length_seq in H1, H2.
    lia.
  - intros Hne Df Hnz. unfold shrink_to_binary. rewrite Hbf, Hbt.
    pose proof (shrink_loop_places "src" (u_fs u) (length forig) forig []
                  [] forig (le_n _) Hf Df) as Es.
    cbn [app length] in Es. rewrite Z.add_0_r in Es. rewrite Es.
    unfold fits. destruct forig as [|c rest]; [congruence|].
    destruct (Z.leb_spec 0 (u_fs u)); [|reflexivity].
    destruct (Z.leb_spec (u_fs u + Z.of_nat (length (c :: rest)))
                (Z.of_nat (length (c :: rest)))); [lia | reflexivity].
Qed.

Lemma shrink_to_binary_starts_at_junk_witness :
  shrink_to_binary fresh_heap (bytes "and%72ew%%") (bytes "m%49ke%0a")
  = Some (decode_rule (bytes "and%72ew%%") (bytes "m%49ke%0a"))
  /\ shrink_to_binary (mk_uninit 1 0 (Some zeroed) (Some zeroed))
       (bytes "andrew") (bytes "mike")
     = None.
Proof.
  split.
  - apply (shrink_to_binary_starts_at_junk fresh_heap
             (bytes "and%72ew%%") (bytes "m%49ke%0a") zeroed zeroed);
      try reflexivity;
      repeat (constructor; [discriminate|]); constructor.
  - apply (shrink_to_binary_starts_at_junk
             (mk_uninit 1 0 (Some zeroed) (Some zeroed))
             (bytes "andrew") (bytes "mike") zeroed zeroed);
      try reflexivity; try discriminate;
      repeat (constructor; [discriminate|]); constructor.
Defined.

(** Every byte value is reached by its escape, in either case. *)
Lemma hex_escape_every_byte which lower n :
  n < 256 ->
  shrink_loop which ("%"%char :: hex_pair lower n) 0 0 []
  = Some (Ok [ascii_of_nat n]).
Proof.
  intros Hn.
  assert (Hall : forallb (fun n =>
            forallb (fun lower =>
              match hex_pair lower n with
              | [x; y] =>
                  negb (Ascii.eqb x zero) && negb (Ascii.eqb y zero)
                  && match decode ("%"%char :: hex_pair lower n) with
                     | inr [b] => Ascii.eqb b (ascii_of_nat n)
                     | _ => false
                     end
              | _ => false
              end) [true; false]) (seq 0 256) = true) by (vm_compute; reflexivity).
  rewrite forallb_forall in Hall.
  specialize (Hall n ltac:(apply in_seq; lia)).
  rewrite forallb_forall in Hall.
  specialize (Hall lower ltac:(destruct lower; simpl; auto)).
  destruct (hex_pair lower n) as [|x [|y [|? ?]]] eqn:Ep; try discriminate.
  apply andb_prop in Hall as [Hnz Hdec].
  apply andb_prop in Hnz as [Hx Hy].
  pose proof (shrink_loop_decode which 0 3 ("%"%char :: [x; y]) [] []) as H.
  simpl length in H. rewrite app_nil_l in H. rewrite H.
  - destruct (decode ("%"%char :: [x; y])) as [e|[|b [|? ?]]]; try discriminate.
    apply Ascii.eqb_eq in Hdec. subst b. reflexivity.
  - lia.
  - repeat constructor; try discriminate.
    + intros ->. discriminate.
    + intros ->. discriminate.
  - lia.
  - lia.
Qed.

(** ** C4: the count field *)

Lemma strchr_found c p rest :
  ~ In c p -> strchr (p ++ c :: rest) c = Some (length p).
Proof.
  induction p as [|x p IH]; intros Hp; simpl.
  - rewrite Ascii.eqb_refl. reflexivity.
  - destruct (Ascii.eqb_spec x c) as [->|_].
    + exfalso. apply Hp. left. reflexivity.
    + rewrite IH; [reflexivity|]. intros Hin. apply Hp. right. exact Hin.
Qed.

Lemma strchr_absent c s : c <> zero -> ~ In c s -> strchr s c = None.
Proof.
  intros Hc. induction s as [|x s IH]; intros Hs; simpl.
  - destruct (Ascii.eqb_spec c zero); [contradiction | reflexivity].
  - destruct (Ascii.eqb_spec x c) as [->|_].
    + exfalso. apply Hs. left. reflexivity.
    + rewrite IH; [reflexivity|]. intros Hin. apply Hs. right. exact Hin.
Qed.

Lemma skipn_past (p : list ascii) c rest :
  skipn (S (length p)) (p ++ c :: rest) = rest.
Proof. induction p as [|x p IH]; simpl; auto. Qed.

Lemma firstn_upto (p rest : list ascii) : firstn (length p) (p ++ rest) = p.
Proof. induction p as [|x p IH]; simpl; [destruct rest|]; congruence. Qed.

(** What the rule loop of [main] does with a rule string cut in fields. *)
Lemma parse_rule_fields u p forig torig (tail : option (list ascii)) :
  ~ In "/"%char p -> ~ In "/"%char forig -> ~ In "/"%char torig ->
  parse_rule u (p ++ "/"%char :: forig ++ "/"%char :: torig
                  ++ match tail with
                     | Some cs => "/"%char :: cs
                     | None => []
                     end)
  = match shrink_to_binary u forig torig with
    | None => None
    | Some (Fatal m) => Some (Fatal m)
    | Some (Ok r) => Some (Ok (r, match tail with
                                  | Some (c :: cs) => atoi (c :: cs)
                                  | _ => (-1)%Z
                                  end))
    end.
Proof.
  intros Hp Hf Ht. unfold parse_rule.
  rewrite (strchr_found "/" p _ Hp), skipn_past.
  rewrite (strchr_found "/" forig _ Hf), skipn_past, firstn_upto.
  destruct tail as [cs|].
  - rewrite (strchr_found "/" torig _ Ht), skipn_past, firstn_upto.
    destruct cs; reflexivity.
  - rewrite app_nil_r, (strchr_absent "/" torig ltac:(discriminate) Ht).
    reflexivity.
Qed.

Lemma digits_acc_of_uint_acc d :
  forall acc,
    digits_acc (Z.pos acc) (bytes (DecimalString.NilEmpty.string_of_uint d))
    = Z.pos (Pos.of_uint_acc d acc).
Proof.
  induction d; intros acc;
    cbn [DecimalString.NilEmpty.string_of_uint bytes list_ascii_of_string
         digits_acc Pos.of_uint_acc];
    try reflexivity;
    fold (bytes (DecimalString.NilEmpty.string_of_uint d));
    change (digit_val _) with (Some 0%Z) at 1 ||
    change (digit_val _) with (Some 1%Z) at 1 ||
    change (digit_val _) with (Some 2%Z) at 1 ||
    change (digit_val _) with (Some 3%Z) at 1 ||
    change (digit_val _) with (Some 4%Z) at 1 ||
    change (digit_val _) with (Some 5%Z) at 1 ||
    change (digit_val _) with (Some 6%Z) at 1 ||
    change (digit_val _) with (Some 7%Z) at 1 ||
    change (digit_val _) with (Some 8%Z) at 1 ||
    change (digit_val _) with (Some 9%Z) at 1;
    cbv iota; rewrite <- IHd; f_equal; lia.
Qed.

Lemma digits_acc_of_uint d :
  digits_acc 0 (bytes (DecimalString.NilEmpty.string_of_uint d))
  = Z.of_N (Pos.of_uint d).
Proof.
  induction d;
    cbn [DecimalString.NilEmpty.string_of_uint bytes list_ascii_of_string
         digits_acc Pos.of_uint];
    try reflexivity;
    fold (bytes (DecimalString.NilEmpty.string_of_uint d)).
  - exact IHd.
  - apply (digits_acc_of_uint_acc d 1).
  - apply (digits_acc_of_uint_acc d 2).
  - apply (digits_acc_of_uint_acc d 3).
  - apply (digits_acc_of_uint_acc d 4).
  - apply (digits_acc_of_uint_acc d 5).
  - apply (digits_acc_of_uint_acc d 6).
  - apply (digits_acc_of_uint_acc d 7).
  - apply (digits_acc_of_uint_acc d 8).
  - apply (digits_acc_of_uint_acc d 9).
Qed.

Lemma to_int_in_range z : (INT_MIN <= z <= INT_MAX)%Z -> to_int z = z.
Proof.
  unfold INT_MIN, INT_MAX, to_int. intros H.
  rewrite Z.mod_small by lia. lia.
Qed.

Lemma strtol10_unsigned d :
  d <> Decimal.Nil ->
  strtol10 (bytes (DecimalString.NilEmpty.string_of_uint d))
  = Z.max LONG_MIN (Z.min LONG_MAX
      (digits_acc 0 (bytes (DecimalString.NilEmpty.string_of_uint d)))).
Proof.
  intros Hd. destruct d; [contradiction | reflexivity ..].
Qed.

Lemma to_uint_not_nil p : Pos.to_uint p <> Decimal.Nil.
Proof.
  intros E. pose proof (DecimalPos.Unsigned.of_to p) as H.
  rewrite E in H. discriminate H.
Qed.

(** [atoi] reads back the decimal numeral of every [int]. *)
Lemma atoi_decimal z : (INT_MIN <= z <= INT_MAX)%Z -> atoi (decimal z) = z.
Proof.
  intros Hz. unfold atoi. rewrite <- (to_int_in_range z Hz) at 2. f_equal.
  unfold INT_MIN, INT_MAX in Hz.
  destruct z as [|p|p]; unfold decimal; cbn [Z.to_int].
  - reflexivity.
  - cbn [DecimalString.NilEmpty.string_of_int].
    rewrite (strtol10_unsigned _ (to_uint_not_nil p)).
    rewrite digits_acc_of_uint, DecimalPos.Unsigned.of_to.
    unfold LONG_MIN, LONG_MAX. cbn [Z.of_N]. lia.
  - cbn [DecimalString.NilEmpty.string_of_int bytes list_ascii_of_string].
    fold (bytes (DecimalString.NilEmpty.string_of_uint (Pos.to_uint p))).
    unfold strtol10.
    change (skip_spaces ("-"%char :: ?r)) with ("-"%char :: r).
    cbv iota beta.
    rewrite digits_acc_of_uint, DecimalPos.Unsigned.of_to.
    unfold LONG_MIN, LONG_MAX. cbn [Z.of_N]. lia.
Qed.

(** C4 as stated fails: the rule string s/a/b/0 gives the count 0, with
    which the rule is never applied, not [-1]. *)
Lemma explicit_zero_count_is_expired :
  ~ (forall arg r n,
       arg = bytes "s/a/b/0" ->
       parse_rule fresh_heap arg = Some (Ok (r, n)) -> n = (-1)%Z).
Proof.
  intros H.
  specialize (H (bytes "s/a/b/0") (plain_rule "a" "b") 0%Z eq_refl eq_refl).
  discriminate H.
Qed.

(** C4, amended.  A count field that is absent or empty gives the initial
    count [-1]; a count field that is not empty gives what [atoi] reads in
    it, which for a decimal numeral is its value whatever its sign: an
    explicit [0] gives the count 0 (the rule starts expired: no turn of the
    engine applies it) and a negative numeral gives that negative count. *)
Theorem parse_rule_count u p forig torig r :
  ~ In "/"%char p -> ~ In "/"%char forig -> ~ In "/"%char torig ->
  shrink_to_binary u forig torig = Some (Ok r) ->
  parse_rule u (p ++ "/"%char :: forig ++ "/"%char :: torig)
  = Some (Ok (r, (-1)%Z))
  /\ parse_rule u (p ++ "/"%char :: forig ++ "/"%char :: torig ++ ["/"%char])
     = Some (Ok (r, (-1)%Z))
  /\ (forall c cs,
        parse_rule u (p ++ "/"%char :: forig ++ "/"%char :: torig
                        ++ "/"%char :: c :: cs)
        = Some (Ok (r, atoi (c :: cs))))
  /\ (forall z, (INT_MIN <= z <= INT_MAX)%Z ->
        parse_rule u (p ++ "/"%char :: forig ++ "/"%char :: torig
                        ++ "/"%char :: decimal z)
        = Some (Ok (r, z)))
  /\ (forall buf i, scan_rules buf i [0%Z] 0 [r] = None).
Proof.
  intros Hp Hf Ht Hr. repeat apply conj.
  - pose proof (parse_rule_fields u p forig torig None Hp Hf Ht) as H.
    rewrite app_nil_r, Hr in H. exact H.
  - pose proof (parse_rule_fields u p forig torig (Some []) Hp Hf Ht) as H.
    rewrite Hr in H. exact H.
  - intros c cs.
    pose proof (parse_rule_fields u p forig torig (Some (c :: cs)) Hp Hf Ht)
      as H.
    rewrite Hr in H. exact H.
  - intros z Hz.
    pose proof (parse_rule_fields u p forig torig (Some (decimal z)) Hp Hf Ht)
      as H.
    rewrite Hr in H. rewrite H. f_equal. f_equal. f_equal.
    destruct (decimal z) as [|c cs] eqn:Ed.
    + exfalso. pose proof (atoi_decimal z Hz) as Ha. rewrite Ed in Ha.
      destruct z as [|q|q]; [discriminate Ed | discriminate Ha | discriminate Ed].
    + rewrite <- Ed. apply atoi_decimal. exact Hz.
  - intros buf i. simpl. rewrite andb_false_r. reflexivity.
Qed.

Lemma parse_rule_count_witness :
  parse_rule fresh_heap (bytes "s/a/b/0")
  = Some (Ok (plain_rule "a" "b", 0%Z))
  /\ parse_rule fresh_heap (bytes "s/a/b/-7")
     = Some (Ok (plain_rule "a" "b", (-7)%Z))
  /\ parse_rule fresh_heap (bytes "s/a/b/")
     = Some (Ok (plain_rule "a" "b", (-1)%Z)).
Proof.
  destruct (parse_rule_count fresh_heap (bytes "s") (bytes "a") (bytes "b")
              (plain_rule "a" "b")) as (_ & Hempty & _ & Hdec & _).
  - simpl. intros [H|[]]. discriminate H.
  - simpl. intros [H|[]]. discriminate H.
  - simpl. intros [H|[]]. discriminate H.
  - reflexivity.
  - split; [|split].
    + apply (Hdec 0%Z). unfold INT_MIN, INT_MAX. lia.
    + apply (Hdec (-7)%Z). unfold INT_MIN, INT_MAX. lia.
    + exact Hempty.
Defined.

(** ** C6: a rule with a count *)

(** C6 fails on the code, by the defect of C2.  The chunk "ab" holds no
    occurrence of "bc", yet after a datagram "xyc" the rule s/bc/Y/5 is
    applied once to it and its counter goes from 5 to 4. *)
Theorem counted_rule_applied_past_siz :
  let buf := store (bytes "ab") (store (bytes "xyc") zeroed) in
  (forall p, firstn 2 (skipn p (bytes "ab")) <> bytes "bc")
  /\ sed_the_buffer [plain_rule "bc" "Y"] buf 2 2 [5%Z]
     = Some (2, bytes "aY", [4%Z]).
Proof.
  split; [|reflexivity].
  intros p. destruct p as [|[|[|p]]]; discriminate.
Qed.

(** The loop over a stretch where the inner loop finds nothing, followed
    by the rest of the loop. *)
Lemma sed_loop_skip rule buf siz :
  forall k i b2 lv ch fuel,
    (forall p, i <= p < i + k -> scan_rules buf p lv 0 rule = None) ->
    i + k <= siz ->
    sed_loop rule buf (k + fuel) siz (mk_sed i b2 lv ch)
    = sed_loop rule buf fuel siz
        (mk_sed (i + k) (b2 ++ map buf (seq i k)) lv ch).
Proof.
  induction k as [|k IH]; intros i b2 lv ch fuel Hno Hk.
  - simpl. rewrite Nat.add_0_r, app_nil_r. reflexivity.
  - change (S k + fuel) with (S (k + fuel)).
    rewrite sed_loop_step by (simpl; lia).
    unfold sed_step. cbn [s_i s_live s_b2 s_changes].
    rewrite (Hno i) by lia.
    rewrite IH.
    + replace (S i + k) with (i + S k) by lia.
      simpl. rewrite <- app_assoc. reflexivity.
    + intros p Hp. apply Hno. lia.
    + lia.
Qed.

Lemma sed_loop_more_fuel rule buf siz :
  forall fuel fuel' st st',
    sed_loop rule buf fuel siz st = Some st' ->
    fuel <= fuel' ->
    sed_loop rule buf fuel' siz st = Some st'.
Proof.
  induction fuel as [|fuel IH]; intros fuel' st st' H Hle.
  - simpl in H. destruct (Nat.leb_spec siz (s_i st)); [|discriminate].
    injection H as <-. apply sed_loop_done. assumption.
  - destruct fuel' as [|fuel']; [lia|].
    simpl in H |- *. destruct (siz <=? s_i st); [exact H|].
    apply IH with (fuel' := fuel') in H; [exact H | lia].
Qed.

Lemma memcmp_eq_true_iff buf i X :
  memcmp_eq buf i X = true <-> map buf (seq i (length X)) = X.
Proof.
  revert i. induction X as [|c X IH]; intros i; simpl.
  - tauto.
  - rewrite andb_true_iff, Ascii.eqb_eq, IH. split.
    + intros [-> ->]. reflexivity.
    + intros H. injection H as -> ->. auto.
Qed.

Lemma starts_shift us X base :
  starts us X base = map (fun q => base + q) (starts us X 0).
Proof.
  revert base. induction us as [|u us IH]; intros base; simpl; [reflexivity|].
  rewrite (IH (base + length u + length X)), (IH (length u + length X)).
  rewrite map_map. f_equal.
  apply map_ext. intros q. lia.
Qed.

Lemma pieces_cons u us X v : pieces (u :: us) X v = u ++ X ++ pieces us X v.
Proof. unfold pieces. simpl. rewrite <- !app_assoc. reflexivity. Qed.

Lemma map_seq_agree (buf : memory) (B : list ascii) i :
  forall k off,
    off + k <= length B ->
    (forall q, q < length B -> buf (i + q) = nth q B zero) ->
    map buf (seq (i + off) k) = firstn k (skipn off B).
Proof.
  intros k off Hk Hag.
  apply nth_ext with (d := zero) (d' := zero).
  - rewrite length_map, length_seq, length_firstn, length_skipn. lia.
  - intros n Hn. rewrite length_map, length_seq in Hn.
    rewrite nth_indep with (d' := buf 0) by (rewrite length_map, length_seq; auto).
    rewrite map_nth with (d := 0), seq_nth by auto.
    rewrite nth_firstn. destruct (Nat.ltb_spec n k); [|lia].
    rewrite nth_skipn. rewrite <- Hag by lia. f_equal. lia.
Qed.

Lemma starts_lower_bound us X :
  forall base q, In q (starts us X base) -> base <= q.
Proof.
  induction us as [|u us IH]; intros base q H; simpl in H; [contradiction|].
  destruct H as [<-|H]; [lia|]. apply IH in H. lia.
Qed.

Lemma pieces_length u us X v :
  length (pieces (u :: us) X v)
  = length u + length X + length (pieces us X v).
Proof. rewrite pieces_cons, !length_app. lia. Qed.

Lemma pieces_head u us X v : firstn (length u) (pieces (u :: us) X v) = u.
Proof.
  rewrite pieces_cons, firstn_app, firstn_all, Nat.sub_diag, firstn_O.
  apply app_nil_r.
Qed.

Lemma pieces_occurrence u us X v :
  firstn (length X) (skipn (length u) (pieces (u :: us) X v)) = X.
Proof.
  rewrite pieces_cons, skipn_app, skipn_all, Nat.sub_diag, skipn_O.
  rewrite app_nil_l, firstn_app, firstn_all, Nat.sub_diag, firstn_O.
  apply app_nil_r.
Qed.

(** A single rule, its pattern found in the chunk at the [k] cut points
    and nowhere else below [siz]: the loop replaces the leftmost
    [min k l] occurrences and takes that many off the counter. *)
Lemma sed_loop_counted X Y fo tg buf :
  X <> [] ->
  forall us v i b2 l ch fuel,
    (forall q, q < length (pieces us X v) ->
       buf (i + q) = nth q (pieces us X v) zero) ->
    (forall q, q < length (pieces us X v) ->
       memcmp_eq buf (i + q) X = true -> In q (starts us X 0)) ->
    (0 <= l <= INT_MAX)%Z ->
    length (pieces us X v) <= fuel ->
    sed_loop [mk_rule X Y fo tg] buf fuel (i + length (pieces us X v))
      (mk_sed i b2 [l] ch)
    = Some (mk_sed (i + length (pieces us X v))
              (b2 ++ pieces (firstn (Nat.min (length us) (Z.to_nat l)) us) Y
                       (pieces (skipn (Nat.min (length us) (Z.to_nat l)) us)
                          X v))
              [(l - Z.of_nat (Nat.min (length us) (Z.to_nat l)))%Z]
              (ch + Nat.min (length us) (Z.to_nat l))).
Proof.
  intros HX. induction us as [|u us IH]; intros v i b2 l ch fuel Hag Hocc Hl Hfuel.
  - (* no occurrence left: the rest is copied *)
    change (pieces [] X v) with v in *. cbn [length Nat.min firstn skipn].
    change (pieces [] Y (pieces [] X v)) with v.
    replace fuel with (length v + (fuel - length v)) by lia.
    rewrite sed_loop_skip.
    + rewrite sed_loop_done by (simpl; lia).
      pose proof (map_seq_agree buf v i (length v) 0) as Hm.
      rewrite Nat.add_0_r, skipn_O, firstn_all in Hm.
      rewrite Hm by (auto; lia).
      rewrite Nat.add_0_r, Z.sub_0_r. reflexivity.
    + intros p Hp. simpl.
      destruct (memcmp_eq buf p X) eqn:E; [|reflexivity].
      exfalso. replace p with (i + (p - i)) in E by lia.
      apply Hocc in E; [exact E | lia].
    + lia.
  - destruct (Z.eq_dec l 0) as [->|Hnz].
    + (* the rule is expired: the rest is copied *)
      cbn [Z.to_nat]. rewrite Nat.min_0_r. cbn [firstn skipn].
      change (pieces [] Y ?w) with w.
      set (B := pieces (u :: us) X v) in *.
      replace fuel with (length B + (fuel - length B)) by lia.
      rewrite sed_loop_skip.
      * rewrite sed_loop_done by (simpl; lia).
        pose proof (map_seq_agree buf B i (length B) 0) as Hm.
        rewrite Nat.add_0_r, skipn_O, firstn_all in Hm.
        rewrite Hm by (auto; lia).
        rewrite Nat.add_0_r. reflexivity.
      * intros p Hp. simpl. rewrite andb_false_r. reflexivity.
      * lia.
    + (* copy [u], apply the rule, go on with one application less *)
      pose proof (pieces_length u us X v) as HB.
      assert (HXlen : 0 < length X) by (destruct X; simpl; [congruence | lia]).
      replace fuel with (length u + S (fuel - length u - 1)) by lia.
      rewrite sed_loop_skip.
      * rewrite sed_loop_step by (simpl; lia).
        pose proof (map_seq_agree buf (pieces (u :: us) X v) i (length u) 0) as Hu.
        rewrite Nat.add_0_r, skipn_O in Hu.
        rewrite Hu by (auto; lia).
        rewrite pieces_head.
        rewrite sed_step_single.
        -- rewrite int_pred_in_range by (unfold INT_MIN; lia).
           unfold fs. cbn [from to].
           replace (i + length (pieces (u :: us) X v))
             with (i + length u + length X + length (pieces us X v)) by lia.
           rewrite IH.
           ++ replace (Nat.min (length (u :: us)) (Z.to_nat l))
                with (S (Nat.min (length us) (Z.to_nat (l - 1))))
                by (simpl length; lia).
              cbn [firstn skipn]. rewrite pieces_cons, <- !app_assoc.
              f_equal. f_equal; [f_equal; lia | lia].
           ++ intros q Hq.
              replace (i + length u + length X + q)
                with (i + (length u + length X + q)) by lia.
              rewrite Hag by lia.
              rewrite pieces_cons, app_assoc.
              rewrite app_nth2 by (rewrite length_app; lia).
              f_equal. rewrite length_app. lia.
           ++ intros q Hq Hm.
              replace (i + length u + length X + q)
                with (i + (length u + length X + q)) in Hm by lia.
              apply Hocc in Hm; [|lia].
              simpl in Hm. destruct Hm as [Hm|Hm]; [lia|].
              rewrite starts_shift in Hm. apply in_map_iff in Hm.
              destruct Hm as (q' & Hq' & Hin).
              replace q with q' by lia. exact Hin.
           ++ unfold INT_MAX in *. lia.
           ++ lia.
        -- cbn [from]. apply memcmp_eq_true_iff.
           pose proof (map_seq_agree buf (pieces (u :: us) X v) i
                         (length X) (length u)) as Hm.
           rewrite Hm by (auto; lia).
           apply pieces_occurrence.
        -- exact Hnz.
      * intros p Hp. simpl.
        destruct (memcmp_eq buf p X) eqn:E; [|reflexivity].
        exfalso. replace p with (i + (p - i)) in E by lia.
        apply Hocc in E; [|lia].
        simpl in E. destruct E as [E|E]; [lia|].
        apply starts_lower_bound in E. lia.
      * lia.
Qed.

(** Apart from that defect C6 holds: for a single rule s/X/Y/N with
    [N > 0] and a chunk cut at its [k] occurrences of [X], [X] being found
    by [memcmp] at no other position below [siz], [sed_the_buffer] returns,
    its output is the chunk with the leftmost [min k N] occurrences
    replaced by [Y], and the counter is left at [N - min k N]. *)
Lemma counted_rule_replaces_leftmost X Y fo tg N us v buf fuel :
  X <> [] ->
  (0 < N <= INT_MAX)%Z ->
  (forall q, q < length (pieces us X v) -> buf q = nth q (pieces us X v) zero) ->
  (forall q, q < length (pieces us X v) ->
     memcmp_eq buf q X = true -> In q (starts us X 0)) ->
  length (pieces us X v) <= fuel ->
  let m := Nat.min (length us) (Z.to_nat N) in
  let out := pieces (firstn m us) Y (pieces (skipn m us) X v) in
  sed_the_buffer [mk_rule X Y fo tg] buf fuel (length (pieces us X v)) [N]
  = Some (length out, out, [(N - Z.of_nat m)%Z]).
Proof.
  intros HX HN Hag Hocc Hfuel m out. unfold sed_the_buffer.
  pose proof (sed_loop_counted X Y fo tg buf HX us v 0 [] N 0 fuel) as H.
  cbn [Nat.add] in H.
  rewrite H; [reflexivity | assumption | assumption | lia | assumption].
Qed.

Example counted_rule_scenario_6 :
  sed_the_buffer [plain_rule "andrew" "mike"]
    (store (bytes "test andrew and andrew") zeroed) 22 22 [1%Z]
  = Some (20, bytes "test mike and andrew", [0%Z]).
Proof.
  apply (counted_rule_replaces_leftmost (bytes "andrew") (bytes "mike")
           (bytes "andrew") (bytes "mike") 1
           [bytes "test "; bytes " and "] []
           (store (bytes "test andrew and andrew") zeroed) 22).
  - discriminate.
  - unfold INT_MAX. lia.
  - intros q Hq. unfold store.
    destruct (Nat.ltb_spec q (length (bytes "test andrew and andrew")));
      [reflexivity | simpl in *; lia].
  - intros q Hq Hm.
    do 22 (destruct q as [|q];
           [first [discriminate Hm | simpl; tauto]|]).
    simpl in Hq. lia.
  - simpl. lia.
Qed.

(** ** The handlers *)

Lemma bind_some {A B} (m : M A) (k : A -> M B) g b g' :
  bind m k g = Some (b, g') ->
  exists a g1, m g = Some (a, g1) /\ k a g1 = Some (b, g').
Proof.
  unfold bind. destruct (m g) as [[a g1]|]; [|discriminate].
  intros H. exists a, g1. auto.
Qed.

Tactic Notation "inv_bind" hyp(H) "as" ident(a) ident(g) ident(H1) :=
  apply bind_some in H; destruct H as (a & g & H1 & H).

Ltac inv_ret H := unfold ret in H; injection H as <- <-.

Lemma quiet_refl g : quiet g g.
Proof. exists []. rewrite app_nil_r. auto. Qed.

Lemma quiet_trans g1 g2 g3 : quiet g1 g2 -> quiet g2 g3 -> quiet g1 g3.
Proof.
  intros (t1 & E1 & R1) (t2 & E2 & R2). exists (t1 ++ t2). split.
  - rewrite E2, E1, app_assoc. reflexivity.
  - unfold releases in *. rewrite filter_app, R1, R2. reflexivity.
Qed.

Lemma fill_quiet r g u g' : fill r g = Some (u, g') -> quiet g g'.
Proof.
  unfold fill. destruct r; intros H; injection H as _ <-;
    exists []; simpl; rewrite app_nil_r; auto.
Qed.

Lemma emit_trace c g u g' :
  emit c g = Some (u, g') -> g_trace g' = g_trace g ++ [c].
Proof. unfold emit. intros H. injection H as _ <-. reflexivity. Qed.

Lemma run_sed_same rule fuel siz lv g r g' :
  run_sed rule fuel siz lv g = Some (r, g') -> g' = g.
Proof.
  unfold run_sed.
  destruct (sed_the_buffer rule (g_buf g) fuel siz lv); [|discriminate].
  intros H. injection H as _ <-. reflexivity.
Qed.

Lemma same_endpoints_refl c : same_endpoints c c.
Proof. repeat split. Qed.

Lemma same_endpoints_trans c1 c2 c3 :
  same_endpoints c1 c2 -> same_endpoints c2 c3 -> same_endpoints c1 c3.
Proof.
  unfold same_endpoints. intros (A1 & B1 & C1 & D1) (A2 & B2 & C2 & D2).
  repeat split; congruence.
Qed.

Lemma same_endpoints_set_state s c : same_endpoints c (set_state s c).
Proof. repeat split. Qed.

(** What a failed or empty [read] does to the entry. *)
Lemma same_endpoints_after_read r c :
  same_endpoints c
    (if (rd_value r =? 0)%Z
     then set_state DISCONNECTED
            match r with
            | Rd_error false => set_state DISCONNECTED c
            | _ => c
            end
     else match r with
          | Rd_error false => set_state DISCONNECTED c
          | _ => c
          end).
Proof.
  destruct (rd_value r =? 0)%Z; destruct r as [[]|]; repeat split.
Qed.

Lemma b2server_sed_spec rule fuel e conn rd g c' g' :
  b2server_sed rule fuel e conn rd g = Some (c', g') ->
  same_endpoints conn c' /\ quiet g g'.
Proof.
  unfold b2server_sed. destruct (0 <? rd)%Z.
  - intros H. inv_bind H as r g1 Hsed. destruct r as [[n out] lv].
    apply run_sed_same in Hsed. subst g1.
    inv_bind H as u g2 Hemit. apply emit_trace in Hemit.
    assert (Hq : quiet g g2) by (eexists; split; [exact Hemit | reflexivity]).
    destruct (e_send e _ out); inv_ret H; split; auto; repeat split.
  - intros H. inv_ret H.
    split; [apply same_endpoints_refl | apply quiet_refl].
Qed.

Lemma client2server_sed_spec rule fuel e conn g c' g' :
  client2server_sed rule fuel e conn g = Some (c', g') ->
  same_endpoints conn c' /\ quiet g g'.
Proof.
  unfold client2server_sed. intros H. inv_bind H as u g1 Hfill.
  apply fill_quiet in Hfill.
  apply b2server_sed_spec in H. destruct H as [Hs Hq].
  split; [|eapply quiet_trans; eauto].
  eapply same_endpoints_trans; [|exact Hs].
  apply same_endpoints_after_read.
Qed.

Lemma server2client_sed_spec rule fuel e conn g c' g' :
  server2client_sed rule fuel e conn g = Some (c', g') ->
  same_endpoints conn c' /\ quiet g g'.
Proof.
  unfold server2client_sed. intros H. inv_bind H as u g1 Hfill.
  apply fill_quiet in Hfill.
  pose proof (same_endpoints_after_read (e_read e (fsock conn)) conn) as Hrd.
  destruct (0 <? rd_value (e_read e (fsock conn)))%Z.
  - inv_bind H as r g2 Hsed. destruct r as [[n out] lv].
    apply run_sed_same in Hsed. subst g2.
    inv_bind H as u2 g3 Hemit. apply emit_trace in Hemit.
    assert (Hq : quiet g g3).
    { eapply quiet_trans; [exact Hfill|].
      eexists; split; [exact Hemit | reflexivity]. }
    destruct Hrd as (A & B & C & D).
    destruct (e_send e _ out); inv_ret H; split; auto;
      repeat split; assumption.
  - inv_ret H. split; assumption.
Qed.

Lemma serve_spec tcp rule fuel e conn g c' g' :
  serve tcp rule fuel e conn g = Some (c', g') ->
  same_endpoints conn c' /\ quiet g g'.
Proof.
  unfold serve. intros H.
  inv_bind H as c1 g1 Hc2s. inv_bind H as c2 g2 Hs2c.
  assert (H1 : same_endpoints conn c1 /\ quiet g g1).
  { destruct (tcp && e_isset e (csock conn)).
    - eapply client2server_sed_spec; eauto.
    - inv_ret Hc2s.
      split; [apply same_endpoints_refl | apply quiet_refl]. }
  assert (H2 : same_endpoints c1 c2 /\ quiet g1 g2).
  { destruct (e_isset e (fsock c1)).
    - eapply server2client_sed_spec; eauto.
    - inv_ret Hs2c.
      split; [apply same_endpoints_refl | apply quiet_refl]. }
  destruct H1 as [S1 Q1], H2 as [S2 Q2].
  assert (Hq : quiet g g2) by (eapply quiet_trans; eauto).
  destruct (negb tcp && (UDP_TIMEOUT <=? e_time e - time c2)%Z);
    inv_ret H; split; auto.
  - eapply same_endpoints_trans; [eapply same_endpoints_trans; eauto|].
    apply same_endpoints_set_state.
  - eapply same_endpoints_trans; eauto.
Qed.

Lemma freetracker_trace conn g u g' :
  freetracker conn g = Some (u, g') ->
  g_trace g' = g_trace g ++ released conn.
Proof.
  unfold freetracker, released. intros H.
  inv_bind H as u1 g1 H1. inv_bind H as u2 g2 H2.
  apply emit_trace in H, H2.
  destruct (csa conn); apply emit_trace in H1;
    rewrite H, H2, H1, <- !app_assoc; reflexivity.
Qed.

(** ** The engine returns when no source pattern is empty *)

Lemma scan_rules_in buf i lv rs :
  forall j0 j r, scan_rules buf i lv j0 rs = Some (j, r) -> In r rs.
Proof.
  induction rs as [|r0 rs IH]; intros j0 j r H; simpl in H; [discriminate|].
  destruct (memcmp_eq buf i (from r0) && negb (nth j0 lv 0 =? 0)%Z).
  - injection H as _ <-. left. reflexivity.
  - right. eapply IH. exact H.
Qed.

Lemma sed_step_advances rule buf st :
  (forall r, In r rule -> from r <> []) ->
  s_i st < s_i (sed_step rule buf st).
Proof.
  intros Hne. unfold sed_step.
  destruct (scan_rules buf (s_i st) (s_live st) 0 rule) as [[j r]|] eqn:E.
  - apply scan_rules_in in E. specialize (Hne r E).
    unfold fs. simpl. destruct (from r); [congruence | simpl; lia].
  - simpl. lia.
Qed.

Lemma sed_loop_total rule buf siz :
  (forall r, In r rule -> from r <> []) ->
  forall fuel st,
    siz - s_i st <= fuel -> exists st', sed_loop rule buf fuel siz st = Some st'.
Proof.
  intros Hne. induction fuel as [|fuel IH]; intros st Hf.
  - exists st. apply sed_loop_done. lia.
  - destruct (Nat.le_gt_cases siz (s_i st)) as [Hle|Hgt].
    + exists st. apply sed_loop_done. exact Hle.
    + rewrite sed_loop_step by exact Hgt.
      apply IH. pose proof (sed_step_advances rule buf st Hne). lia.
Qed.








(** ** C8: the removal of dead entries *)

Lemma releases_released c : releases (released c) = released c.
Proof. unfold released. destruct (csa c); reflexivity. Qed.

Lemma releases_app t1 t2 : releases (t1 ++ t2) = releases t1 ++ releases t2.
Proof. apply filter_app. Qed.

(** The last loop of a turn: the entries as the handlers leave them, the
    dead ones dropped from the list and released, in order. *)
Lemma walk_spec tcp rule fuel e :
  forall conns g conns' g',
    walk tcp rule fuel e conns g = Some (conns', g') ->
    exists served t,
      Forall2 same_endpoints conns served
      /\ conns' = filter alive served
      /\ g_trace g' = g_trace g ++ t
      /\ releases t
         = flat_map released (filter (fun c => is_dead (state c)) served).
Proof.
  induction conns as [|conn rest IH]; intros g conns' g' H.
  - inv_ret H. exists [], []. rewrite app_nil_r. repeat split. constructor.
  - cbn [walk] in H. inv_bind H as c g1 Hserve.
    apply serve_spec in Hserve. destruct Hserve as [Hsame (tq & Etq & Rtq)].
    destruct (is_dead (state c)) eqn:Hdead.
    + inv_bind H as u g2 Hfree. apply freetracker_trace in Hfree.
      apply IH in H. destruct H as (served & t & HF & Hc & Et & Rt).
      exists (c :: served), (tq ++ released c ++ t). repeat split.
      * constructor; assumption.
      * cbn [filter]. unfold alive at 1. rewrite Hdead. exact Hc.
      * rewrite Et, Hfree, Etq, <- !app_assoc. reflexivity.
      * rewrite !releases_app, Rtq, releases_released, Rt.
        cbn [filter]. rewrite Hdead. reflexivity.
    + inv_bind H as rest' g2 Hrest. inv_ret H.
      apply IH in Hrest. destruct Hrest as (served & t & HF & Hc & Et & Rt).
      exists (c :: served), (tq ++ t). repeat split.
      * constructor; assumption.
      * cbn [filter]. unfold alive at 1. rewrite Hdead. cbn [negb].
        rewrite Hc. reflexivity.
      * rewrite Et, Etq, <- app_assoc. reflexivity.
      * rewrite releases_app, Rtq, Rt. cbn [filter]. rewrite Hdead.
        reflexivity.
Qed.



Example walk_example :
  walk false [plain_rule "andrew" "mike"] 100 example_env example_conns
    (mk_glob zeroed [])
  = Some ([mk_tracker (Some (bytes "B")) 1 3 6 40 ESTABLISHED [(-2)%Z]],
          mk_glob (store (bytes "hi andrew") zeroed)
            [Sys_free_csa (bytes "A"); Sys_close 5; Sys_free_conn;
             Sys_sendto 3 (bytes "hi mike") (Some (bytes "B")) 1]).
Proof. reflexivity. Qed.


(** ** C9: the udp lookup *)

Lemma same_sender_iff s c :
  sized c -> (same_sender s c = true <-> csa c = Some s).
Proof.
  unfold sized, same_sender. intros Hs.
  destruct (csa c) as [a|]; [|split; discriminate].
  specialize (Hs a eq_refl). rewrite Hs. split.
  - intros H. apply andb_prop in H. destruct H as [Hl He].
    apply Nat.eqb_eq in Hl.
    destruct (list_eq_dec ascii_dec (firstn (length s) s)
                (firstn (length s) a)) as [E|]; [|discriminate].
    rewrite firstn_all in E. rewrite <- Hl, firstn_all in E. congruence.
  - intros H. injection H as ->. rewrite Nat.eqb_refl. simpl.
    destruct (list_eq_dec ascii_dec (firstn (length s) s)
                (firstn (length s) s)); [reflexivity | congruence].
Qed.

Lemma udp_addrs_cons c conns :
  udp_addrs (c :: conns)
  = match csa c with Some a => [a] | None => [] end ++ udp_addrs conns.
Proof. reflexivity. Qed.

Lemma lookup_none s conns :
  Forall sized conns -> lookup s conns = None -> ~ In s (udp_addrs conns).
Proof.
  induction 1 as [|c conns Hc HF IH]; intros Hl Hin; [exact Hin|].
  simpl in Hl. destruct (same_sender s c) eqn:E; [discriminate|].
  destruct (lookup s conns); [discriminate|].
  rewrite udp_addrs_cons in Hin. apply in_app_or in Hin.
  destruct Hin as [Hin|Hin]; [|exact (IH eq_refl Hin)].
  destruct (csa c) as [a|] eqn:Ea; [|contradiction].
  destruct Hin as [->|[]].
  apply (same_sender_iff s c Hc) in Ea. congruence.
Qed.

Lemma lookup_some s conns k :
  Forall sized conns -> lookup s conns = Some k ->
  exists c, nth_error conns k = Some c /\ csa c = Some s.
Proof.
  intros HF. revert k. induction HF as [|c conns Hc HF IH]; intros k Hl.
  - discriminate.
  - simpl in Hl. destruct (same_sender s c) eqn:E.
    + injection Hl as <-. exists c. split; [reflexivity|].
      apply (same_sender_iff s c Hc). exact E.
    + destruct (lookup s conns) as [k'|]; [|discriminate].
      injection Hl as <-. apply (IH k' eq_refl).
Qed.

Lemma in_udp_addrs conns k c a :
  nth_error conns k = Some c -> csa c = Some a -> In a (udp_addrs conns).
Proof.
  revert k. induction conns as [|c0 conns IH]; intros k Hn Ha.
  - destruct k; discriminate.
  - rewrite udp_addrs_cons. apply in_or_app. destruct k as [|k].
    + injection Hn as ->. rewrite Ha. left. left. reflexivity.
    + right. eapply IH; eauto.
Qed.

(** With distinct addresses the scan stops at the entry of the sender. *)
Lemma lookup_finds s conns :
  Forall sized conns -> NoDup (udp_addrs conns) ->
  forall k c, nth_error conns k = Some c -> csa c = Some s ->
              lookup s conns = Some k.
Proof.
  induction 1 as [|c0 conns Hc0 HF IH]; intros Hnd k c Hn Ha.
  - destruct k; discriminate.
  - rewrite udp_addrs_cons in Hnd. simpl.
    destruct (same_sender s c0) eqn:E.
    + apply (same_sender_iff s c0 Hc0) in E.
      destruct k as [|k]; [reflexivity|].
      exfalso. rewrite E in Hnd. simpl in Hnd.
      apply NoDup_cons_iff in Hnd. destruct Hnd as [Hnot _].
      apply Hnot. eapply in_udp_addrs; eauto.
    + destruct k as [|k].
      * injection Hn as ->. apply (same_sender_iff s c Hc0) in Ha. congruence.
      * rewrite (IH (NoDup_app_remove_l _ _ Hnd) k c Hn Ha). reflexivity.
Qed.

Lemma put_at_same k c c' conns :
  nth_error conns k = Some c -> same_endpoints c c' ->
  udp_addrs (put_at k c' conns) = udp_addrs conns
  /\ (Forall sized conns -> Forall sized (put_at k c' conns))
  /\ length (put_at k c' conns) = length conns.
Proof.
  revert k. induction conns as [|c0 conns IH]; intros k Hn Hs.
  - destruct k; discriminate.
  - destruct k as [|k]; cbn [put_at length].
    + injection Hn as ->. destruct Hs as (Ea & El & _ & _).
      rewrite !udp_addrs_cons, Ea. repeat split.
      intros HF. inversion HF as [|? ? H0 H1]; subst. constructor; [|exact H1].
      unfold sized in *. rewrite <- Ea, <- El. exact H0.
    + destruct (IH k Hn Hs) as (Hu & Hz & Hlen).
      rewrite !udp_addrs_cons, Hu, Hlen. repeat split.
      intros HF. inversion HF; subst. constructor; auto.
Qed.

Lemma in_udp_addrs_filter f conns a :
  In a (udp_addrs (filter f conns)) -> In a (udp_addrs conns).
Proof.
  induction conns as [|c conns IH]; cbn [filter]; [auto|].
  rewrite udp_addrs_cons. intros H. apply in_or_app.
  destruct (f c).
  - rewrite udp_addrs_cons in H. apply in_app_or in H.
    destruct H; [left | right]; auto.
  - right. auto.
Qed.

Lemma NoDup_udp_addrs_filter f conns :
  NoDup (udp_addrs conns) -> NoDup (udp_addrs (filter f conns)).
Proof.
  induction conns as [|c conns IH]; cbn [filter]; [auto|].
  rewrite udp_addrs_cons. intros H.
  pose proof (NoDup_app_remove_l _ _ H) as Hrest.
  destruct (f c); [|auto].
  rewrite udp_addrs_cons. destruct (csa c) as [a|]; simpl in *; [|auto].
  apply NoDup_cons_iff in H. destruct H as [Hnot _].
  constructor; [|auto].
  intros Hin. apply Hnot. eapply in_udp_addrs_filter. exact Hin.
Qed.

Lemma same_endpoints_lists conns served :
  Forall2 same_endpoints conns served ->
  udp_addrs served = udp_addrs conns
  /\ (Forall sized conns -> Forall sized served).
Proof.
  induction 1 as [|c d conns served (Ea & El & _ & _) HF [IHu IHs]].
  - split; auto.
  - rewrite !udp_addrs_cons, IHu, Ea. split; [reflexivity|].
    intros H. inversion H as [|? ? H0 H1]; subst. constructor; auto.
    unfold sized in *. rewrite <- Ea, <- El. exact H0.
Qed.

(** What the listening block makes of the list: nothing, a datagram
    handed to the entry the scan stops at, an accepted tcp connection, or
    a new udp flow after a scan that found nothing. *)
Lemma listen_phase_cases tcp rule rule_live lsock fuel e conns g conns' g' :
  listen_phase tcp rule rule_live lsock fuel e conns g = Some (conns', g') ->
  conns' = conns
  \/ (tcp = false /\ exists d k c c',
        e_recvfrom e = Rd_data d
        /\ lookup (e_sender e) conns = Some k
        /\ nth_error conns k = Some c
        /\ b2server_sed rule fuel e c (Z.of_nat (length d))
             (mk_glob (store d (g_buf g)) (g_trace g)) = Some (c', g')
        /\ conns' = put_at k c' conns)
  \/ (tcp = true /\ conns' = new_tracker tcp rule_live e (e_accept e) :: conns)
  \/ (tcp = false /\ lookup (e_sender e) conns = None
      /\ exists c', same_endpoints (new_tracker tcp rule_live e lsock) c'
                    /\ conns' = c' :: conns).
Proof.
  unfold listen_phase. intros H. destruct tcp; cbv beta iota zeta in H.
  - inv_bind H as u g1 Hu. inv_ret Hu.
    inv_bind H as r g2 Hr. destruct r as [conns1 conn].
    destruct (0 <=? e_accept e)%Z.
    + destruct (e_connect e).
      * inv_ret Hr. simpl in H. inv_ret H. right. right. left. auto.
      * inv_bind Hr as u1 g3 Hf. inv_ret Hr. inv_ret H. left. reflexivity.
    + inv_ret Hr. inv_ret H. left. reflexivity.
  - inv_bind H as u g1 Hu.
    destruct (e_recvfrom e) as [b|d] eqn:Er.
    + cbn [rd_value] in H. change (0 <=? -1)%Z with false in H.
      cbv beta iota in H.
      inv_bind H as r g2 Hr. destruct r as [conns1 conn].
      inv_ret Hr. inv_ret H. left. reflexivity.
    + cbn [rd_value] in H.
      assert (Hpos : (0 <=? Z.of_nat (length d))%Z = true)
        by (apply Z.leb_le; lia).
      rewrite Hpos in H. cbv beta iota in H.
      unfold fill in Hu. injection Hu as _ <-.
      inv_bind H as r g2 Hr. destruct r as [conns1 conn].
      destruct (lookup (e_sender e) conns) as [k|] eqn:El.
      * change (0 <=? -1)%Z with false in Hr. cbv beta iota in Hr.
        inv_ret Hr.
        destruct (nth_error conns k) as [c|] eqn:En.
        -- inv_bind H as c' g3 Hb. inv_ret H. subst g2.
           right. left. split; [reflexivity|].
           exists d, k, c, c'. auto.
        -- inv_ret H. left. reflexivity.
      * destruct (0 <=? lsock)%Z.
        -- destruct (e_connect e).
           ++ inv_ret Hr. cbn [nth_error] in H.
              inv_bind H as c' g3 Hb. inv_ret H.
              apply b2server_sed_spec in Hb. destruct Hb as [Hs _].
              right. right. right. split; [reflexivity|]. split; [reflexivity|].
              exists c'. split; [exact Hs | reflexivity].
           ++ inv_bind Hr as u1 g3 Hf. inv_ret Hr. inv_ret H.
              left. reflexivity.
        -- inv_ret Hr. inv_ret H. left. reflexivity.
Qed.

Lemma reachable_inv tcp rule rule_live lsock fuel conns :
  reachable tcp rule rule_live lsock fuel conns ->
  NoDup (udp_addrs conns) /\ Forall sized conns.
Proof.
  induction 1 as [|e conns g conns' g' Hreach [Hnd Hsz] Hstep
                  |e conns g conns' g' Hreach [Hnd Hsz] Hstep].
  - split; constructor.
  - apply listen_phase_cases in Hstep.
    destruct Hstep as [->|[(_ & d & k & c & c' & _ & _ & Hn & Hb & ->)
                          |[(-> & ->)|(-> & Hl & c' & Hs & ->)]]].
    + auto.
    + apply b2server_sed_spec in Hb. destruct Hb as [Hs _].
      destruct (put_at_same k c c' conns Hn Hs) as (Hu & Hz & _).
      rewrite Hu. auto.
    + rewrite udp_addrs_cons. simpl. split; [exact Hnd|].
      constructor; [|exact Hsz]. intros a Ha. discriminate Ha.
    + destruct Hs as (Ea & El & _ & _). simpl in Ea, El.
      rewrite udp_addrs_cons, <- Ea. simpl. split.
      * constructor; [|exact Hnd]. apply lookup_none; assumption.
      * constructor; [|exact Hsz]. intros a Ha.
        rewrite <- Ea in Ha. injection Ha as <-. symmetry. exact El.
  - apply walk_spec in Hstep.
    destruct Hstep as (served & t & HF & -> & _ & _).
    destruct (same_endpoints_lists conns served HF) as [Hu Hz].
    split.
    + apply NoDup_udp_addrs_filter. rewrite Hu. exact Hnd.
    + apply Forall_forall. intros c Hin. apply filter_In in Hin.
      destruct Hin as [Hin _].
      specialize (Hz Hsz). rewrite Forall_forall in Hz. auto.
Qed.

(** The udp block for a datagram whose sender the scan finds at [k]. *)
Lemma listen_phase_existing rule rule_live lsock fuel e conns g d k c :
  e_recvfrom e = Rd_data d ->
  lookup (e_sender e) conns = Some k ->
  nth_error conns k = Some c ->
  listen_phase false rule rule_live lsock fuel e conns g
  = bind (b2server_sed rule fuel e c (Z.of_nat (length d)))
      (fun c' => ret (put_at k c' conns))
      (mk_glob (store d (g_buf g)) (g_trace g)).
Proof.
  intros Hrd Hl Hn. unfold listen_phase. cbv beta iota zeta.
  rewrite Hrd. cbn [rd_value].
  assert (Hpos : (0 <=? Z.of_nat (length d))%Z = true)
    by (apply Z.leb_le; lia).
  rewrite Hpos, Hl. cbv beta iota.
  change (0 <=? -1)%Z with false. cbv beta iota.
  unfold bind at 1. unfold fill. unfold bind at 1. unfold ret at 1.
  cbv beta iota. rewrite Hn. reflexivity.
Qed.




Example listen_example :
  listen_phase false [plain_rule "andrew" "mike"] [(-1)%Z] 3 100
    (datagram_env 10 (bytes "A") (bytes "hello andrew") 5) []
    (mk_glob zeroed [])
  = Some (example_flow,
          mk_glob (store (bytes "hello andrew") zeroed)
            [Sys_write 5 (bytes "hello mike")]).
Proof. reflexivity. Qed.


(** A turn that goes on to the next [select] hands on a list without
    dead entries. *)
Lemma turn_hands_on_live_entries tcp rule rule_live lsock fuel e conns g
    conns' g' :
  turn tcp rule rule_live lsock fuel e conns g = Some (inl conns', g') ->
  Forall (fun c => is_dead (state c) = false) conns'.
Proof.
  unfold turn. intros H.
  destruct (e_stop e); [unfold ret in H; discriminate|].
  destruct (e_sel e <? 0)%Z; [unfold ret in H; discriminate|].
  inv_bind H as conns1 g1 Hlisten. inv_bind H as conns2 g2 Hwalk.
  unfold ret in H. injection H as <- <-.
  apply walk_spec in Hwalk. destruct Hwalk as (served & t & _ & -> & _).
  apply Forall_forall. intros c Hin. apply filter_In in Hin.
  destruct Hin as [_ Ha]. unfold alive in Ha.
  destruct (is_dead (state c)); [discriminate | reflexivity].
Qed.

(** * Further properties of the engine, the parser and the dispatcher *)

(** ** [sed_the_buffer]: return, unchanged chunks, counters, sizes *)

Lemma scan_rules_dead buf i lv rs :
  forall j0,
    (forall k r, nth_error rs k = Some r ->
       memcmp_eq buf i (from r) = false \/ nth (j0 + k) lv 0%Z = 0%Z) ->
    scan_rules buf i lv j0 rs = None.
Proof.
  induction rs as [|r0 rs IH]; intros j0 H; simpl; [reflexivity|].
  destruct (H 0 r0 eq_refl) as [H0|H0].
  - rewrite H0. simpl. apply IH. intros k r Hk.
    replace (S j0 + k) with (j0 + S k) by lia. apply (H (S k) r Hk).
  - rewrite Nat.add_0_r in H0. rewrite H0, andb_false_r. apply IH.
    intros k r Hk.
    replace (S j0 + k) with (j0 + S k) by lia. apply (H (S k) r Hk).
Qed.

(** X2.  A chunk in which, at every position, each rule is either not
    found or expired (count 0) is forwarded as it is: [sed_the_buffer]
    returns [siz], the [siz] bytes of the chunk and the counters it was
    given.  In particular a rule whose count is 0 is never applied. *)
Theorem sed_the_buffer_leaves_unmatched_chunk rule buf fuel siz lv :
  (forall p j r, p < siz -> nth_error rule j = Some r ->
     memcmp_eq buf p (from r) = false \/ nth j lv 0%Z = 0%Z) ->
  siz <= fuel ->
  sed_the_buffer rule buf fuel siz lv = Some (siz, map buf (seq 0 siz), lv).
Proof.
  intros Hdead Hfuel. unfold sed_the_buffer.
  replace fuel with (siz + (fuel - siz)) by lia.
  rewrite (sed_loop_skip rule buf siz siz 0 [] lv 0 (fuel - siz)).
  - rewrite sed_loop_done by (simpl; lia).
    unfold newsize. simpl. rewrite length_map, length_seq. reflexivity.
  - intros p Hp. apply scan_rules_dead. intros k r Hk.
    apply (Hdead p k r); [lia | exact Hk].
  - lia.
Qed.

Lemma sed_the_buffer_leaves_unmatched_chunk_witness :
  sed_the_buffer [plain_rule "and" "or"; plain_rule "xyz" "w"]
    (store (bytes "andrew") zeroed) 6 6 [0%Z; 3%Z]
  = Some (6, bytes "andrew", [0%Z; 3%Z]).
Proof.
  apply (sed_the_buffer_leaves_unmatched_chunk
           [plain_rule "and" "or"; plain_rule "xyz" "w"]
           (store (bytes "andrew") zeroed) 6 6 [0%Z; 3%Z]).
  - intros p j r Hp Hn.
    destruct j as [|[|j]].
    + right. reflexivity.
    + injection Hn as <-. left.
      do 6 (destruct p as [|p]; [reflexivity|]). lia.
    + destruct j; discriminate.
  - lia.
Defined.

Lemma scan_rules_live buf i lv rs :
  forall j0 j r,
    scan_rules buf i lv j0 rs = Some (j, r) ->
    nth j lv 0%Z <> 0%Z /\ memcmp_eq buf i (from r) = true /\ In r rs.
Proof.
  induction rs as [|r0 rs IH]; intros j0 j r H; simpl in H; [discriminate|].
  destruct (memcmp_eq buf i (from r0)) eqn:Em; simpl in H.
  - destruct (Z.eqb_spec (nth j0 lv 0%Z) 0) as [E|E]; simpl in H.
    + destruct (IH _ _ _ H) as (A & B & C).
      split; [exact A | split; [exact B | right; exact C]].
    + injection H as <- <-.
      split; [exact E | split; [exact Em | left; reflexivity]].
  - destruct (IH _ _ _ H) as (A & B & C).
    split; [exact A | split; [exact B | right; exact C]].
Qed.

Lemma counters_spent_refl lv : counters_spent lv lv.
Proof. split; [reflexivity|]. intros j. split; [auto | lia]. Qed.

Lemma counters_spent_trans l1 l2 l3 :
  counters_spent l1 l2 -> counters_spent l2 l3 -> counters_spent l1 l3.
Proof.
  intros [L1 H1] [L2 H2]. split; [congruence|].
  intros j. destruct (H1 j) as [A1 B1], (H2 j) as [A2 B2]. split.
  - auto.
  - intros H. specialize (B1 H). specialize (B2 ltac:(lia)). lia.
Qed.

Lemma sed_step_counters rule buf st :
  counters_spent (s_live st) (s_live (sed_step rule buf st)).
Proof.
  unfold sed_step.
  destruct (scan_rules buf (s_i st) (s_live st) 0 rule) as [[j r]|] eqn:E;
    [|apply counters_spent_refl].
  apply scan_rules_live in E. destruct E as (Hl & _ & _).
  pose proof (nth_nonzero_in_range j (s_live st) Hl) as Hj.
  cbn [s_live]. split; [apply upd_length|].
  intros k. destruct (Nat.eq_dec k j) as [->|Hk].
  - rewrite nth_upd_same by exact Hj. split; [contradiction|].
    intros H. rewrite int_pred_in_range by (unfold INT_MIN; lia). lia.
  - rewrite nth_upd_other by exact Hk. split; [auto | lia].
Qed.

Lemma sed_loop_counters rule buf siz :
  forall fuel st st',
    sed_loop rule buf fuel siz st = Some st' ->
    counters_spent (s_live st) (s_live st').
Proof.
  induction fuel as [|fuel IH]; intros st st' H; simpl in H;
    destruct (siz <=? s_i st).
  - injection H as <-. apply counters_spent_refl.
  - discriminate.
  - injection H as <-. apply counters_spent_refl.
  - eapply counters_spent_trans; [apply sed_step_counters | apply IH, H].
Qed.

(** X3.  A run of [sed_the_buffer] keeps one counter for each rule and
    spends them only downwards: a counter that is 0 stays 0, and a counter
    [N >= 0] ends between 0 and [N], so a rule given the count [N] is
    applied at most [N] times on a connection. *)
Theorem sed_the_buffer_spends_counters rule buf fuel siz lv n out lv' :
  sed_the_buffer rule buf fuel siz lv = Some (n, out, lv') ->
  length lv' = length lv
  /\ forall j, (nth j lv 0%Z = 0%Z -> nth j lv' 0%Z = 0%Z)
               /\ ((0 <= nth j lv 0)%Z -> (0 <= nth j lv' 0 <= nth j lv 0)%Z).
Proof.
  unfold sed_the_buffer.
  destruct (sed_loop rule buf fuel siz (mk_sed 0 [] lv 0)) as [st|] eqn:E;
    [|discriminate].
  intros H. injection H as _ _ <-.
  apply (sed_loop_counters rule buf siz fuel _ _ E).
Qed.

Lemma sed_the_buffer_spends_counters_witness :
  length [0%Z; 0%Z] = length [0%Z; 2%Z]
  /\ forall j, (nth j [0%Z; 2%Z] 0%Z = 0%Z -> nth j [0%Z; 0%Z] 0%Z = 0%Z)
               /\ ((0 <= nth j [0%Z; 2%Z] 0)%Z ->
                   (0 <= nth j [0%Z; 0%Z] 0 <= nth j [0%Z; 2%Z] 0)%Z).
Proof.
  apply (sed_the_buffer_spends_counters
           [plain_rule "b" "x"; plain_rule "a" "bb"]
           (store (bytes "aaba") zeroed) 4 4 [0%Z; 2%Z]
           6 (bytes "bbbbba") [0%Z; 0%Z]).
  reflexivity.
Defined.

(** ** The size of the output *)

Lemma sed_step_growth rule buf siz m st :
  (forall r, In r rule -> from r <> [] /\ length (to r) <= m) ->
  1 <= m ->
  s_i st < siz ->
  newsize (sed_step rule buf st) + m * (siz - s_i (sed_step rule buf st))
  <= newsize st + m * (siz - s_i st).
Proof.
  intros Hr Hm Hi. unfold sed_step.
  destruct (scan_rules buf (s_i st) (s_live st) 0 rule) as [[j r]|] eqn:E;
    unfold newsize; cbn [s_b2 s_i]; rewrite length_app.
  - apply scan_rules_in in E. destruct (Hr r E) as [Hne Hts].
    assert (1 <= fs r) by (unfold fs; destruct (from r); simpl; [congruence | lia]).
    nia.
  - simpl. nia.
Qed.

Lemma sed_loop_growth rule buf siz m :
  (forall r, In r rule -> from r <> [] /\ length (to r) <= m) ->
  1 <= m ->
  forall fuel st st',
    sed_loop rule buf fuel siz st = Some st' ->
    newsize st' + m * (siz - s_i st') <= newsize st + m * (siz - s_i st).
Proof.
  intros Hr Hm. induction fuel as [|fuel IH]; intros st st' H; simpl in H;
    destruct (Nat.leb_spec siz (s_i st)).
  - injection H as <-. lia.
  - discriminate.
  - injection H as <-. lia.
  - apply IH in H.
    pose proof (sed_step_growth rule buf siz m st Hr Hm ltac:(lia)). lia.
Qed.

(** X1.  When no source pattern is empty, no replacement is longer than
    [m] bytes, [m * siz] is at most [MAX_BUF] and no pattern set at a
    position of the chunk reaches past the end of [buf], [sed_the_buffer]
    returns, and returns the same result for every fuel that is not below
    [siz]: the outer loop ends after at most [siz] turns, and what it has
    stored by then fits in [b2]. *)
Theorem sed_the_buffer_returns rule buf siz lv m :
  (forall r, In r rule -> from r <> [] /\ length (to r) <= m) ->
  1 <= m ->
  m * siz <= MAX_BUF ->
  (forall r, In r rule -> siz + length (from r) <= S MAX_BUF) ->
  exists n out lv',
    n = length out /\ n <= MAX_BUF
    /\ forall fuel, siz <= fuel ->
         sed_the_buffer rule buf fuel siz lv = Some (n, out, lv').
Proof.
  intros Hr Hm Hfit _.
  assert (Hne : forall r, In r rule -> from r <> [])
    by (intros r Hin; apply (Hr r Hin)).
  destruct (sed_loop_total rule buf siz Hne siz (mk_sed 0 [] lv 0)) as [st Hst].
  { simpl. lia. }
  exists (newsize st), (s_b2 st), (s_live st).
  split; [reflexivity|]. split.
  - pose proof (sed_loop_growth rule buf siz m Hr Hm siz _ _ Hst) as Hg.
    unfold newsize at 2 in Hg. cbn [s_b2 s_i length] in Hg.
    replace (siz - 0) with siz in Hg by lia.
    apply Nat.le_trans with (m * siz); [|exact Hfit].
    eapply Nat.le_trans; [|exact Hg]. apply Nat.le_add_r.
  - intros fuel Hfuel. unfold sed_the_buffer.
    rewrite (sed_loop_more_fuel rule buf siz siz fuel _ st Hst Hfuel).
    reflexivity.
Qed.

Lemma sed_the_buffer_returns_witness :
  exists n out lv',
    n = length out /\ n <= MAX_BUF
    /\ forall fuel, 9 <= fuel ->
         sed_the_buffer [plain_rule "andrew" "mike"]
           (store (bytes "hi andrew") zeroed) fuel 9 [(-1)%Z]
         = Some (n, out, lv').
Proof.
  apply (sed_the_buffer_returns [plain_rule "andrew" "mike"]
           (store (bytes "hi andrew") zeroed) 9 [(-1)%Z] 4).
  - intros r [<-|[]]. split; [discriminate | simpl; lia].
  - lia.
  - unfold MAX_BUF. lia.
  - intros r [<-|[]]. unfold MAX_BUF. simpl length. lia.
Defined.

(** X4.  When no source pattern is empty and no replacement is longer
    than [m] bytes ([m >= 1]), the size returned by [sed_the_buffer] is at
    most [m * siz]: each byte of the chunk brings at most [m] bytes of
    output. *)
Theorem sed_the_buffer_output_bound rule buf fuel siz lv m n out lv' :
  (forall r, In r rule -> from r <> [] /\ length (to r) <= m) ->
  1 <= m ->
  sed_the_buffer rule buf fuel siz lv = Some (n, out, lv') ->
  n = length out /\ n <= m * siz.
Proof.
  intros Hr Hm. unfold sed_the_buffer.
  destruct (sed_loop rule buf fuel siz (mk_sed 0 [] lv 0)) as [st|] eqn:E;
    [|discriminate].
  intros H. injection H as <- <- _.
  split; [reflexivity|].
  pose proof (sed_loop_growth rule buf siz m Hr Hm fuel _ _ E) as Hg.
  unfold newsize at 2 in Hg. cbn [s_b2 s_i length] in Hg.
  rewrite Nat.sub_0_r in Hg. fold (newsize st). lia.
Qed.

Lemma sed_the_buffer_output_bound_witness :
  6 = length (bytes "bbbbbb") /\ 6 <= 2 * 3.
Proof.
  apply (sed_the_buffer_output_bound [plain_rule "a" "bb"]
           (store (bytes "aaa") zeroed) 3 3 [(-1)%Z] 2
           6 (bytes "bbbbbb") [(-4)%Z]).
  - intros r [<-|[]]. split; [discriminate | simpl; lia].
  - lia.
  - reflexivity.
Defined.

Lemma sed_step_shrinking rule buf siz F st :
  (forall r, In r rule -> length (to r) <= length (from r) <= F) ->
  s_i st < siz ->
  newsize st <= s_i st ->
  newsize (sed_step rule buf st) <= s_i (sed_step rule buf st)
  /\ s_i (sed_step rule buf st) <= siz + (F - 1).
Proof.
  intros Hr Hi Hn. unfold sed_step.
  destruct (scan_rules buf (s_i st) (s_live st) 0 rule) as [[j r]|] eqn:E;
    unfold newsize in *; cbn [s_b2 s_i]; rewrite length_app.
  - apply scan_rules_in in E. specialize (Hr r E). unfold fs. lia.
  - simpl. lia.
Qed.

Lemma sed_loop_shrinking rule buf siz F :
  (forall r, In r rule -> length (to r) <= length (from r) <= F) ->
  forall fuel st st',
    sed_loop rule buf fuel siz st = Some st' ->
    newsize st <= s_i st -> s_i st <= siz + (F - 1) ->
    newsize st' <= s_i st' /\ s_i st' <= siz + (F - 1).
Proof.
  intros Hr. induction fuel as [|fuel IH]; intros st st' H Hn Hi; simpl in H;
    destruct (Nat.leb_spec siz (s_i st)).
  - injection H as <-. auto.
  - discriminate.
  - injection H as <-. auto.
  - destruct (sed_step_shrinking rule buf siz F st Hr ltac:(lia) Hn) as [A B].
    apply (IH _ _ H A B).
Qed.

(** X5.  When no replacement is longer than its source pattern, and no
    source pattern longer than [F] bytes, the size returned by
    [sed_the_buffer] is at most [siz + (F - 1)]: the output is no longer
    than the stretch of [buf] the cursor went over, which ends less than
    [F] bytes after [siz]. *)
Theorem sed_the_buffer_no_growth rule buf fuel siz lv F n out lv' :
  (forall r, In r rule -> length (to r) <= length (from r) <= F) ->
  sed_the_buffer rule buf fuel siz lv = Some (n, out, lv') ->
  n = length out /\ n <= siz + (F - 1).
Proof.
  intros Hr. unfold sed_the_buffer.
  destruct (sed_loop rule buf fuel siz (mk_sed 0 [] lv 0)) as [st|] eqn:E;
    [|discriminate].
  intros H. injection H as <- <- _.
  split; [reflexivity|].
  destruct (sed_loop_shrinking rule buf siz F Hr fuel _ _ E) as [A B].
  - unfold newsize. simpl. lia.
  - simpl. lia.
  - lia.
Qed.

Lemma sed_the_buffer_no_growth_witness :
  3 = length (bytes "aXY") /\ 3 <= 2 + (2 - 1).
Proof.
  apply (sed_the_buffer_no_growth [plain_rule "bc" "XY"]
           (store (bytes "ab") (store (bytes "xyc") zeroed)) 2 2 [(-1)%Z] 2
           3 (bytes "aXY") [(-2)%Z]).
  - intros r [<-|[]]. simpl. lia.
  - reflexivity.
Defined.

(** ** The bytes [sed_the_buffer] reads *)

Lemma memcmp_eq_agree b1 b2 p :
  forall i,
    (forall q, i <= q < i + length p -> b1 q = b2 q) ->
    memcmp_eq b1 i p = memcmp_eq b2 i p.
Proof.
  induction p as [|c p IH]; intros i H; simpl; [reflexivity|].
  rewrite (H i) by (simpl; lia). f_equal.
  apply IH. intros q Hq. apply H. simpl. lia.
Qed.

Lemma scan_rules_agree b1 b2 i lv F rs :
  (forall r, In r rs -> length (from r) <= F) ->
  (forall q, i <= q < i + F -> b1 q = b2 q) ->
  forall j0, scan_rules b1 i lv j0 rs = scan_rules b2 i lv j0 rs.
Proof.
  intros HF Hag. induction rs as [|r rs IH]; intros j0; simpl; [reflexivity|].
  rewrite (memcmp_eq_agree b1 b2 (from r) i).
  - rewrite IH; [reflexivity|]. intros r' Hr'. apply HF. right. exact Hr'.
  - intros q Hq. apply Hag.
    specialize (HF r (or_introl eq_refl)). lia.
Qed.

Lemma sed_loop_agree rule b1 b2 siz F :
  (forall r, In r rule -> length (from r) <= F) ->
  (forall q, q < siz + (F - 1) -> b1 q = b2 q) ->
  forall fuel st, sed_loop rule b1 fuel siz st = sed_loop rule b2 fuel siz st.
Proof.
  intros HF Hag. induction fuel as [|fuel IH]; intros st; simpl;
    [reflexivity|].
  destruct (Nat.leb_spec siz (s_i st)); [reflexivity|].
  assert (Hstep : sed_step rule b1 st = sed_step rule b2 st).
  { unfold sed_step.
    rewrite (scan_rules_agree b1 b2 (s_i st) (s_live st) F rule HF).
    - rewrite (Hag (s_i st)) by lia. reflexivity.
    - intros q Hq. apply Hag. lia. }
  rewrite Hstep. apply IH.
Qed.

(** X6.  What [sed_the_buffer] returns depends on the bytes of [buf]
    below index [siz + (F - 1)] only, [F] being the length of the longest
    source pattern: it reads at most [F - 1] bytes past the chunk. *)
Theorem sed_the_buffer_read_window rule b1 b2 fuel siz lv F :
  (forall r, In r rule -> length (from r) <= F) ->
  (forall q, q < siz + (F - 1) -> b1 q = b2 q) ->
  sed_the_buffer rule b1 fuel siz lv = sed_the_buffer rule b2 fuel siz lv.
Proof.
  intros HF Hag. unfold sed_the_buffer.
  rewrite (sed_loop_agree rule b1 b2 siz F HF Hag). reflexivity.
Qed.

Lemma sed_the_buffer_read_window_witness :
  sed_the_buffer [plain_rule "bc" "X"]
    (store (bytes "ab") (store (bytes "xycQ") zeroed)) 2 2 [(-1)%Z]
  = sed_the_buffer [plain_rule "bc" "X"]
      (store (bytes "ab") (store (bytes "xyc") zeroed)) 2 2 [(-1)%Z].
Proof.
  apply (sed_the_buffer_read_window [plain_rule "bc" "X"] _ _ 2 2 [(-1)%Z] 2).
  - intros r [<-|[]]. simpl. lia.
  - intros q Hq. destruct q as [|[|[|q]]]; [reflexivity .. | simpl in Hq; lia].
Defined.

(** ** [shrink_to_binary]: sizes, empty patterns, literal text, escapes *)

Lemma char_at_nonzero s k : char_at s k <> zero -> k < length s.
Proof.
  intros H. destruct (Nat.lt_ge_cases k (length s)) as [|Hge]; [assumption|].
  exfalso. apply H. unfold char_at. apply nth_overflow. exact Hge.
Qed.

(** What a run of the loop that ends has stored: the bytes it was
    entered with, followed by at most one byte for each character left,
    and by at least one byte when a character is left. *)
Lemma shrink_loop_extends which orig k0 :
  forall n i out res,
    length orig - i <= n ->
    shrink_loop which orig k0 i out = Some (Ok res) ->
    exists suffix,
      res = out ++ suffix
      /\ length suffix <= length orig - i
      /\ (i < length orig -> suffix <> []).
Proof.
  induction n as [|n IH]; intros i out res Hn H.
  - rewrite shrink_loop_at_end in H by lia. injection H as <-.
    exists []. rewrite app_nil_r. repeat split; [simpl; lia | lia].
  - destruct (Nat.le_gt_cases (length orig) i) as [Hle|Hlt].
    { rewrite shrink_loop_at_end in H by exact Hle. injection H as <-.
      exists []. rewrite app_nil_r. repeat split; [simpl; lia | lia]. }
    rewrite shrink_loop_body in H by exact Hlt.
    destruct (Ascii.eqb (char_at orig i) "%").
    + destruct (Ascii.eqb_spec (char_at orig (S i)) "%") as [E1|E1].
      * assert (S i < length orig)
          by (apply char_at_nonzero; rewrite E1; discriminate).
        destruct (in_block orig k0 out); [|discriminate].
        apply IH in H; [|lia]. destruct H as (suf & -> & Hlen & _).
        exists ("%"%char :: suf). rewrite <- app_assoc.
        repeat split; [simpl; lia | discriminate].
      * destruct (Ascii.eqb (char_at orig (S i)) zero); [discriminate|].
        destruct (Ascii.eqb_spec (char_at orig (S (S i))) zero) as [E2|E2];
          [discriminate|].
        apply char_at_nonzero in E2.
        destruct (strchr hex (toupper (char_at orig (S i)))) as [x1|];
          [|discriminate].
        destruct (strchr hex (toupper (char_at orig (S (S i))))) as [x2|];
          [|discriminate].
        destruct (in_block orig k0 out); [|discriminate].
        apply IH in H; [|lia]. destruct H as (suf & -> & Hlen & _).
        exists (ascii_of_nat (x1 * 16 + x2) :: suf). rewrite <- app_assoc.
        repeat split; [simpl; lia | discriminate].
    + destruct (in_block orig k0 out); [|discriminate].
      apply IH in H; [|lia]. destruct H as (suf & -> & Hlen & _).
      exists (char_at orig i :: suf). rewrite <- app_assoc.
      repeat split; [simpl; lia | discriminate].
Qed.

(** Entered with no more bytes stored than characters read, the first of
    them at an index that is not negative, the loop never stores outside
    the block. *)
Lemma shrink_loop_defined which orig k0 :
  forall n i out,
    length orig - i <= n ->
    (0 <= k0 + Z.of_nat (length out))%Z ->
    (k0 + Z.of_nat (length out) <= Z.of_nat i)%Z ->
    shrink_loop which orig k0 i out <> None.
Proof.
  induction n as [|n IH]; intros i out Hn H0 H1.
  - rewrite shrink_loop_at_end by lia. discriminate.
  - destruct (Nat.le_gt_cases (length orig) i) as [Hle|Hlt].
    { rewrite shrink_loop_at_end by exact Hle. discriminate. }
    rewrite shrink_loop_body by exact Hlt.
    assert (Hin : in_block orig k0 out = true).
    { unfold in_block. apply andb_true_intro.
      split; [apply Z.leb_le | apply Z.ltb_lt]; lia. }
    rewrite Hin.
    destruct (Ascii.eqb (char_at orig i) "%").
    + destruct (Ascii.eqb (char_at orig (S i)) "%").
      * apply IH; rewrite ?length_app; simpl; lia.
      * destruct (Ascii.eqb (char_at orig (S i)) zero); [discriminate|].
        destruct (Ascii.eqb (char_at orig (S (S i))) zero); [discriminate|].
        destruct (strchr hex (toupper (char_at orig (S i)))) as [x1|];
          [|discriminate].
        destruct (strchr hex (toupper (char_at orig (S (S i))))) as [x2|];
          [|discriminate].
        apply IH; rewrite ?length_app; simpl; lia.
    + apply IH; rewrite ?length_app; simpl; lia.
Qed.

(** X7.  When the lengths [fs] and [ts] of the rule are 0 on entry,
    [shrink_to_binary] stores no byte outside the blocks it allocates,
    [malloc(strlen(r->forig))] and [malloc(strlen(r->torig))], whatever
    the two texts are, and the patterns it leaves are no longer than the
    texts they come from. *)
Theorem shrink_to_binary_fits u forig torig :
  u_fs u = 0%Z -> u_ts u = 0%Z ->
  shrink_to_binary u forig torig <> None
  /\ forall r,
       shrink_to_binary u forig torig = Some (Ok r) ->
       length (from r) <= length forig /\ length (to r) <= length torig.
Proof.
  intros H0 H1. unfold shrink_to_binary. rewrite H0, H1.
  destruct (u_from u) as [bf|]; [|split; [discriminate | intros r H; discriminate]].
  destruct (u_to u) as [bt|]; [|split; [discriminate | intros r H; discriminate]].
  pose proof (shrink_loop_defined "src" forig 0 (length forig) 0 []
                ltac:(lia) ltac:(simpl; lia) ltac:(simpl; lia)) as Ds.
  pose proof (shrink_loop_defined "dst" torig 0 (length torig) 0 []
                ltac:(lia) ltac:(simpl; lia) ltac:(simpl; lia)) as Dd.
  destruct (shrink_loop "src" forig 0 0 []) as [[f|m]|] eqn:Ef;
    [| split; [discriminate | intros r H; discriminate] | congruence].
  destruct (shrink_loop "dst" torig 0 0 []) as [[t|m]|] eqn:Et;
    [| split; [discriminate | intros r H; discriminate] | congruence].
  apply (shrink_loop_extends "src" forig 0 (length forig)) in Ef; [|lia].
  apply (shrink_loop_extends "dst" torig 0 (length torig)) in Et; [|lia].
  destruct Ef as (sf & -> & Hf & _), Et as (st & -> & Ht & _).
  unfold pattern_of. cbn [app].
  destruct (Z.leb_spec (0 + Z.of_nat (length sf)) (Z.of_nat (length forig)));
    [|lia].
  destruct (Z.leb_spec (0 + Z.of_nat (length st)) (Z.of_nat (length torig)));
    [|lia].
  cbn. split; [discriminate|].
  intros r Hr. injection Hr as <-. cbn. lia.
Qed.

Lemma shrink_to_binary_fits_witness :
  shrink_to_binary fresh_heap (bytes "a%2fb") (bytes "%%") <> None
  /\ (length (bytes "a/b") <= length (bytes "a%2fb")
      /\ length (bytes "%") <= length (bytes "%%")).
Proof.
  destruct (shrink_to_binary_fits fresh_heap (bytes "a%2fb") (bytes "%%")
              eq_refl eq_refl) as [Hd Hl].
  split; [exact Hd|].
  apply (Hl (mk_rule (bytes "a/b") (bytes "%") (bytes "a%2fb") (bytes "%%"))).
  reflexivity.
Defined.

(** X8.  A rule accepted by the rule loop of [main] has an empty source
    pattern exactly when its source text is empty, that is when nothing
    stands between the first two slashes of the rule string, and the
    length [fs] of the rule was 0 on entry. *)
Theorem parse_rule_empty_source u arg r n :
  parse_rule u arg = Some (Ok (r, n)) ->
  (from r = [] <-> forig r = [] /\ u_fs u = 0%Z).
Proof.
  unfold parse_rule.
  destruct (strchr arg "/") as [k1|]; [|discriminate].
  destruct (strchr (skipn (S k1) arg) "/") as [k2|]; [|discriminate].
  set (fo := firstn k2 (skipn (S k1) arg)).
  destruct (match strchr (skipn (S k2) (skipn (S k1) arg)) "/" with
            | Some k3 => _
            | None => _
            end) as [tg cs].
  unfold shrink_to_binary.
  destruct (u_from u) as [bf|]; [|discriminate].
  destruct (u_to u) as [bt|]; [|discriminate].
  destruct (shrink_loop "src" fo (u_fs u) 0 []) as [[f|m]|] eqn:Ef;
    [|discriminate|discriminate].
  destruct (shrink_loop "dst" tg (u_ts u) 0 []) as [[t|m]|] eqn:Et;
    [|discriminate|discriminate].
  unfold pattern_of.
  destruct ((0 <=? u_fs u)%Z
            && (u_fs u + Z.of_nat (length f) <=? Z.of_nat (length fo))%Z)
    eqn:Bf; [|discriminate].
  destruct ((0 <=? u_ts u)%Z && _); [|discriminate].
  intros H. injection H as <- _. cbn [from forig].
  apply andb_prop in Bf. destruct Bf as [Bf _]. apply Z.leb_le in Bf.
  apply (shrink_loop_extends "src" fo (u_fs u) (length fo)) in Ef; [|lia].
  destruct Ef as (sf & -> & Hlen & Hne). cbn [app]. split.
  - intros E. apply (f_equal (@length ascii)) in E.
    rewrite length_app, length_map, length_seq in E. simpl in E.
    split; [|lia].
    destruct fo; [reflexivity|].
    exfalso. destruct sf; [|simpl in E; lia].
    apply Hne; [simpl; lia | reflexivity].
  - intros [-> Hz]. rewrite Hz. simpl in Hlen.
    destruct sf; [reflexivity | simpl in Hlen; lia].
Qed.

Lemma parse_rule_empty_source_witness :
  from (mk_rule [] (bytes "x") [] (bytes "x")) = []
  <-> forig (mk_rule [] (bytes "x") [] (bytes "x")) = []
      /\ u_fs fresh_heap = 0%Z.
Proof.
  apply (parse_rule_empty_source fresh_heap (bytes "s//x")
           (mk_rule [] (bytes "x") [] (bytes "x")) (-1)%Z).
  reflexivity.
Defined.

Lemma shrink_loop_plain which k0 :
  forall s pre out,
    ~ In "%"%char s ->
    shrink_loop which (pre ++ s) k0 (length pre) out
    = if fits (length (pre ++ s)) (k0 + Z.of_nat (length out)) s
      then Some (Ok (out ++ s)) else None.
Proof.
  induction s as [|c s IH]; intros pre out Hs.
  - rewrite shrink_loop_at_end by (rewrite length_app; simpl; lia).
    simpl. rewrite app_nil_r. reflexivity.
  - rewrite shrink_loop_body by (rewrite length_app; simpl; lia).
    rewrite char_at_app_0. unfold char_at at 1 2. cbn [nth].
    destruct (Ascii.eqb_spec c "%") as [->|_].
    + exfalso. apply Hs. left. reflexivity.
    + rewrite fits_cons. unfold in_block.
      destruct ((0 <=? k0 + Z.of_nat (length out))%Z
                && (k0 + Z.of_nat (length out)
                    <? Z.of_nat (length (pre ++ c :: s)))%Z);
        [|reflexivity].
      replace (pre ++ c :: s) with ((pre ++ [c]) ++ s)
        by (rewrite <- app_assoc; reflexivity).
      replace (S (length pre)) with (length (pre ++ [c]))
        by (rewrite length_app; simpl; lia).
      rewrite IH by (intros Hin; apply Hs; right; exact Hin).
      change (char_at (c :: s) 0) with c.
      rewrite (length_app out [c]). simpl length.
      replace (k0 + Z.of_nat (length out + 1))%Z
        with (k0 + Z.of_nat (length out) + 1)%Z by lia.
      rewrite <- (app_assoc out [c] s). reflexivity.
Qed.

(** A text stored as it stands fills its block: it lies in it only when
    stored from index 0 on. *)
Lemma pattern_of_whole blk (s : list ascii) k :
  pattern_of blk (length s) k s = if (k =? 0)%Z then Some s else None.
Proof.
  unfold pattern_of. destruct (Z.eqb_spec k 0) as [->|Hk].
  - destruct (Z.leb_spec (0 + Z.of_nat (length s)) (Z.of_nat (length s)));
      [reflexivity | lia].
  - destruct (Z.leb_spec 0 k); [|reflexivity].
    destruct (Z.leb_spec (k + Z.of_nat (length s)) (Z.of_nat (length s)));
      [lia | reflexivity].
Qed.

Lemma fits_whole_false (s : list ascii) k :
  fits (length s) k s = false -> (k =? 0)%Z = false.
Proof.
  unfold fits. destruct s as [|c s]; [discriminate|].
  destruct (Z.eqb_spec k 0) as [->|Hk]; [|reflexivity].
  destruct (Z.leb_spec (0 + Z.of_nat (length (c :: s)))
              (Z.of_nat (length (c :: s)))); [discriminate | lia].
Qed.

(** X9.  Text without [%] is taken as it stands when the lengths [fs]
    and [ts] of the rule are 0 on entry: [shrink_to_binary] then stores a
    source and a destination text free of [%] unchanged.  With another
    value in [fs] or [ts] it stores such texts outside their blocks, or
    leaves a length outside them. *)
Theorem shrink_to_binary_literal u forig torig bf bt :
  u_from u = Some bf -> u_to u = Some bt ->
  ~ In "%"%char forig -> ~ In "%"%char torig ->
  shrink_to_binary u forig torig
  = if (u_fs u =? 0)%Z && (u_ts u =? 0)%Z
    then Some (Ok (mk_rule forig torig forig torig))
    else None.
Proof.
  intros Hbf Hbt Hf Ht. unfold shrink_to_binary. rewrite Hbf, Hbt.
  pose proof (shrink_loop_plain "src" (u_fs u) forig [] [] Hf) as Ef.
  pose proof (shrink_loop_plain "dst" (u_ts u) torig [] [] Ht) as Et.
  cbn [app length] in Ef, Et. rewrite Z.add_0_r in Ef, Et.
  rewrite Ef, Et. clear Ef Et.
  destruct (fits (length forig) (u_fs u) forig) eqn:Ff.
  - destruct (fits (length torig) (u_ts u) torig) eqn:Ft.
    + rewrite !pattern_of_whole.
      destruct (u_fs u =? 0)%Z; destruct (u_ts u =? 0)%Z; reflexivity.
    + rewrite (fits_whole_false _ _ Ft), andb_false_r. reflexivity.
  - rewrite (fits_whole_false _ _ Ff). reflexivity.
Qed.

Lemma shrink_to_binary_literal_witness :
  shrink_to_binary fresh_heap (bytes "andrew") (bytes "mike")
  = Some (Ok (plain_rule "andrew" "mike"))
  /\ shrink_to_binary (mk_uninit 0 3 (Some zeroed) (Some zeroed))
       (bytes "andrew") (bytes "mike")
     = None.
Proof.
  split.
  - apply (shrink_to_binary_literal fresh_heap (bytes "andrew") (bytes "mike")
             zeroed zeroed eq_refl eq_refl).
    + simpl. intros H. repeat (destruct H as [H|H]; [discriminate H|]). exact H.
    + simpl. intros H. repeat (destruct H as [H|H]; [discriminate H|]). exact H.
  - apply (shrink_to_binary_literal (mk_uninit 0 3 (Some zeroed) (Some zeroed))
             (bytes "andrew") (bytes "mike") zeroed zeroed eq_refl eq_refl).
    + simpl. intros H. repeat (destruct H as [H|H]; [discriminate H|]). exact H.
    + simpl. intros H. repeat (destruct H as [H|H]; [discriminate H|]). exact H.
Defined.

Lemma hex_pair_spec lower n :
  n < 256 ->
  exists x y a b,
    hex_pair lower n = [x; y]
    /\ x <> zero /\ y <> zero
    /\ x <> "/"%char /\ y <> "/"%char
    /\ Ascii.eqb x "%" = false
    /\ hex_digit x = Some a /\ hex_digit y = Some b
    /\ 16 * a + b = n.
Proof.
  intros Hn.
  assert (Hall : forallb (fun n =>
            forallb (fun lower =>
              match hex_pair lower n with
              | [x; y] =>
                  negb (Ascii.eqb x zero) && negb (Ascii.eqb y zero)
                  && negb (Ascii.eqb x "/") && negb (Ascii.eqb y "/")
                  && negb (Ascii.eqb x "%")
                  && match hex_digit x, hex_digit y with
                     | Some a, Some b => 16 * a + b =? n
                     | _, _ => false
                     end
              | _ => false
              end) [true; false]) (seq 0 256) = true) by (vm_compute; reflexivity).
  rewrite forallb_forall in Hall.
  specialize (Hall n ltac:(apply in_seq; lia)).
  rewrite forallb_forall in Hall.
  specialize (Hall lower ltac:(destruct lower; simpl; auto)).
  destruct (hex_pair lower n) as [|x [|y [|? ?]]]; try discriminate.
  repeat (apply andb_prop in Hall; destruct Hall as [Hall ?]).
  destruct (hex_digit x) as [a|] eqn:Ea; [|discriminate].
  destruct (hex_digit y) as [b|] eqn:Eb; [|discriminate].
  exists x, y, a, b.
  repeat match goal with
         | H : negb (Ascii.eqb _ _) = true |- _ =>
             apply negb_true_iff in H
         end.
  match goal with
  | H : (_ =? n) = true |- _ => apply Nat.eqb_eq in H
  end.
  repeat split; try (intros ->; discriminate); assumption.
Qed.

Lemma escape_cons lower b bs :
  escape lower (b :: bs)
  = "%"%char :: hex_pair lower (nat_of_ascii b) ++ escape lower bs.
Proof. reflexivity. Qed.

Lemma nat_of_ascii_bound b : nat_of_ascii b < 256.
Proof. destruct b as [[] [] [] [] [] [] [] []]; vm_compute; lia. Qed.

Lemma escape_facts lower bs :
  Forall (fun c => c <> zero) (escape lower bs)
  /\ ~ In "/"%char (escape lower bs)
  /\ decode (escape lower bs) = inr bs.
Proof.
  induction bs as [|b bs (IHz & IHs & IHd)].
  - repeat split; [constructor | intros []].
  - rewrite escape_cons.
    destruct (hex_pair_spec lower (nat_of_ascii b) (nat_of_ascii_bound b))
      as (x & y & a & c & -> & Hx & Hy & Hxs & Hys & Hxp & Ha & Hc & Hv).
    cbn [app]. repeat split.
    + repeat (constructor; [first [assumption | discriminate]|]). exact IHz.
    + intros [H|[H|[H|H]]]; congruence.
    + cbn [decode]. change (Ascii.eqb "%" "%") with true. cbv iota.
      rewrite Hxp, Ha, Hc, Hv, IHd. cbn [emit_byte].
      rewrite ascii_nat_embedding. reflexivity.
Qed.

(** X10.  Every byte string can be written with escapes, the NUL byte
    and the slash included: when the lengths [fs] and [ts] of the rule
    are 0 on entry and [malloc] grants the two blocks, a rule string whose
    source and destination are the strings [X] and [Y] written as [%XY]
    escapes, in either case, with no count, is accepted and gives the rule
    of [X] and [Y] with the count [-1]. *)
Theorem parse_rule_reads_escapes u p l1 l2 X Y :
  zero_fields u ->
  ~ In "/"%char p ->
  parse_rule u (p ++ "/"%char :: escape l1 X ++ "/"%char :: escape l2 Y)
  = Some (Ok (mk_rule X Y (escape l1 X) (escape l2 Y), (-1)%Z)).
Proof.
  intros (H0 & H1 & Hbf & Hbt) Hp.
  destruct (escape_facts l1 X) as (Hz1 & Hs1 & Hd1).
  destruct (escape_facts l2 Y) as (Hz2 & Hs2 & Hd2).
  pose proof (parse_rule_fields u p (escape l1 X) (escape l2 Y) None
                Hp Hs1 Hs2) as H.
  rewrite app_nil_r in H. rewrite H. unfold shrink_to_binary.
  destruct (u_from u) as [bf|]; [|congruence].
  destruct (u_to u) as [bt|]; [|congruence].
  rewrite H0, H1.
  pose proof (shrink_loop_decode "src" 0 (length (escape l1 X)) (escape l1 X)
                [] [] (le_n _) Hz1) as E1.
  pose proof (shrink_loop_decode "dst" 0 (length (escape l2 Y)) (escape l2 Y)
                [] [] (le_n _) Hz2) as E2.
  simpl in E1, E2. rewrite E1, E2, Hd1, Hd2 by lia.
  cbn [lift_decode app]. unfold pattern_of.
  pose proof (decode_length _ _ _ (le_n _) Hd1).
  pose proof (decode_length _ _ _ (le_n _) Hd2).
  destruct (Z.leb_spec (0 + Z.of_nat (length X))
              (Z.of_nat (length (escape l1 X)))); [|lia].
  destruct (Z.leb_spec (0 + Z.of_nat (length Y))
              (Z.of_nat (length (escape l2 Y)))); [|lia].
  reflexivity.
Qed.

Lemma parse_rule_reads_escapes_witness :
  parse_rule fresh_heap (bytes "s/%61%2f%00/%0D%0A")
  = Some (Ok (mk_rule ["a"%char; "/"%char; zero] ["013"%char; "010"%char]
                (bytes "%61%2f%00") (bytes "%0D%0A"), (-1)%Z)).
Proof.
  apply (parse_rule_reads_escapes fresh_heap (bytes "s") true false
           ["a"%char; "/"%char; zero] ["013"%char; "010"%char]).
  - repeat split; discriminate.
  - simpl. intros [H|[]]. discriminate H.
Defined.

(** ** The rule loop of [main]: rule strings and their errors *)

(** X11.  The rule loop stores one rule and one count for each rule
    string, in order, when every string parses; otherwise the program
    stops with the reason of the first string that does not (or leaves
    what the source defines on that string), the strings before it having
    parsed. *)
Theorem parse_rules_all_or_first_error heap args :
  match parse_rules heap args with
  | Some (Ok (rs, ns)) =>
      length rs = length args /\ length ns = length args
      /\ forall k arg,
           nth_error args k = Some arg ->
           exists r n,
             nth_error rs k = Some r /\ nth_error ns k = Some n
             /\ parse_rule (heap k) arg = Some (Ok (r, n))
  | Some (Fatal m) =>
      exists pre arg post,
        args = pre ++ arg :: post
        /\ parse_rule (heap (length pre)) arg = Some (Fatal m)
        /\ forall k a,
             nth_error pre k = Some a ->
             exists rn, parse_rule (heap k) a = Some (Ok rn)
  | None =>
      exists pre arg post,
        args = pre ++ arg :: post
        /\ parse_rule (heap (length pre)) arg = None
        /\ forall k a,
             nth_error pre k = Some a ->
             exists rn, parse_rule (heap k) a = Some (Ok rn)
  end.
Proof.
  revert heap. induction args as [|arg args IH]; intros heap;
    cbn [parse_rules].
  - repeat split. intros [|k] a Hk; discriminate Hk.
  - destruct (parse_rule (heap 0) arg) as [[[r n]|m]|] eqn:E.
    + specialize (IH (fun k => heap (S k))).
      destruct (parse_rules (fun k => heap (S k)) args) as [[[rs ns]|m']|].
      * destruct IH as (L1 & L2 & HF). simpl. repeat split; try lia.
        intros [|k] a Hk.
        -- injection Hk as <-. exists r, n. repeat split. exact E.
        -- exact (HF k a Hk).
      * destruct IH as (pre & a & post & -> & Ha & Hpre).
        exists (arg :: pre), a, post. repeat split; auto.
        intros [|k] a' Hk.
        -- injection Hk as <-. eexists. exact E.
        -- exact (Hpre k a' Hk).
      * destruct IH as (pre & a & post & -> & Ha & Hpre).
        exists (arg :: pre), a, post. repeat split; auto.
        intros [|k] a' Hk.
        -- injection Hk as <-. eexists. exact E.
        -- exact (Hpre k a' Hk).
    + exists [], arg, args. repeat split; auto.
      intros [|k] a Hk; discriminate Hk.
    + exists [], arg, args. repeat split; auto.
      intros [|k] a Hk; discriminate Hk.
Qed.

Lemma strchr_split c s :
  c <> zero ->
  match strchr s c with
  | Some k => exists p q, s = p ++ c :: q /\ ~ In c p /\ k = length p
  | None => ~ In c s
  end.
Proof.
  intros Hc. induction s as [|x s IH]; simpl.
  - destruct (Ascii.eqb_spec c zero); [contradiction | intros []].
  - destruct (Ascii.eqb_spec x c) as [->|Hx].
    + exists [], s. repeat split. intros [].
    + destruct (strchr s c) as [k|].
      * destruct IH as (p & q & -> & Hp & ->).
        exists (x :: p), q. repeat split.
        intros [H|H]; [contradiction | exact (Hp H)].
      * intros [H|H]; [contradiction | exact (IH H)].
Qed.

Lemma shrink_loop_fatal which orig k0 :
  forall n i out m,
    length orig - i <= n ->
    shrink_loop which orig k0 i out = Some (Fatal m) ->
    m = msg_end which \/ m = msg_hex which.
Proof.
  induction n as [|n IH]; intros i out m Hn H.
  - rewrite shrink_loop_at_end in H by lia. discriminate.
  - destruct (Nat.le_gt_cases (length orig) i) as [Hle|Hlt].
    { rewrite shrink_loop_at_end in H by exact Hle. discriminate. }
    rewrite shrink_loop_body in H by exact Hlt.
    destruct (Ascii.eqb (char_at orig i) "%").
    + destruct (Ascii.eqb (char_at orig (S i)) "%").
      * destruct (in_block orig k0 out); [|discriminate].
        apply IH in H; [exact H | lia].
      * destruct (Ascii.eqb (char_at orig (S i)) zero);
          [injection H as <-; left; reflexivity|].
        destruct (Ascii.eqb (char_at orig (S (S i))) zero);
          [injection H as <-; left; reflexivity|].
        destruct (strchr hex (toupper (char_at orig (S i))));
          [|injection H as <-; right; reflexivity].
        destruct (strchr hex (toupper (char_at orig (S (S i)))));
          [|injection H as <-; right; reflexivity].
        destruct (in_block orig k0 out); [|discriminate].
        apply IH in H; [exact H | lia].
    + destruct (in_block orig k0 out); [|discriminate].
      apply IH in H; [exact H | lia].
Qed.

Lemma shrink_to_binary_fatal u forig torig m :
  shrink_to_binary u forig torig = Some (Fatal m) ->
  m = msg_end "src" \/ m = msg_hex "src"
  \/ m = msg_end "dst" \/ m = msg_hex "dst"
  \/ m = "shrink_to_binary: unable to malloc() buffers"%string.
Proof.
  unfold shrink_to_binary.
  destruct (u_from u) as [bf|]; [|intros H; injection H as <-; tauto].
  destruct (u_to u) as [bt|]; [|intros H; injection H as <-; tauto].
  destruct (shrink_loop "src" forig (u_fs u) 0 []) as [[f|m1]|] eqn:Ef.
  - destruct (shrink_loop "dst" torig (u_ts u) 0 []) as [[t|m2]|] eqn:Et.
    + destruct (pattern_of bf (length forig) (u_fs u) f); [|discriminate].
      destruct (pattern_of bt (length torig) (u_ts u) t); discriminate.
    + intros H. injection H as <-.
      apply (shrink_loop_fatal "dst" torig (u_ts u) (length torig)) in Et;
        [|lia].
      tauto.
    + discriminate.
  - intros H. injection H as <-.
    apply (shrink_loop_fatal "src" forig (u_fs u) (length forig)) in Ef;
      [|lia].
    tauto.
  - discriminate.
Qed.

Lemma parse_rule_two_slashes_fatal u arg k1 k2 m :
  strchr arg "/" = Some k1 ->
  strchr (skipn (S k1) arg) "/" = Some k2 ->
  parse_rule u arg = Some (Fatal m) ->
  m = msg_end "src" \/ m = msg_hex "src"
  \/ m = msg_end "dst" \/ m = msg_hex "dst"
  \/ m = "shrink_to_binary: unable to malloc() buffers"%string.
Proof.
  intros H1 H2. unfold parse_rule. rewrite H1, H2.
  destruct (strchr (skipn (S k2) (skipn (S k1) arg)) "/") as [k3|];
    cbv beta iota zeta;
    match goal with
    | |- context [shrink_to_binary u ?f ?t] =>
        destruct (shrink_to_binary u f t) as [[r|m']|] eqn:E
    end;
    try discriminate;
    intros H; injection H as <-;
    apply shrink_to_binary_fatal in E; exact E.
Qed.

(** X12.  The rule loop stops with "missing first '/' in rule" exactly
    for the rule strings without a slash, and with "missing second '/' in
    rule" exactly for those with a single slash. *)
Theorem parse_rule_missing_slash u arg :
  (parse_rule u arg = Some (Fatal "missing first '/' in rule")
   <-> ~ In "/"%char arg)
  /\ (parse_rule u arg = Some (Fatal "missing second '/' in rule")
      <-> exists p q, arg = p ++ "/"%char :: q
                      /\ ~ In "/"%char p /\ ~ In "/"%char q).
Proof.
  assert (Hsl : "/"%char <> zero) by discriminate.
  pose proof (strchr_split "/" arg Hsl) as H1.
  destruct (strchr arg "/") as [k1|] eqn:E1.
  - destruct H1 as (p & q & -> & Hp & ->).
    pose proof (strchr_split "/" q Hsl) as H2.
    destruct (strchr q "/") as [k2|] eqn:E2.
    + destruct H2 as (f & rest & -> & Hf & ->).
      assert (Hres : forall m,
                parse_rule u (p ++ "/"%char :: f ++ "/"%char :: rest)
                = Some (Fatal m) ->
                m = msg_end "src" \/ m = msg_hex "src"
                \/ m = msg_end "dst" \/ m = msg_hex "dst"
                \/ m = "shrink_to_binary: unable to malloc() buffers"%string).
      { intros m.
        apply (parse_rule_two_slashes_fatal u _ (length p) (length f)).
        - exact E1.
        - rewrite skipn_past. exact E2. }
      split; split.
      * intros H. apply Hres in H.
        destruct H as [H|[H|[H|[H|H]]]]; discriminate H.
      * intros H. exfalso. apply H. apply in_or_app. right. left. reflexivity.
      * intros H. apply Hres in H.
        destruct H as [H|[H|[H|[H|H]]]]; discriminate H.
      * intros (p' & q' & E & Hp' & Hq'). exfalso.
        assert (Hk : strchr (p' ++ "/"%char :: q') "/" = Some (length p'))
          by (apply strchr_found; exact Hp').
        rewrite <- E in Hk.
        rewrite (strchr_found "/" p _ Hp) in Hk. injection Hk as Hk.
        assert (Hpp : p = p').
        { apply (f_equal (firstn (length p))) in E.
          rewrite firstn_upto, Hk, firstn_upto in E. exact E. }
        subst p'. apply app_inv_head in E. injection E as <-.
        apply Hq'. apply in_or_app. right. left. reflexivity.
    + assert (Hres : parse_rule u (p ++ "/"%char :: q)
                     = Some (Fatal "missing second '/' in rule")).
      { unfold parse_rule. rewrite E1, skipn_past, E2. reflexivity. }
      rewrite Hres. split; split.
      * discriminate.
      * intros H. exfalso. apply H. apply in_or_app. right. left. reflexivity.
      * intros _. exists p, q. auto.
      * reflexivity.
  - assert (Hres : parse_rule u arg = Some (Fatal "missing first '/' in rule")).
    { unfold parse_rule. rewrite E1. reflexivity. }
    rewrite Hres. split; split.
    + intros _. exact H1.
    + reflexivity.
    + discriminate.
    + intros (p & q & -> & _). exfalso. apply H1.
      apply in_or_app. right. left. reflexivity.
Qed.

(** X13.  What stands before the first slash of a rule string is not
    looked at: the string parses as if it began at that slash (the leading
    [s] is not required). *)
Theorem parse_rule_ignores_prefix u p rest :
  ~ In "/"%char p ->
  parse_rule u (p ++ "/"%char :: rest) = parse_rule u ("/"%char :: rest).
Proof.
  intros Hp. unfold parse_rule.
  rewrite (strchr_found "/" p rest Hp), skipn_past.
  reflexivity.
Qed.

Lemma parse_rule_ignores_prefix_witness :
  parse_rule fresh_heap (bytes "xyz/andrew/mike/2")
  = parse_rule fresh_heap (bytes "/andrew/mike/2").
Proof.
  apply (parse_rule_ignores_prefix fresh_heap (bytes "xyz")
           (bytes "andrew/mike/2")).
  simpl. intros H. repeat (destruct H as [H|H]; [discriminate H|]). exact H.
Defined.

(** ** [clean_socks] and the handlers *)

Lemma free_all_trace conns :
  forall g,
    free_all conns g
    = Some (tt, mk_glob (g_buf g) (g_trace g ++ flat_map released conns)).
Proof.
  induction conns as [|c conns IH]; intros g.
  - simpl. unfold ret. rewrite app_nil_r. destruct g. reflexivity.
  - cbn [free_all flat_map]. unfold bind at 1.
    destruct (freetracker c g) as [[u g1]|] eqn:E.
    + pose proof (freetracker_trace c g u g1 E) as Ht.
      assert (Hb : g_buf g1 = g_buf g).
      { unfold freetracker, bind, emit in E.
        destruct (csa c); simpl in E; injection E as _ <-; reflexivity. }
      rewrite IH, Ht, Hb, <- app_assoc. reflexivity.
    + unfold freetracker, bind, emit in E. destruct (csa c); discriminate.
Qed.

(** X14.  [clean_socks] closes the listening socket and then releases
    every entry of the list, in order, as [freetracker] does: the address
    copy of a udp entry or the client socket of a tcp entry, the forward
    socket, the entry.  It leaves [buf] alone. *)
Theorem clean_socks_releases_all lsock conns g :
  clean_socks lsock conns g
  = Some (tt, mk_glob (g_buf g)
                (g_trace g ++ Sys_close lsock :: flat_map released conns)).
Proof.
  unfold clean_socks, bind, emit. rewrite free_all_trace. simpl.
  rewrite <- app_assoc. reflexivity.
Qed.

Lemma run_sed_counters rule fuel siz lv g n out lv' g' :
  run_sed rule fuel siz lv g = Some (n, out, lv', g') ->
  counters_spent lv lv'.
Proof.
  unfold run_sed, sed_the_buffer.
  destruct (sed_loop rule (g_buf g) fuel siz (mk_sed 0 [] lv 0)) as [st|] eqn:E;
    [|discriminate].
  intros H. injection H as _ _ <- _.
  apply (sed_loop_counters rule (g_buf g) siz fuel _ _ E).
Qed.

Lemma b2server_sed_counters rule fuel e conn rd g c' g' :
  b2server_sed rule fuel e conn rd g = Some (c', g') ->
  counters_spent (live conn) (live c').
Proof.
  unfold b2server_sed. destruct (0 <? rd)%Z.
  - intros H. inv_bind H as r g1 Hsed. destruct r as [[n out] lv].
    apply run_sed_counters in Hsed.
    inv_bind H as u g2 Hemit.
    destruct (e_send e _ out); inv_ret H; exact Hsed.
  - intros H. inv_ret H. apply counters_spent_refl.
Qed.

Lemma live_after_read r c :
  live (if (rd_value r =? 0)%Z
        then set_state DISCONNECTED
               match r with
               | Rd_error false => set_state DISCONNECTED c
               | _ => c
               end
        else match r with
             | Rd_error false => set_state DISCONNECTED c
             | _ => c
             end) = live c.
Proof. destruct (rd_value r =? 0)%Z; destruct r as [[]|]; reflexivity. Qed.

Lemma client2server_sed_counters rule fuel e conn g c' g' :
  client2server_sed rule fuel e conn g = Some (c', g') ->
  counters_spent (live conn) (live c').
Proof.
  unfold client2server_sed. intros H. inv_bind H as u g1 Hfill.
  apply b2server_sed_counters in H. rewrite live_after_read in H. exact H.
Qed.

Lemma server2client_sed_counters rule fuel e conn g c' g' :
  server2client_sed rule fuel e conn g = Some (c', g') ->
  counters_spent (live conn) (live c').
Proof.
  unfold server2client_sed. intros H. inv_bind H as u g1 Hfill.
  destruct (0 <? rd_value (e_read e (fsock conn)))%Z.
  - inv_bind H as r g2 Hsed. destruct r as [[n out] lv].
    apply run_sed_counters in Hsed. rewrite live_after_read in Hsed.
    inv_bind H as u2 g3 Hemit.
    destruct (e_send e _ out); inv_ret H; exact Hsed.
  - inv_ret H. rewrite live_after_read. apply counters_spent_refl.
Qed.

Lemma serve_counters tcp rule fuel e conn g c' g' :
  serve tcp rule fuel e conn g = Some (c', g') ->
  counters_spent (live conn) (live c').
Proof.
  unfold serve. intros H.
  inv_bind H as c1 g1 Hc2s. inv_bind H as c2 g2 Hs2c.
  assert (H1 : counters_spent (live conn) (live c1)).
  { destruct (tcp && e_isset e (csock conn)).
    - eapply client2server_sed_counters; eauto.
    - inv_ret Hc2s. apply counters_spent_refl. }
  assert (H2 : counters_spent (live c1) (live c2)).
  { destruct (e_isset e (fsock c1)).
    - eapply server2client_sed_counters; eauto.
    - inv_ret Hs2c. apply counters_spent_refl. }
  destruct (negb tcp && (UDP_TIMEOUT <=? e_time e - time c2)%Z);
    inv_ret H; eapply counters_spent_trans; eauto.
Qed.

(** X15.  Serving an entry in the last loop of a turn (the two handlers
    and the udp timeout) never closes a descriptor and never frees a
    block, leaves the sockets and the client address of the entry as they
    are, and spends its counters only downwards, keeping their number. *)
Theorem serve_keeps_entry tcp rule fuel e conn g c' g' :
  serve tcp rule fuel e conn g = Some (c', g') ->
  csa c' = csa conn /\ csl c' = csl conn
  /\ csock c' = csock conn /\ fsock c' = fsock conn
  /\ (exists t, g_trace g' = g_trace g ++ t
                /\ Forall (fun c => is_release c = false) t)
  /\ length (live c') = length (live conn)
  /\ forall j, (nth j (live conn) 0%Z = 0%Z -> nth j (live c') 0%Z = 0%Z)
               /\ ((0 <= nth j (live conn) 0)%Z ->
                   (0 <= nth j (live c') 0 <= nth j (live conn) 0)%Z).
Proof.
  intros H.
  destruct (serve_spec tcp rule fuel e conn g c' g' H)
    as [(A & B & C & D) (t & Et & Rt)].
  destruct (serve_counters tcp rule fuel e conn g c' g' H) as [L Hc].
  split; [congruence|]. split; [congruence|].
  split; [congruence|]. split; [congruence|].
  split; [|split; [exact L | exact Hc]].
  exists t. split; [exact Et|].
  apply Forall_forall. intros c Hin.
  destruct (is_release c) eqn:E; [|reflexivity].
  assert (Hf : In c (releases t))
    by (unfold releases; apply filter_In; auto).
  rewrite Rt in Hf. contradiction.
Qed.

Lemma serve_keeps_entry_witness :
  exists c' g',
    serve false [plain_rule "andrew" "mike"] 100 example_env
      (mk_tracker (Some (bytes "B")) 1 3 6 35 UNREPLIED [(-1)%Z])
      (mk_glob zeroed []) = Some (c', g')
    /\ csa c' = Some (bytes "B") /\ fsock c' = 6%Z
    /\ length (live c') = 1.
Proof.
  eexists. eexists. split; [reflexivity|].
  destruct (serve_keeps_entry false [plain_rule "andrew" "mike"] 100
              example_env
              (mk_tracker (Some (bytes "B")) 1 3 6 35 UNREPLIED [(-1)%Z])
              (mk_glob zeroed []) _ _ eq_refl)
    as (A & _ & _ & D & _ & L & _).
  split; [exact A | split; [exact D | exact L]].
Defined.

(** ** The last loop of a turn *)

Lemma freetracker_run c g :
  freetracker c g = Some (tt, mk_glob (g_buf g) (g_trace g ++ released c)).
Proof.
  unfold freetracker, released, bind, emit.
  destruct (csa c); simpl; rewrite <- !app_assoc; reflexivity.
Qed.

Lemma released_set_state s c : released (set_state s c) = released c.
Proof. reflexivity. Qed.

Lemma walk_cons tcp rule fuel e c rest g :
  walk tcp rule fuel e (c :: rest) g
  = match serve tcp rule fuel e c g with
    | Some (c', g1) =>
        if is_dead (state c')
        then walk tcp rule fuel e rest
               (mk_glob (g_buf g1) (g_trace g1 ++ released c'))
        else match walk tcp rule fuel e rest g1 with
             | Some (rest', g2) => Some (c' :: rest', g2)
             | None => None
             end
    | None => None
    end.
Proof.
  cbn [walk]. unfold bind at 1.
  destruct (serve tcp rule fuel e c g) as [[c' g1]|]; [|reflexivity].
  destruct (is_dead (state c')).
  - unfold bind. rewrite freetracker_run. reflexivity.
  - unfold bind, ret.
    destruct (walk tcp rule fuel e rest g1) as [[rest' g2]|]; reflexivity.
Qed.

(** X16.  The last loop of a turn treats the entries one after the
    other, in list order: over a list made of two parts it does what it
    does over the first part and then, from the globals left by that, what
    it does over the second, and the lists it keeps are put end to end. *)
Theorem walk_app tcp rule fuel e l1 l2 g :
  walk tcp rule fuel e (l1 ++ l2) g
  = match walk tcp rule fuel e l1 g with
    | Some (r1, g1) =>
        match walk tcp rule fuel e l2 g1 with
        | Some (r2, g2) => Some (r1 ++ r2, g2)
        | None => None
        end
    | None => None
    end.
Proof.
  revert g. induction l1 as [|c l1 IH]; intros g.
  - simpl. unfold ret. destruct (walk tcp rule fuel e l2 g) as [[r2 g2]|];
      reflexivity.
  - cbn [app]. rewrite !walk_cons.
    destruct (serve tcp rule fuel e c g) as [[c' g1]|]; [|reflexivity].
    destruct (is_dead (state c')).
    + apply IH.
    + rewrite IH.
      destruct (walk tcp rule fuel e l1 g1) as [[r1 g2]|]; [|reflexivity].
      destruct (walk tcp rule fuel e l2 g2) as [[r2 g3]|]; reflexivity.
Qed.

Lemma serve_idle tcp rule fuel e c g :
  (tcp = true -> e_isset e (csock c) = false) ->
  e_isset e (fsock c) = false ->
  serve tcp rule fuel e c g
  = Some (if negb tcp && (UDP_TIMEOUT <=? e_time e - time c)%Z
          then set_state TIMEOUT c else c, g).
Proof.
  intros Hc Hf. unfold serve, bind.
  assert (E : tcp && e_isset e (csock c) = false).
  { destruct tcp; [rewrite Hc by reflexivity|]; reflexivity. }
  rewrite E. unfold ret at 1. rewrite Hf. unfold ret at 1.
  destruct (negb tcp && (UDP_TIMEOUT <=? e_time e - time c)%Z); reflexivity.
Qed.

Lemma kept_idle_served tcp now c :
  let c' := if negb tcp && (UDP_TIMEOUT <=? now - time c)%Z
            then set_state TIMEOUT c else c in
  is_dead (state c') = negb (kept_idle tcp now c)
  /\ released c' = released c
  /\ (kept_idle tcp now c = true -> c' = c).
Proof.
  unfold kept_idle, alive.
  destruct tcp; cbn [negb andb orb].
  - rewrite andb_true_r, negb_involutive. auto.
  - destruct (Z.leb_spec UDP_TIMEOUT (now - time c));
      destruct (Z.ltb_spec (now - time c) UDP_TIMEOUT); try lia.
    + rewrite andb_false_r. repeat split. discriminate.
    + rewrite andb_true_r, negb_involutive. auto.
Qed.

(** X17.  A turn in which no socket of any entry is ready only drops
    entries: the list handed on is the old one without the entries that
    were dead already and, for udp, without those idle for [UDP_TIMEOUT]
    seconds or more, the kept entries being unchanged; the dropped ones are
    released in order, and [buf] is left alone.  A tcp entry is never
    dropped for being idle. *)
Theorem walk_idle tcp rule fuel e conns g :
  (forall c, In c conns ->
     (tcp = true -> e_isset e (csock c) = false)
     /\ e_isset e (fsock c) = false) ->
  walk tcp rule fuel e conns g
  = Some (filter (kept_idle tcp (e_time e)) conns,
          mk_glob (g_buf g)
            (g_trace g
             ++ flat_map released
                  (filter (fun c => negb (kept_idle tcp (e_time e) c)) conns))).
Proof.
  revert g. induction conns as [|c conns IH]; intros g Hidle.
  - simpl. unfold ret. rewrite app_nil_r. destruct g. reflexivity.
  - destruct (Hidle c (or_introl eq_refl)) as [Hc Hf].
    assert (Hrest : forall c', In c' conns ->
              (tcp = true -> e_isset e (csock c') = false)
              /\ e_isset e (fsock c') = false)
      by (intros c' Hin; apply Hidle; right; exact Hin).
    rewrite walk_cons, (serve_idle tcp rule fuel e c g Hc Hf).
    destruct (kept_idle_served tcp (e_time e) c) as (Hd & Hr & Hsame).
    cbv zeta in Hd, Hr, Hsame. rewrite Hd, Hr. cbn [filter].
    destruct (kept_idle tcp (e_time e) c); cbn [negb flat_map].
    + rewrite Hsame by reflexivity. rewrite IH by exact Hrest. reflexivity.
    + rewrite IH by exact Hrest.
      cbn [g_buf g_trace]. rewrite <- app_assoc. reflexivity.
Qed.

Lemma walk_idle_witness :
  walk false [plain_rule "andrew" "mike"] 100
    (mk_env 40 false 0 (fun _ => false) (-1) (Rd_error true) [] (-1) false
       (fun _ => Rd_error true) (fun _ _ => true))
    example_conns (mk_glob zeroed [])
  = Some ([mk_tracker (Some (bytes "B")) 1 3 6 35 UNREPLIED [(-1)%Z]],
          mk_glob zeroed [Sys_free_csa (bytes "A"); Sys_close 5; Sys_free_conn]).
Proof.
  apply (walk_idle false [plain_rule "andrew" "mike"] 100
           (mk_env 40 false 0 (fun _ => false) (-1) (Rd_error true) [] (-1)
              false (fun _ => Rd_error true) (fun _ _ => true))
           example_conns (mk_glob zeroed [])).
  intros c Hc. split; reflexivity.
Defined.

Lemma walk_single tcp rule fuel e c g c' g' :
  serve tcp rule fuel e c g = Some (c', g') ->
  walk tcp rule fuel e [c] g
  = if is_dead (state c')
    then Some ([], mk_glob (g_buf g') (g_trace g' ++ released c'))
    else Some ([c'], g').
Proof.
  intros H. rewrite walk_cons, H. destruct (is_dead (state c')); reflexivity.
Qed.

Lemma serve_client_only rule fuel e conn g :
  e_isset e (csock conn) = true ->
  e_isset e (fsock conn) = false ->
  serve true rule fuel e conn g = client2server_sed rule fuel e conn g.
Proof.
  intros Hc Hf. unfold serve. rewrite Hc. cbn [andb negb].
  unfold bind at 1.
  destruct (client2server_sed rule fuel e conn g) as [[c1 g1]|] eqn:E;
    [|reflexivity].
  apply client2server_sed_spec in E. destruct E as [(_ & _ & _ & Ef) _].
  rewrite <- Ef, Hf. reflexivity.
Qed.

(** X18.  A tcp entry whose client socket is ready while its forward
    socket is not: when the [read] fails with [EAGAIN] the entry, if it was
    not dead, is kept as it is and nothing else happens; when the [read]
    fails otherwise, or returns 0 bytes (end of file), the entry is dropped
    within the same turn and released, nothing being sent to the server. *)
Theorem walk_client_read_without_data rule fuel e conn g :
  e_isset e (csock conn) = true ->
  e_isset e (fsock conn) = false ->
  (e_read e (csock conn) = Rd_error true -> is_dead (state conn) = false ->
   walk true rule fuel e [conn] g = Some ([conn], g))
  /\ (e_read e (csock conn) = Rd_error false ->
      walk true rule fuel e [conn] g
      = Some ([], mk_glob (g_buf g) (g_trace g ++ released conn)))
  /\ (e_read e (csock conn) = Rd_data [] ->
      walk true rule fuel e [conn] g
      = Some ([], mk_glob (store [] (g_buf g)) (g_trace g ++ released conn))).
Proof.
  intros Hc Hf.
  pose proof (serve_client_only rule fuel e conn g Hc Hf) as Hs.
  repeat apply conj.
  - intros Hr Halive.
    assert (E : serve true rule fuel e conn g = Some (conn, g)).
    { rewrite Hs. unfold client2server_sed. rewrite Hr. reflexivity. }
    rewrite (walk_single _ _ _ _ _ _ _ _ E), Halive. reflexivity.
  - intros Hr.
    assert (E : serve true rule fuel e conn g
                = Some (set_state DISCONNECTED conn, g)).
    { rewrite Hs. unfold client2server_sed. rewrite Hr. reflexivity. }
    rewrite (walk_single _ _ _ _ _ _ _ _ E). reflexivity.
  - intros Hr.
    assert (E : serve true rule fuel e conn g
                = Some (set_state DISCONNECTED conn,
                        mk_glob (store [] (g_buf g)) (g_trace g))).
    { rewrite Hs. unfold client2server_sed. rewrite Hr. reflexivity. }
    rewrite (walk_single _ _ _ _ _ _ _ _ E). reflexivity.
Qed.

Lemma walk_client_read_without_data_witness :
  walk true [plain_rule "andrew" "mike"] 100
    (mk_env 7 false 1 (fun fd => (fd =? 4)%Z) (-1) (Rd_error true) [] (-1)
       false (fun _ => Rd_data []) (fun _ _ => true))
    [mk_tracker None 0 4 5 0 ESTABLISHED [(-1)%Z]] (mk_glob zeroed [])
  = Some ([], mk_glob (store [] zeroed)
                [Sys_close 4; Sys_close 5; Sys_free_conn]).
Proof.
  destruct (walk_client_read_without_data [plain_rule "andrew" "mike"] 100
              (mk_env 7 false 1 (fun fd => (fd =? 4)%Z) (-1) (Rd_error true)
                 [] (-1) false (fun _ => Rd_data []) (fun _ _ => true))
              (mk_tracker None 0 4 5 0 ESTABLISHED [(-1)%Z])
              (mk_glob zeroed []) eq_refl eq_refl) as (_ & _ & H).
  apply H. reflexivity.
Defined.




(** ** The listening block *)

(** The udp block for a datagram whose sender the scan does not find,
    when the forward socket connects. *)
Lemma listen_phase_new_flow rule rule_live lsock fuel e conns g d :
  e_recvfrom e = Rd_data d ->
  lookup (e_sender e) conns = None ->
  (0 <= lsock)%Z ->
  e_connect e = true ->
  listen_phase false rule rule_live lsock fuel e conns g
  = bind (b2server_sed rule fuel e (new_tracker false rule_live e lsock)
            (Z.of_nat (length d)))
      (fun c' => ret (c' :: conns))
      (mk_glob (store d (g_buf g)) (g_trace g)).
Proof.
  intros Hrd Hl Hls Hco. unfold listen_phase. cbv beta iota zeta.
  rewrite Hrd. cbn [rd_value].
  assert (Hpos : (0 <=? Z.of_nat (length d))%Z = true)
    by (apply Z.leb_le; lia).
  assert (Hlp : (0 <=? lsock)%Z = true) by (apply Z.leb_le; exact Hls).
  rewrite Hpos, Hl, Hlp, Hco. cbv beta iota.
  unfold bind at 1. unfold fill. unfold bind at 1. unfold ret at 1.
  cbv beta iota. cbn [nth_error put_at]. reflexivity.
Qed.

(** X20.  When the forward socket of a new connection does not connect,
    the connection is dropped and the list is left as it was: for tcp the
    accepted socket and the forward socket are closed; for udp the address
    copy is freed and the forward socket closed, the datagram, which stays
    in [buf], is not forwarded, and the listening socket is not closed. *)
Theorem listen_phase_connect_failure rule rule_live lsock fuel e conns g :
  e_connect e = false ->
  ((0 <= e_accept e)%Z ->
   listen_phase true rule rule_live lsock fuel e conns g
   = Some (conns,
           mk_glob (g_buf g)
             (g_trace g ++ [Sys_close (e_accept e); Sys_close (e_socket e);
                            Sys_free_conn])))
  /\ (forall d,
        e_recvfrom e = Rd_data d ->
        lookup (e_sender e) conns = None ->
        (0 <= lsock)%Z ->
        listen_phase false rule rule_live lsock fuel e conns g
        = Some (conns,
                mk_glob (store d (g_buf g))
                  (g_trace g ++ [Sys_free_csa (e_sender e);
                                 Sys_close (e_socket e); Sys_free_conn]))).
Proof.
  intros Hco. split.
  - intros Hacc. unfold listen_phase. cbv beta iota zeta.
    assert (Ha : (0 <=? e_accept e)%Z = true) by (apply Z.leb_le; exact Hacc).
    rewrite Ha, Hco. unfold bind at 1. unfold ret at 1.
    unfold bind at 1. unfold bind at 1.
    rewrite freetracker_run. unfold ret. reflexivity.
  - intros d Hrd Hl Hls. unfold listen_phase. cbv beta iota zeta.
    rewrite Hrd. cbn [rd_value].
    assert (Hpos : (0 <=? Z.of_nat (length d))%Z = true)
      by (apply Z.leb_le; lia).
    assert (Hlp : (0 <=? lsock)%Z = true) by (apply Z.leb_le; exact Hls).
    rewrite Hpos, Hl, Hlp, Hco. cbv beta iota.
    unfold bind at 1. unfold fill. unfold bind at 1. unfold bind at 1.
    rewrite freetracker_run. unfold ret. reflexivity.
Qed.

Lemma listen_phase_connect_failure_witness :
  listen_phase false [plain_rule "andrew" "mike"] [(-1)%Z] 3 100
    (mk_env 10 false 1 (fun fd => (fd =? 3)%Z) (-1)
       (Rd_data (bytes "hi")) (bytes "C") 7 false
       (fun _ => Rd_error true) (fun _ _ => true))
    example_flow (mk_glob zeroed [])
  = Some (example_flow,
          mk_glob (store (bytes "hi") zeroed)
            [Sys_free_csa (bytes "C"); Sys_close 7; Sys_free_conn]).
Proof.
  destruct (listen_phase_connect_failure [plain_rule "andrew" "mike"]
              [(-1)%Z] 3 100
              (mk_env 10 false 1 (fun fd => (fd =? 3)%Z) (-1)
                 (Rd_data (bytes "hi")) (bytes "C") 7 false
                 (fun _ => Rd_error true) (fun _ _ => true))
              example_flow (mk_glob zeroed []) eq_refl) as [_ H].
  apply (H (bytes "hi")); [reflexivity | reflexivity | lia].
Defined.

(** X21.  Udp flow identity.  On a list met while the loop runs, once a
    datagram has been handled (the listening socket being a valid
    descriptor and the forward socket of a new flow connecting), its
    sender has an entry, which the scan finds, and the senders of the
    other entries are those of before: a sender already known leaves the
    list as long as it was, an unknown one makes it one entry longer. *)
Theorem udp_datagram_has_flow rule rule_live lsock fuel conns e g d conns' g' :
  reachable false rule rule_live lsock fuel conns ->
  e_recvfrom e = Rd_data d ->
  (0 <= lsock)%Z ->
  e_connect e = true ->
  listen_phase false rule rule_live lsock fuel e conns g = Some (conns', g') ->
  (exists k c', lookup (e_sender e) conns' = Some k
                /\ nth_error conns' k = Some c'
                /\ csa c' = Some (e_sender e))
  /\ (In (e_sender e) (udp_addrs conns) ->
      length conns' = length conns /\ udp_addrs conns' = udp_addrs conns)
  /\ (~ In (e_sender e) (udp_addrs conns) ->
      length conns' = S (length conns)
      /\ udp_addrs conns' = e_sender e :: udp_addrs conns).
Proof.
  intros Hreach Hrd Hls Hco Hstep.
  destruct (reachable_inv false rule rule_live lsock fuel conns Hreach)
    as [Hnd Hsz].
  destruct (lookup (e_sender e) conns) as [k|] eqn:El.
  - destruct (lookup_some (e_sender e) conns k Hsz El) as (c & Hn & Ha).
    rewrite (listen_phase_existing rule rule_live lsock fuel e conns g d k c
               Hrd El Hn) in Hstep.
    inv_bind Hstep as c' g1 Hb. inv_ret Hstep.
    apply b2server_sed_spec in Hb. destruct Hb as [Hs _].
    destruct (put_at_same k c c' conns Hn Hs) as (Hu & Hz & Hlen).
    assert (Hn' : nth_error (put_at k c' conns) k = Some c').
    { clear - Hn. revert k Hn. induction conns as [|c0 conns IH]; intros k Hn.
      - destruct k; discriminate.
      - destruct k as [|k]; simpl; [reflexivity | apply IH; exact Hn]. }
    assert (Ha' : csa c' = Some (e_sender e))
      by (destruct Hs as (Ea & _); congruence).
    assert (Hnd' : NoDup (udp_addrs (put_at k c' conns)))
      by (rewrite Hu; exact Hnd).
    split; [|split].
    + exists k, c'. split; [|split; [exact Hn' | exact Ha']].
      exact (lookup_finds (e_sender e) (put_at k c' conns) (Hz Hsz) Hnd'
               k c' Hn' Ha').
    + intros _. split; [exact Hlen | exact Hu].
    + intros Hnot. exfalso. apply Hnot. eapply in_udp_addrs; eauto.
  - rewrite (listen_phase_new_flow rule rule_live lsock fuel e conns g d
               Hrd El Hls Hco) in Hstep.
    inv_bind Hstep as c' g1 Hb. inv_ret Hstep.
    apply b2server_sed_spec in Hb. destruct Hb as [(Ea & Elen & _) _].
    simpl in Ea, Elen.
    assert (Hsz' : sized c').
    { intros a Ha. rewrite <- Ea in Ha. injection Ha as <-. congruence. }
    pose proof (lookup_none (e_sender e) conns Hsz El) as Hnot.
    split; [|split].
    + exists 0, c'. split; [|split; [reflexivity | congruence]].
      simpl. replace (same_sender (e_sender e) c') with true; [reflexivity|].
      symmetry. apply (same_sender_iff (e_sender e) c' Hsz'). congruence.
    + intros Hin. contradiction.
    + intros _. split; [reflexivity|].
      rewrite udp_addrs_cons, <- Ea. reflexivity.
Qed.

Lemma udp_datagram_has_flow_witness :
  exists conns' g',
    listen_phase false [plain_rule "andrew" "mike"] [(-1)%Z] 3 100
      (datagram_env 12 (bytes "B") (bytes "andrew") 6) example_flow
      (mk_glob zeroed []) = Some (conns', g')
    /\ length conns' = 2
    /\ udp_addrs conns' = [bytes "B"; bytes "A"].
Proof.
  exists (mk_tracker (Some (bytes "B")) 1 3 6 12 UNREPLIED [(-2)%Z]
            :: example_flow),
         (mk_glob (store (bytes "andrew") zeroed) [Sys_write 6 (bytes "mike")]).
  split; [reflexivity|].
  assert (Hreach : reachable false [plain_rule "andrew" "mike"] [(-1)%Z] 3 100
                     example_flow).
  { apply (reach_listen false [plain_rule "andrew" "mike"] [(-1)%Z] 3 100
             (datagram_env 10 (bytes "A") (bytes "hello andrew") 5) []
             (mk_glob zeroed []) example_flow
             (mk_glob (store (bytes "hello andrew") zeroed)
                [Sys_write 5 (bytes "hello mike")])).
    - apply reach_start.
    - reflexivity. }
  destruct (udp_datagram_has_flow [plain_rule "andrew" "mike"] [(-1)%Z] 3 100
              example_flow (datagram_env 12 (bytes "B") (bytes "andrew") 6)
              (mk_glob zeroed []) (bytes "andrew") _ _
              Hreach eq_refl ltac:(lia) eq_refl eq_refl) as (_ & _ & Hnew).
  apply Hnew. simpl. intros [H|[]]. discriminate H.
Defined.

(** ** What holds of every entry while the loop runs *)

Lemma Forall_put_at (P : tracker_s -> Prop) k c' conns :
  Forall P conns -> P c' -> Forall P (put_at k c' conns).
Proof.
  intros HF Hc. revert k. induction HF as [|c conns Hp HF IH]; intros k.
  - destruct k; constructor.
  - destruct k as [|k]; simpl; constructor; auto.
Qed.

Lemma listen_phase_Forall (P : tracker_s -> Prop)
    tcp rule rule_live lsock fuel e conns g conns' g' :
  (tcp = true -> P (new_tracker tcp rule_live e (e_accept e))) ->
  (tcp = false -> P (new_tracker tcp rule_live e lsock)) ->
  (tcp = false ->
   forall c rd g0 c' g1,
     P c -> b2server_sed rule fuel e c rd g0 = Some (c', g1) -> P c') ->
  Forall P conns ->
  listen_phase tcp rule rule_live lsock fuel e conns g = Some (conns', g') ->
  Forall P conns'.
Proof.
  intros Hnt Hnu Hb HF H. unfold listen_phase in H.
  destruct tcp; cbv beta iota zeta in H.
  - inv_bind H as u g1 Hu. inv_ret Hu.
    inv_bind H as r g2 Hr. destruct r as [conns1 conn].
    destruct (0 <=? e_accept e)%Z.
    + destruct (e_connect e).
      * inv_ret Hr. simpl in H. inv_ret H. constructor; auto.
      * inv_bind Hr as u1 g3 Hf. inv_ret Hr. inv_ret H. exact HF.
    + inv_ret Hr. inv_ret H. exact HF.
  - specialize (Hb eq_refl). specialize (Hnu eq_refl).
    inv_bind H as u g1 Hu.
    destruct (e_recvfrom e) as [b|d] eqn:Er.
    + cbn [rd_value] in H. change (0 <=? -1)%Z with false in H.
      cbv beta iota in H.
      inv_bind H as r g2 Hr. destruct r as [conns1 conn].
      inv_ret Hr. inv_ret H. exact HF.
    + cbn [rd_value] in H.
      assert (Hpos : (0 <=? Z.of_nat (length d))%Z = true)
        by (apply Z.leb_le; lia).
      rewrite Hpos in H. cbv beta iota in H.
      inv_bind H as r g2 Hr. destruct r as [conns1 conn].
      destruct (lookup (e_sender e) conns) as [k|] eqn:El.
      * change (0 <=? -1)%Z with false in Hr. cbv beta iota in Hr.
        inv_ret Hr.
        destruct (nth_error conns k) as [c|] eqn:En.
        -- inv_bind H as c' g3 Hbs. inv_ret H.
           apply Forall_put_at; [exact HF|].
           apply (Hb c _ _ _ _ (proj1 (Forall_forall P conns) HF c
                                  (nth_error_In conns k En)) Hbs).
        -- inv_ret H. exact HF.
      * destruct (0 <=? lsock)%Z.
        -- destruct (e_connect e).
           ++ inv_ret Hr. cbn [nth_error] in H.
              inv_bind H as c' g3 Hbs. inv_ret H.
              constructor; [|exact HF].
              apply (Hb _ _ _ _ _ Hnu Hbs).
           ++ inv_bind Hr as u1 g3 Hf. inv_ret Hr. inv_ret H. exact HF.
        -- inv_ret Hr. inv_ret H. exact HF.
Qed.

Lemma walk_Forall (P : tracker_s -> Prop) tcp rule fuel e :
  (forall c g0 c' g1,
     P c -> serve tcp rule fuel e c g0 = Some (c', g1) ->
     is_dead (state c') = false -> P c') ->
  forall conns g conns' g',
    Forall P conns ->
    walk tcp rule fuel e conns g = Some (conns', g') ->
    Forall P conns'.
Proof.
  intros Hs. induction conns as [|c conns IH]; intros g conns' g' HF H.
  - inv_ret H. constructor.
  - inversion HF as [|? ? Hc HF']; subst.
    rewrite walk_cons in H.
    destruct (serve tcp rule fuel e c g) as [[c1 g1]|] eqn:E; [|discriminate].
    destruct (is_dead (state c1)) eqn:Hd.
    + eapply IH; eauto.
    + destruct (walk tcp rule fuel e conns g1) as [[rest g2]|] eqn:Ew;
        [|discriminate].
      injection H as <- <-. constructor.
      * eapply Hs; eauto.
      * eapply IH; eauto.
Qed.

Lemma reachable_Forall (P : tracker_s -> Prop) tcp rule rule_live lsock fuel :
  (forall e, tcp = true -> P (new_tracker tcp rule_live e (e_accept e))) ->
  (forall e, tcp = false -> P (new_tracker tcp rule_live e lsock)) ->
  (tcp = false ->
   forall e c rd g0 c' g1,
     P c -> b2server_sed rule fuel e c rd g0 = Some (c', g1) -> P c') ->
  (forall e c g0 c' g1,
     P c -> serve tcp rule fuel e c g0 = Some (c', g1) ->
     is_dead (state c') = false -> P c') ->
  forall conns,
    reachable tcp rule rule_live lsock fuel conns -> Forall P conns.
Proof.
  intros Hnt Hnu Hb Hs conns Hreach.
  induction Hreach as [|e conns g conns' g' Hreach IH Hstep
                       |e conns g conns' g' Hreach IH Hstep].
  - constructor.
  - eapply (listen_phase_Forall P); eauto.
  - eapply (walk_Forall P tcp rule fuel e (Hs e)); eauto.
Qed.

(** X22.  While the loop runs every entry carries one counter for each
    initial count: the copy of [rule_live] made for a new connection keeps
    its length under all the handlers. *)
Theorem live_counters_per_rule tcp rule rule_live lsock fuel conns :
  reachable tcp rule rule_live lsock fuel conns ->
  Forall (fun c => length (live c) = length rule_live) conns.
Proof.
  apply (reachable_Forall (fun c => length (live c) = length rule_live)).
  - intros e ->. reflexivity.
  - intros e ->. reflexivity.
  - intros _ e c rd g0 c' g1 Hc H.
    apply b2server_sed_counters in H. destruct H as [L _]. congruence.
  - intros e c g0 c' g1 Hc H _.
    apply serve_counters in H. destruct H as [L _]. congruence.
Qed.

Lemma live_counters_per_rule_witness :
  Forall (fun c => length (live c) = length [(-1)%Z]) example_flow.
Proof.
  apply (live_counters_per_rule false [plain_rule "andrew" "mike"] [(-1)%Z]
           3 100 example_flow).
  apply (reach_listen false [plain_rule "andrew" "mike"] [(-1)%Z] 3 100
           (datagram_env 10 (bytes "A") (bytes "hello andrew") 5) []
           (mk_glob zeroed []) example_flow
           (mk_glob (store (bytes "hello andrew") zeroed)
              [Sys_write 5 (bytes "hello mike")])).
  - apply reach_start.
  - reflexivity.
Defined.

Lemma b2server_sed_state rule fuel e conn rd g c' g' :
  b2server_sed rule fuel e conn rd g = Some (c', g') ->
  state c' = state conn \/ is_dead (state c') = true.
Proof.
  unfold b2server_sed. destruct (0 <? rd)%Z.
  - intros H. inv_bind H as r g1 Hsed. destruct r as [[n out] lv].
    inv_bind H as u g2 Hemit.
    destruct (e_send e _ out); inv_ret H; [left|right]; reflexivity.
  - intros H. inv_ret H. left. reflexivity.
Qed.

Lemma client2server_sed_state rule fuel e conn g c' g' :
  client2server_sed rule fuel e conn g = Some (c', g') ->
  state c' = state conn \/ is_dead (state c') = true.
Proof.
  unfold client2server_sed. intros H. inv_bind H as u g1 Hfill.
  apply b2server_sed_state in H. destruct H as [H|H]; [|right; exact H].
  rewrite H.
  destruct (rd_value (e_read e (csock conn)) =? 0)%Z;
    destruct (e_read e (csock conn)) as [[]|]; simpl; auto.
Qed.

Lemma server2client_sed_state rule fuel e conn g c' g' :
  server2client_sed rule fuel e conn g = Some (c', g') ->
  state c' = state conn \/ state c' = ESTABLISHED
  \/ is_dead (state c') = true.
Proof.
  unfold server2client_sed. intros H. inv_bind H as u g1 Hfill.
  destruct (0 <? rd_value (e_read e (fsock conn)))%Z.
  - inv_bind H as r g2 Hsed. destruct r as [[n out] lv].
    inv_bind H as u2 g3 Hemit.
    destruct (e_send e _ out); inv_ret H; simpl; auto.
  - inv_ret H.
    destruct (rd_value (e_read e (fsock conn)) =? 0)%Z;
      destruct (e_read e (fsock conn)) as [[]|]; simpl; auto.
Qed.

Lemma serve_state tcp rule fuel e conn g c' g' :
  serve tcp rule fuel e conn g = Some (c', g') ->
  state c' = state conn \/ state c' = ESTABLISHED
  \/ is_dead (state c') = true.
Proof.
  unfold serve. intros H.
  inv_bind H as c1 g1 Hc2s. inv_bind H as c2 g2 Hs2c.
  assert (H1 : state c1 = state conn \/ is_dead (state c1) = true).
  { destruct (tcp && e_isset e (csock conn)).
    - eapply client2server_sed_state; eauto.
    - inv_ret Hc2s. left. reflexivity. }
  assert (H2 : state c2 = state c1 \/ state c2 = ESTABLISHED
               \/ is_dead (state c2) = true).
  { destruct (e_isset e (fsock c1)).
    - eapply server2client_sed_state; eauto.
    - inv_ret Hs2c. left. reflexivity. }
  destruct (negb tcp && (UDP_TIMEOUT <=? e_time e - time c2)%Z);
    inv_ret H.
  - right. right. reflexivity.
  - destruct H2 as [H2|[H2|H2]]; auto.
    rewrite H2. destruct H1 as [H1|H1]; auto.
Qed.

(** X23.  While the loop runs the entries have the shape of their
    protocol.  With tcp every entry is [ESTABLISHED] and has no address
    copy.  With udp every entry has an address copy and the listening
    socket as its client socket. *)
Theorem entries_well_tagged tcp rule rule_live lsock fuel conns :
  reachable tcp rule rule_live lsock fuel conns ->
  Forall (well_tagged tcp lsock) conns.
Proof.
  revert conns.
  apply (reachable_Forall (well_tagged tcp lsock)).
  - intros e ->. simpl. auto.
  - intros e ->. simpl. split; [discriminate | reflexivity].
  - intros -> e c rd g0 c' g1 Hc H.
    apply b2server_sed_spec in H. destruct H as [(A & B & C & D) _].
    simpl in *. destruct Hc as [Ha Hs]. split; congruence.
  - intros e c g0 c' g1 Hc H Hd.
    pose proof (serve_state _ _ _ _ _ _ _ _ H) as Hst.
    apply serve_spec in H. destruct H as [(A & B & C & D) _].
    unfold well_tagged in *. destruct tcp.
    + destruct Hc as (Ha & Hl & Hs).
      split; [congruence|]. split; [congruence|].
      destruct Hst as [Hst|[Hst|Hst]]; congruence.
    + destruct Hc as [Ha Hs]. split; congruence.
Qed.

Lemma entries_well_tagged_witness :
  Forall (well_tagged false 3) example_flow.
Proof.
  apply (entries_well_tagged false [plain_rule "andrew" "mike"] [(-1)%Z]
           3 100 example_flow).
  apply (reach_listen false [plain_rule "andrew" "mike"] [(-1)%Z] 3 100
           (datagram_env 10 (bytes "A") (bytes "hello andrew") 5) []
           (mk_glob zeroed []) example_flow
           (mk_glob (store (bytes "hello andrew") zeroed)
              [Sys_write 5 (bytes "hello mike")])).
  - apply reach_start.
  - reflexivity.
Defined.

(** ** The arguments of [select] *)

Lemma prepare_entry_rd_set tcp now a c :
  rd_set (prepare_entry tcp now a c) = rd_set a ++ watched tcp c.
Proof.
  unfold prepare_entry, watched, watch. destruct tcp; cbn [rd_set app].
  - rewrite <- app_assoc. reflexivity.
  - destruct (remain now c <? tv_sec a)%Z; reflexivity.
Qed.

Lemma prepare_fold_rd_set tcp now conns a :
  rd_set (fold_left (prepare_entry tcp now) conns a)
  = rd_set a ++ flat_map (watched tcp) conns.
Proof.
  revert a. induction conns as [|c conns IH]; intros a; simpl.
  - rewrite app_nil_r. reflexivity.
  - rewrite IH, prepare_entry_rd_set, <- app_assoc. reflexivity.
Qed.

Lemma watch_max fd a :
  In (nfds a) (rd_set a) ->
  Forall (fun x => (x <= nfds a)%Z) (rd_set a) ->
  In (nfds (watch fd a)) (rd_set (watch fd a))
  /\ Forall (fun x => (x <= nfds (watch fd a))%Z) (rd_set (watch fd a)).
Proof.
  intros Hin Hall. unfold watch. cbn [nfds rd_set].
  destruct (nfds a <? fd)%Z eqn:E.
  - apply Z.ltb_lt in E. split.
    + apply in_or_app. right. left. reflexivity.
    + apply Forall_app. split.
      * eapply Forall_impl; [|exact Hall]. cbv beta. intros x Hx. lia.
      * constructor; [lia | constructor].
  - apply Z.ltb_ge in E. split.
    + apply in_or_app. left. exact Hin.
    + apply Forall_app. split; [exact Hall|].
      constructor; [lia | constructor].
Qed.

Lemma prepare_entry_max tcp now a c :
  In (nfds a) (rd_set a) ->
  Forall (fun x => (x <= nfds a)%Z) (rd_set a) ->
  In (nfds (prepare_entry tcp now a c)) (rd_set (prepare_entry tcp now a c))
  /\ Forall (fun x => (x <= nfds (prepare_entry tcp now a c))%Z)
       (rd_set (prepare_entry tcp now a c)).
Proof.
  intros Hin Hall. unfold prepare_entry. destruct tcp.
  - destruct (watch_max (csock c) a Hin Hall) as [H1 H2].
    apply watch_max; assumption.
  - destruct (remain now c <? tv_sec a)%Z; apply watch_max; assumption.
Qed.

Lemma prepare_fold_max tcp now conns a :
  In (nfds a) (rd_set a) ->
  Forall (fun x => (x <= nfds a)%Z) (rd_set a) ->
  let a' := fold_left (prepare_entry tcp now) conns a in
  In (nfds a') (rd_set a') /\ Forall (fun x => (x <= nfds a')%Z) (rd_set a').
Proof.
  revert a. induction conns as [|c conns IH]; intros a Hin Hall; simpl.
  - split; assumption.
  - destruct (prepare_entry_max tcp now a c Hin Hall) as [H1 H2].
    apply IH; assumption.
Qed.

(** X24.  [select] is given the listening socket and, for every entry,
    its forward socket, and with tcp its client socket before it; no
    other descriptor.  [nfds] is the largest of them, so [nfds+1] covers
    the whole set. *)
Theorem prepare_select_descriptors tcp lsock now conns :
  let a := prepare_select tcp lsock now conns in
  rd_set a = lsock :: flat_map (watched tcp) conns
  /\ In (nfds a) (rd_set a)
  /\ Forall (fun fd => (fd < nfds a + 1)%Z) (rd_set a).
Proof.
  unfold prepare_select. cbv zeta. split.
  - rewrite prepare_fold_rd_set. reflexivity.
  - destruct (prepare_fold_max tcp now conns
                (mk_select_args [lsock] lsock (UDP_TIMEOUT + 1) false))
      as [H1 H2].
    + left. reflexivity.
    + constructor; [simpl; lia | constructor].
    + split; [exact H1|].
      eapply Forall_impl; [|exact H2]. cbv beta. intros x Hx. lia.
Qed.

Lemma prepare_fold_tcp now conns a :
  ptimeout (fold_left (prepare_entry true now) conns a) = ptimeout a
  /\ tv_sec (fold_left (prepare_entry true now) conns a) = tv_sec a.
Proof.
  revert a. induction conns as [|c conns IH]; intros a; simpl.
  - split; reflexivity.
  - destruct (IH (prepare_entry true now a c)) as [H1 H2].
    rewrite H1, H2. split; reflexivity.
Qed.

Lemma prepare_fold_udp now conns a :
  let a' := fold_left (prepare_entry false now) conns a in
  tv_sec a' = fold_left Z.min (map (remain now) conns) (tv_sec a)
  /\ ptimeout a'
     = ptimeout a
       || existsb (fun c => (remain now c <? tv_sec a)%Z) conns.
Proof.
  revert a. induction conns as [|c conns IH]; intros a; simpl.
  - split; [reflexivity | rewrite orb_false_r; reflexivity].
  - destruct (IH (prepare_entry false now a c)) as [H1 H2].
    rewrite H1, H2. clear IH H1 H2.
    unfold prepare_entry, watch.
    destruct (remain now c <? tv_sec a)%Z eqn:E; cbn [tv_sec ptimeout].
    + apply Z.ltb_lt in E. rewrite Z.min_r by lia.
      rewrite orb_true_r. split; reflexivity.
    + apply Z.ltb_ge in E. rewrite Z.min_l by lia.
      rewrite orb_false_l. split; reflexivity.
Qed.

Lemma fold_min_spec (l : list Z) (init : Z) :
  let m := fold_left Z.min l init in
  (m <= init)%Z /\ (forall x, In x l -> (m <= x)%Z) /\ (m = init \/ In m l).
Proof.
  revert init. induction l as [|x l IH]; intros init; simpl.
  - split; [lia|]. split; [intros x []|]. left. reflexivity.
  - destruct (IH (Z.min init x)) as (H1 & H2 & H3).
    split; [lia|]. split.
    + intros y [<-|Hy]; [lia | apply H2; exact Hy].
    + destruct H3 as [H3|H3]; [|right; right; exact H3].
      destruct (Z.min_spec init x) as [[_ E]|[_ E]].
      * left. rewrite H3. exact E.
      * right. left. rewrite H3. symmetry. exact E.
Qed.

Lemma remain_in_range now c :
  (0 <= now - time c <= INT_MAX)%Z ->
  remain now c = Z.max 0 (time c + UDP_TIMEOUT - now).
Proof.
  unfold remain, to_int, UDP_TIMEOUT, INT_MAX. intros H.
  replace ((30 - (now - time c) + 2147483648) mod 4294967296)%Z
    with (30 - (now - time c) + 2147483648)%Z
    by (symmetry; apply Z.mod_small; lia).
  destruct (30 - (now - time c) + 2147483648 - 2147483648 <? 0)%Z eqn:E.
  - apply Z.ltb_lt in E. lia.
  - apply Z.ltb_ge in E. lia.
Qed.

(** X25.  With tcp, or while no flow is tracked, [select] is given no
    timeout: it waits until a descriptor is ready or a signal arrives. *)
Theorem prepare_select_waits tcp lsock now conns :
  tcp = true \/ conns = [] ->
  ptimeout (prepare_select tcp lsock now conns) = false.
Proof.
  intros [->| ->].
  - unfold prepare_select.
    destruct (prepare_fold_tcp now conns
                (mk_select_args [lsock] lsock (UDP_TIMEOUT + 1) false))
      as [H _].
    exact H.
  - reflexivity.
Qed.

Lemma prepare_select_waits_witness :
  ptimeout (prepare_select true 3 40 example_conns) = false.
Proof.
  apply (prepare_select_waits true 3 40 example_conns).
  left. reflexivity.
Defined.

(** X26.  With udp and at least one flow, when no flow was last active
    after [now], [select] is given a timeout of at most [UDP_TIMEOUT]
    seconds that ends no later than the earliest moment a flow has been
    idle for [UDP_TIMEOUT] seconds, and exactly then for some flow (at
    once when a flow is already that old). *)
Theorem prepare_select_timeout lsock now conns :
  conns <> [] ->
  Forall (fun c => (0 <= now - time c <= INT_MAX)%Z) conns ->
  let a := prepare_select false lsock now conns in
  ptimeout a = true
  /\ (0 <= tv_sec a <= UDP_TIMEOUT)%Z
  /\ (forall c, In c conns ->
        (tv_sec a <= Z.max 0 (time c + UDP_TIMEOUT - now))%Z)
  /\ exists c, In c conns
               /\ tv_sec a = Z.max 0 (time c + UDP_TIMEOUT - now).
Proof.
  intros Hne Hall. cbv zeta. unfold prepare_select.
  destruct (prepare_fold_udp now conns
              (mk_select_args [lsock] lsock (UDP_TIMEOUT + 1) false))
    as [Ht Hp].
  cbv zeta in Ht, Hp. cbn [tv_sec ptimeout] in Ht, Hp.
  rewrite Ht, Hp. clear Ht Hp.
  destruct (fold_min_spec (map (remain now) conns) (UDP_TIMEOUT + 1)%Z)
    as (M1 & M2 & M3).
  cbv zeta in M1, M2, M3.
  set (m := fold_left Z.min (map (remain now) conns) (UDP_TIMEOUT + 1)%Z)
    in *.
  assert (Hr : forall c, In c conns ->
                 remain now c = Z.max 0 (time c + UDP_TIMEOUT - now)
                 /\ (0 <= remain now c <= UDP_TIMEOUT)%Z).
  { intros c Hc.
    pose proof (proj1 (Forall_forall _ conns) Hall c Hc) as Hcr.
    cbv beta in Hcr. rewrite (remain_in_range now c Hcr).
    split; [reflexivity|]. unfold UDP_TIMEOUT. lia. }
  assert (Hle : forall c, In c conns -> (m <= remain now c)%Z).
  { intros c Hc. apply M2. apply in_map. exact Hc. }
  destruct conns as [|c0 rest]; [congruence|].
  assert (Hin : In m (map (remain now) (c0 :: rest))).
  { destruct M3 as [M3|M3]; [|exact M3].
    pose proof (Hle c0 (or_introl eq_refl)) as H0.
    destruct (Hr c0 (or_introl eq_refl)) as [_ H1]. lia. }
  apply in_map_iff in Hin. destruct Hin as (c & Hm & Hc).
  destruct (Hr c Hc) as [Hc1 Hc2].
  split; [|split; [|split]].
  - rewrite orb_false_l. apply existsb_exists. exists c. split; [exact Hc|].
    apply Z.ltb_lt. lia.
  - lia.
  - intros c' Hc'. rewrite <- (proj1 (Hr c' Hc')). apply Hle. exact Hc'.
  - exists c. split; [exact Hc|]. rewrite <- Hc1. symmetry. exact Hm.
Qed.

Lemma prepare_select_timeout_witness :
  ptimeout (prepare_select false 3 40 example_conns) = true
  /\ (0 <= tv_sec (prepare_select false 3 40 example_conns) <= UDP_TIMEOUT)%Z
  /\ (forall c, In c example_conns ->
        (tv_sec (prepare_select false 3 40 example_conns)
         <= Z.max 0 (time c + UDP_TIMEOUT - 40))%Z)
  /\ exists c, In c example_conns
               /\ tv_sec (prepare_select false 3 40 example_conns)
                  = Z.max 0 (time c + UDP_TIMEOUT - 40).
Proof.
  apply (prepare_select_timeout 3 40 example_conns).
  - discriminate.
  - repeat constructor; vm_compute; discriminate.
Defined.

(** ** Addresses and the forwarding target *)

Lemma swap16_range p :
  (0 <= p < 65536)%Z -> (0 <= swap16 p < 65536)%Z.
Proof.
  unfold swap16. intros H.
  pose proof (Z.mod_pos_bound p 256 ltac:(lia)).
  assert (0 <= p / 256 < 256)%Z.
  { split; [apply Z.div_pos; lia | apply Z.div_lt_upper_bound; lia]. }
  lia.
Qed.

Lemma swap16_involutive p :
  (0 <= p < 65536)%Z -> swap16 (swap16 p) = p.
Proof.
  unfold swap16. intros H.
  pose proof (Z.mod_pos_bound p 256 ltac:(lia)) as Hlo.
  assert (Hhi : (0 <= p / 256 < 256)%Z).
  { split; [apply Z.div_pos; lia | apply Z.div_lt_upper_bound; lia]. }
  pose proof (Z.div_mod p 256 ltac:(lia)) as Hp.
  set (lo := (p mod 256)%Z) in *. set (hi := (p / 256)%Z) in *.
  replace ((lo * 256 + hi) mod 256)%Z with hi.
  2:{ symmetry. rewrite Z.add_comm, Z.mod_add by lia.
      apply Z.mod_small. lia. }
  replace ((lo * 256 + hi) / 256)%Z with lo.
  2:{ symmetry. rewrite Z.add_comm, Z.div_add by lia.
      rewrite (Z.div_small hi 256) by lia. lia. }
  lia.
Qed.

Lemma ntohs_htons be p :
  (0 <= p < 65536)%Z -> ntohs be (htons be p) = p.
Proof.
  intros H. unfold ntohs, htons. destruct be; [reflexivity|].
  apply swap16_involutive. exact H.
Qed.

Lemma htons_ntohs be p :
  (0 <= p < 65536)%Z -> htons be (ntohs be p) = p.
Proof.
  intros H. unfold ntohs, htons. destruct be; [reflexivity|].
  apply swap16_involutive. exact H.
Qed.

Lemma set_port_get_port_same be sa :
  port_field_ok sa -> set_port be sa (get_port be sa) = sa.
Proof.
  destruct sa as [p a|p fl a sc|f]; simpl; intros H.
  - rewrite (htons_ntohs be p H). reflexivity.
  - rewrite (htons_ntohs be p H). reflexivity.
  - reflexivity.
Qed.

(** X27.  A port below 65536 written by [set_port] to an IPv4 or IPv6
    address is read back by [get_port], on a host of either byte order,
    and [set_port] changes neither the family nor whether the address
    is the wildcard.  For any other family [get_port] is 0. *)
Theorem set_port_get_port be sa port :
  (0 <= port < 65536)%Z ->
  get_port be (set_port be sa port)
  = match sa with
    | Sa_other _ => 0%Z
    | _ => port
    end
  /\ is_addr_any (set_port be sa port) = is_addr_any sa
  /\ family_set (set_port be sa port) = family_set sa.
Proof.
  intros H.
  destruct sa as [p a|p fl a sc|f];
    cbn [get_port set_port is_addr_any family_set];
    try rewrite (ntohs_htons be port H); repeat split.
Qed.

Lemma set_port_get_port_witness :
  get_port false (set_port false (Sa_in 0 2130706433) 8080) = 8080%Z
  /\ set_port false (Sa_in 0 2130706433) 8080 = Sa_in 36895 2130706433.
Proof.
  split.
  - apply (set_port_get_port false (Sa_in 0 2130706433) 8080). lia.
  - reflexivity.
Defined.

Lemma resolve_remote_first be reslist fixedhost fixedport :
  resolve_remote be reslist = Ok (fixedhost, fixedport) ->
  exists pre res post,
    reslist = pre ++ res :: post
    /\ Forall (fun c => (ai_sd c < 0)%Z) pre
    /\ (0 <= ai_sd res)%Z
    /\ fixedport = get_port be (ai_addr res)
    /\ fixedhost = (if is_addr_any (ai_addr res) then zero_storage
                    else ai_addr res).
Proof.
  induction reslist as [|c rest IH]; simpl; [discriminate|].
  destruct (ai_sd c <? 0)%Z eqn:E.
  - apply Z.ltb_lt in E. intros H.
    destruct (IH H) as (pre & res & post & -> & Hp & Hs & Hq & Hh).
    exists (c :: pre), res, post.
    split; [reflexivity|]. split; [constructor; assumption|].
    split; [exact Hs|]. split; assumption.
  - apply Z.ltb_ge in E. intros H. injection H as <- <-.
    exists [], c, rest.
    split; [reflexivity|]. split; [constructor|].
    split; [exact E|]. split; [reflexivity|].
    destruct (is_addr_any (ai_addr c)); reflexivity.
Qed.

(** X28.  The remote host and port are taken from the first candidate
    for which [socket] succeeds: [fixedport] is its port and [fixedhost]
    is set when its address is no wildcard (and has a family).  A new
    connection is then forwarded to that candidate's address itself when
    [fixedhost] is set and [fixedport] is not 0, whatever the original
    destination; a host that is not set is replaced by the original
    destination's and a port 0 by the original destination's; with both,
    the target is the original destination. *)
Theorem forward_target_resolved be reslist fixedhost fixedport s :
  resolve_remote be reslist = Ok (fixedhost, fixedport) ->
  Forall (fun c => port_field_ok (ai_addr c)) reslist ->
  port_field_ok s ->
  exists pre res post,
    reslist = pre ++ res :: post
    /\ Forall (fun c => (ai_sd c < 0)%Z) pre
    /\ (0 <= ai_sd res)%Z
    /\ fixedport = get_port be (ai_addr res)
    /\ family_set fixedhost
       = negb (is_addr_any (ai_addr res)) && family_set (ai_addr res)
    /\ forward_target be fixedhost fixedport s
       = if family_set fixedhost then
           if (fixedport =? 0)%Z
           then set_port be (ai_addr res) (get_port be s)
           else ai_addr res
         else
           if (fixedport =? 0)%Z then s
           else set_port be s (get_port be (ai_addr res)).
Proof.
  intros Hres Hok Hs.
  destruct (resolve_remote_first be reslist fixedhost fixedport Hres)
    as (pre & res & post & -> & Hp & Hsd & Hport & Hhost).
  exists pre, res, post.
  split; [reflexivity|]. split; [exact Hp|]. split; [exact Hsd|].
  split; [exact Hport|].
  split; [rewrite Hhost; destruct (is_addr_any (ai_addr res)); reflexivity|].
  assert (Hr : port_field_ok (ai_addr res)).
  { apply (proj1 (Forall_forall _ _) Hok). apply in_or_app. right. left.
    reflexivity. }
  unfold forward_target.
  destruct (family_set fixedhost) eqn:Ef.
  - assert (Eh : fixedhost = ai_addr res).
    { rewrite Hhost in *. destruct (is_addr_any (ai_addr res));
        [discriminate | reflexivity]. }
    rewrite Eh.
    destruct (fixedport =? 0)%Z eqn:Ep; cbn [negb].
    + reflexivity.
    + rewrite Hport. apply set_port_get_port_same. exact Hr.
  - destruct (fixedport =? 0)%Z eqn:Ep; cbn [negb].
    + apply set_port_get_port_same. exact Hs.
    + rewrite Hport. reflexivity.
Qed.

Lemma forward_target_resolved_witness :
  exists pre res post,
    [mk_candidate (Sa_in6 36895 0 (repeat zero 15 ++ [one]) 0) (-1);
     mk_candidate (Sa_in 36895 2130706433) 4]
    = pre ++ res :: post
    /\ Forall (fun c => (ai_sd c < 0)%Z) pre
    /\ (0 <= ai_sd res)%Z
    /\ 8080%Z = get_port false (ai_addr res)
    /\ true = negb (is_addr_any (ai_addr res)) && family_set (ai_addr res)
    /\ forward_target false (Sa_in 36895 2130706433) 8080
         (Sa_in 20480 167772161)
       = ai_addr res.
Proof.
  apply (forward_target_resolved false
           [mk_candidate (Sa_in6 36895 0 (repeat zero 15 ++ [one]) 0) (-1);
            mk_candidate (Sa_in 36895 2130706433) 4]
           (Sa_in 36895 2130706433) 8080 (Sa_in 20480 167772161)).
  - reflexivity.
  - repeat constructor; simpl; lia.
  - simpl. lia.
Defined.

(** ** The listening socket *)

Lemma opened_app t t' : opened (t ++ t') = opened t ++ opened t'.
Proof. unfold opened. apply flat_map_app. Qed.

Lemma closed_app t t' : closed (t ++ t') = closed t ++ closed t'.
Proof. unfold closed. apply flat_map_app. Qed.

Lemma last_cons (l : list Z) (x d : Z) : last (x :: l) d = last l x.
Proof.
  revert x d. induction l as [|y l IH]; intros x d; [reflexivity|].
  change (last (x :: y :: l) d) with (last (y :: l) d).
  rewrite IH. symmetry. apply IH.
Qed.

Lemma bind_loop_spec af tcp reslist lsock :
  forall l found t,
    bind_loop af tcp reslist lsock = (l, found, t) ->
    if found then
      exists pre c post,
        reslist = pre ++ c :: post
        /\ Forall (fun c => usable tcp c = false) pre
        /\ usable tcp c = true
        /\ l = lc_sd c
        /\ opened t = closed t ++ [l]
    else
      Forall (fun c => usable tcp c = false) reslist
      /\ closed t = opened t
      /\ l = last (map lc_sd reslist) lsock.
Proof.
  revert lsock. induction reslist as [|res rest IH]; intros lsock l found t H.
  - simpl in H. injection H as <- <- <-.
    split; [constructor|]. split; reflexivity.
  - assert (Hcont : forall t0,
      closed t0 = opened t0 -> usable tcp res = false ->
      (let '(l, found, t') := bind_loop af tcp rest (lc_sd res) in
       (l, found, t0 ++ t')) = (l, found, t) ->
      if found then
        exists pre c post,
          res :: rest = pre ++ c :: post
          /\ Forall (fun c => usable tcp c = false) pre
          /\ usable tcp c = true
          /\ l = lc_sd c
          /\ opened t = closed t ++ [l]
      else
        Forall (fun c => usable tcp c = false) (res :: rest)
        /\ closed t = opened t
        /\ l = last (map lc_sd (res :: rest)) lsock).
    { intros t0 Hbal Hbad Hc.
      destruct (bind_loop af tcp rest (lc_sd res)) as [[l1 f1] t1] eqn:E.
      injection Hc as <- <- <-.
      specialize (IH (lc_sd res) l1 f1 t1 E).
      destruct f1.
      - destruct IH as (pre & c & post & -> & Hp & Hu & Hl & Ho).
        exists (res :: pre), c, post.
        split; [reflexivity|]. split; [constructor; assumption|].
        split; [exact Hu|]. split; [exact Hl|].
        rewrite opened_app, closed_app, Ho, Hbal, app_assoc. reflexivity.
      - destruct IH as (Hall & Hb & Hl).
        split; [constructor; assumption|]. split.
        + rewrite opened_app, closed_app, Hb, Hbal. reflexivity.
        + rewrite Hl. cbn [map]. symmetry. apply last_cons. }
    cbn [bind_loop] in H.
    destruct (lc_sd res <? 0)%Z eqn:Esd.
    + apply (Hcont [L_socket (lc_sd res)]); [| |exact H].
      * unfold closed, opened. simpl.
        apply Z.ltb_lt in Esd.
        destruct (0 <=? lc_sd res)%Z eqn:E0; [apply Z.leb_le in E0; lia|].
        reflexivity.
      * unfold usable. apply Z.ltb_lt in Esd.
        destruct (0 <=? lc_sd res)%Z eqn:E0; [apply Z.leb_le in E0; lia|].
        reflexivity.
    + assert (E0 : (0 <=? lc_sd res)%Z = true)
        by (apply Z.ltb_ge in Esd; apply Z.leb_le; exact Esd).
      destruct (lc_bind res) eqn:Eb; cbn [negb] in H.
      * destruct tcp.
        -- destruct (lc_listen res) eqn:El; cbn [negb] in H.
           ++ clear Hcont. injection H as <- <- <-.
              exists [], res, rest.
              split; [reflexivity|]. split; [constructor|].
              split; [unfold usable; rewrite E0, Eb, El; reflexivity|].
              split; [reflexivity|].
              unfold opened, closed.
              destruct (lc_inet6 res); simpl; rewrite E0; reflexivity.
           ++ apply Hcont in H; [exact H| |].
              ** unfold opened, closed.
                 destruct (lc_inet6 res); simpl; rewrite E0; reflexivity.
              ** unfold usable. rewrite E0, Eb, El. reflexivity.
        -- clear Hcont. injection H as <- <- <-.
           exists [], res, rest.
           split; [reflexivity|]. split; [constructor|].
           split; [unfold usable; rewrite E0, Eb; reflexivity|].
           split; [reflexivity|].
           unfold opened, closed.
           destruct (lc_inet6 res); simpl; rewrite E0; reflexivity.
      * apply Hcont in H; [exact H| |].
        -- unfold opened, closed.
           destruct (lc_inet6 res); simpl; rewrite E0; reflexivity.
        -- unfold usable. rewrite E0, Eb. reflexivity.
Qed.

(** X29.  [bind_and_listen] listens on the first candidate for which
    [socket], [bind] and, with tcp, [listen] all succeed; the sockets
    opened for the candidates before it have all been closed, in order,
    and no other.  When no candidate will do, every opened socket has
    been closed and [error] then closes once more whatever [lsock] holds:
    the result of the last [socket] call, or the initial value when there
    was no candidate. *)
Theorem bind_and_listen_first_usable af tcp reslist lsock :
  match bind_and_listen af tcp (Some reslist) lsock with
  | (Ok l, t) =>
      exists pre c post,
        reslist = pre ++ c :: post
        /\ Forall (fun c => usable tcp c = false) pre
        /\ usable tcp c = true
        /\ l = lc_sd c
        /\ opened t = closed t ++ [l]
  | (Fatal reason, t) =>
      reason = "Listening socket failed."%string
      /\ Forall (fun c => usable tcp c = false) reslist
      /\ closed t = opened t ++ [last (map lc_sd reslist) lsock]
  end.
Proof.
  unfold bind_and_listen.
  destruct (bind_loop af tcp reslist lsock) as [[l found] t] eqn:E.
  pose proof (bind_loop_spec af tcp reslist lsock l found t E) as H.
  destruct found.
  - exact H.
  - destruct H as (Hall & Hb & Hl).
    split; [reflexivity|]. split; [exact Hall|].
    rewrite closed_app, opened_app, Hb, Hl. simpl.
    rewrite app_nil_r. reflexivity.
Qed.
